(** * GPLAN region-based room placement: a shallow embedding of [strategy.py]

    The development follows the Python module class by class:
    [PlotRegion], [Room], the free function [are_adjacent] and the engine
    [RegionBasedPlacement].

    Modelling decisions, all local to this header:
    - The model covers integer inputs.  Room and region coordinates, sizes
      and the sampling step are Python [int]s (the configuration surface
      feeds spin-box integers); they are [Z] here.  The float regions that
      [create_h_shape_regions] and the module's [main] build are outside
      the model: every statement below is a statement about integer
      coordinates and sizes.
    - Scores and the keys of the [hybrid] order are Python floats; they are
      exact rationals [Q] here, so rounding, overflow and underflow are not
      modelled.  A statement that the rounded value could break is made
      only for integers far inside the float range ([moderate]); nothing
      is stated about the order that the [hybrid] keys give.
    - [exn] holds the exceptions that the engine's own operations raise on
      such data: a division by zero, arithmetic or unpacking on [None], a
      failing [remove] or [max].  Errors of the Python runtime are not
      modelled: [RecursionError] (the search uses one interpreter frame per
      room) and [OverflowError] (an integer beyond the float range turned
      into a float).  A run that returns here is a run that raises none of
      the three exceptions of [exn].
    - Room objects are shared and mutated in place ([self.rooms] and
      [self.placed_rooms] hold the same objects).  The object store is
      [heap : ref -> Room.t]; both lists hold references.
    - A raised exception is the [Raise] outcome of [result]; the engine has
      no handler, so an exception ends the run.
    - [time.time()] reads an oracle [clock : nat -> Q]: the k-th call of a
      run returns [clock k]; the state counts the calls in [ticks].
    - The attributes a run only reads ([regions], [adjacency], the tuning
      knobs, [adjacency_graph]) form the record [Config]; what a run writes
      ([self.rooms], [self.placed_rooms], the room objects) is [State].
      [max_backtrack] and [use_adjacency_driven] are never read by the
      engine and are left out.  [step_size] is [positive]: with a step
      below 1 the sampling loops of [get_sample_positions] do not advance. *)

From Stdlib Require Import ZArith QArith Qminmax String Bool Lia Sorted.
From stdpp Require Import base list gmap.

Local Close Scope Q_scope.
Local Open Scope Z_scope.

(** ** Outcomes of fallible code *)

Inductive exn := ZeroDivisionError | TypeError | ValueError.

Inductive result (A : Type) : Type :=
| Ok (a : A)
| Raise (e : exn).
Arguments Ok {A} a.
Arguments Raise {A} e.

Definition rbind {A B} (m : result A) (f : A -> result B) : result B :=
  match m with
  | Ok a => f a
  | Raise e => Raise e
  end.

Declare Scope result_scope.
Delimit Scope result_scope with res.
Notation "'do' x <- m ; k" := (rbind m (fun x => k))
  (at level 10, x name, m at level 100, k at level 200) : result_scope.

(** Left-to-right loop with an accumulator, stopping at the first exception. *)
Fixpoint rfold {A B} (f : B -> A -> result B) (l : list A) (b : B) : result B :=
  match l with
  | [] => Ok b
  | a :: l' => (do b' <- f b a; rfold f l' b')%res
  end.

Fixpoint rmap {A B} (f : A -> result B) (l : list A) : result (list B) :=
  match l with
  | [] => Ok []
  | a :: l' => (do b <- f a; do bs <- rmap f l'; Ok (b :: bs))%res
  end.

(** ** Rational helpers *)

Definition Qltb (a b : Q) : bool := negb (Qle_bool b a).

(** Python's [range(lo, hi)]. *)
Definition range (lo hi : Z) : list Z := seqZ lo (hi - lo).

(** ** Python's stable sort

    [sorted(l, key=...)] and [list.sort(key=...)] compute every key once,
    left to right, and order ascending by key, equal keys keeping their
    input order.  Insertion after the last element whose key is not
    greater gives exactly that order. *)

Fixpoint insert_by {K A} (ltb : K -> K -> bool) (kx : K * A) (l : list (K * A))
  : list (K * A) :=
  match l with
  | [] => [kx]
  | ky :: l' => if ltb kx.1 ky.1 then kx :: ky :: l' else ky :: insert_by ltb kx l'
  end.

Definition sort_keyed {K A} (ltb : K -> K -> bool) (l : list (K * A)) : list A :=
  map snd (fold_left (fun acc kx => insert_by ltb kx acc) l []).

Definition sorted {K A} (ltb : K -> K -> bool) (key : A -> result K) (l : list A)
  : result (list A) :=
  (do ks <- rmap (fun a => do k <- key a; Ok (k, a)) l; Ok (sort_keyed ltb ks))%res.

(** Lexicographic order on the pair keys of the [degree_area] strategy. *)
Definition lex_ltb (a b : Z * Z) : bool :=
  (a.1 <? b.1) || ((a.1 =? b.1) && (a.2 <? b.2)).

(** ** class PlotRegion *)

Module PlotRegion.
Record t := mk {
  x1 : Z;
  y1 : Z;
  x2 : Z;
  y2 : Z;
  name : string
}.

Definition area (self : t) : Z := (x2 self - x1 self) * (y2 self - y1 self).

Definition get_rect (self : t) : Z * Z * Z * Z :=
  (x1 self, y1 self, x2 self - x1 self, y2 self - y1 self).
End PlotRegion.

(** ** class Room *)

Module Room.
Record t := mk {
  id : Z;
  width : Z;
  height : Z;
  x : option Z;
  y : option Z;
  region : option PlotRegion.t;
  rotated : bool;
  name : string
}.

(** [Room.__init__]; the default name of the source is display text only
    and is passed in by the caller here. *)
Definition init (room_id width height : Z) (name : string) : t :=
  mk room_id width height None None None false name.

Definition set_xy (ox oy : option Z) (self : t) : t :=
  mk (id self) (width self) (height self) ox oy (region self) (rotated self) (name self).

Definition set_region (reg : option PlotRegion.t) (self : t) : t :=
  mk (id self) (width self) (height self) (x self) (y self) reg (rotated self) (name self).

Definition set_rotated (b : bool) (self : t) : t :=
  mk (id self) (width self) (height self) (x self) (y self) (region self) b (name self).

Definition rotate (self : t) : t :=
  mk (id self) (height self) (width self) (x self) (y self) (region self)
     (negb (rotated self)) (name self).

Definition area (self : t) : Z := width self * height self.

Definition perimeter (self : t) : Z := 2 * (width self + height self).

Definition get_rect (self : t) : option (Z * Z * Z * Z) :=
  match x self, y self with
  | Some sx, Some sy => Some (sx, sy, width self, height self)
  | _, _ => None
  end.

(** [None + int] and [int <= None] raise [TypeError]; Python's [or]
    evaluates left to right and stops at the first true operand. *)
Definition overlaps (self other : t) : result bool :=
  match x self, x other with
  | Some sx, Some ox =>
      if (sx + width self <=? ox) || (ox + width other <=? sx) then Ok false
      else match y self, y other with
           | Some sy, Some oy =>
               Ok (negb ((sy + height self <=? oy) || (oy + height other <=? sy)))
           | _, _ => Raise TypeError
           end
  | _, _ => Ok false
  end.
End Room.

(** [are_adjacent(rect1, rect2)] on [(x, y, width, height)] tuples. *)
Definition are_adjacent (rect1 rect2 : Z * Z * Z * Z) : bool :=
  let '(ax, ay, aw, ah) := rect1 in
  let '(bx, by_, bw, bh) := rect2 in
  if (ax + aw =? bx) || (bx + bw =? ax) then
    negb ((ay + ah <=? by_) || (by_ + bh <=? ay))
  else if (ay + ah =? by_) || (by_ + bh =? ay) then
    negb ((ax + aw <=? bx) || (bx + bw <=? ax))
  else false.

(** [Room.is_adjacent]: unpacking a [None] rectangle raises [TypeError]. *)
Definition is_adjacent (self other : Room.t) : result bool :=
  match Room.x self, Room.x other with
  | Some _, Some _ =>
      match Room.get_rect self, Room.get_rect other with
      | Some my_rect, Some other_rect => Ok (are_adjacent my_rect other_rect)
      | _, _ => Raise TypeError
      end
  | _, _ => Ok false
  end.

(** The block of [Room.get_adjacent_positions] for one orientation: the
    four flush positions, then the offset variants along the left, right,
    top and bottom side.  The source writes this block twice, once with the
    room's own [width]/[height] and flag [False], once with the swapped
    dimensions of [rotated_room] and flag [True]. *)
Definition side_positions (ox oy ow oh w h : Z) (flag : bool) : list (Z * Z * bool) :=
  [ (ox - w, oy, flag); (ox + ow, oy, flag); (ox, oy - h, flag); (ox, oy + oh, flag) ]
  ++ flat_map (fun offset => [ (ox - w, oy + offset, flag); (ox - w, oy - offset, flag) ])
       (range 1 (Z.min h oh))
  ++ flat_map (fun offset => [ (ox + ow, oy + offset, flag); (ox + ow, oy - offset, flag) ])
       (range 1 (Z.min h oh))
  ++ flat_map (fun offset => [ (ox + offset, oy - h, flag); (ox - offset, oy - h, flag) ])
       (range 1 (Z.min w ow))
  ++ flat_map (fun offset => [ (ox + offset, oy + oh, flag); (ox - offset, oy + oh, flag) ])
       (range 1 (Z.min w ow)).

(** [Room.get_adjacent_positions]: no test of any rotation switch guards
    the second block.  An unplaced [other] raises [TypeError] at the first
    arithmetic on [None]. *)
Definition get_adjacent_positions (self other : Room.t) : result (list (Z * Z * bool)) :=
  match Room.x other, Room.y other with
  | Some ox, Some oy =>
      let ow := Room.width other in
      let oh := Room.height other in
      let rotated_room :=
        Room.init (Room.id self) (Room.height self) (Room.width self) (Room.name self) in
      Ok (side_positions ox oy ow oh (Room.width self) (Room.height self) false
          ++ side_positions ox oy ow oh (Room.width rotated_room) (Room.height rotated_room) true)
  | _, _ => Raise TypeError
  end.

(** [PlotRegion.contains] *)
Definition contains (self : PlotRegion.t) (room : Room.t) (px py : Z) : bool :=
  (PlotRegion.x1 self <=? px) && (px + Room.width room <=? PlotRegion.x2 self)
  && (PlotRegion.y1 self <=? py) && (py + Room.height room <=? PlotRegion.y2 self).

(** A [while v <= hi: ...; v += step] loop, listing the values of [v] at
    which the body runs.  [n] bounds the number of iterations. *)
Fixpoint while_le (n : nat) (v hi : Z) (step : positive) : list Z :=
  match n with
  | O => []
  | S n' => if v <=? hi then v :: while_le n' (v + Z.pos step) hi step else []
  end.

(** The loop from [lo]; [hi - lo + 1] iterations always reach the exit
    test, and more change nothing (lemma [while_le_enough]). *)
Definition steps (lo hi : Z) (step : positive) : list Z :=
  while_le (Z.to_nat (hi - lo + 1)) lo hi step.

(** [PlotRegion.get_sample_positions] *)
Definition get_sample_positions (self : PlotRegion.t) (room : Room.t) (step_size : positive)
  : list (Z * Z) :=
  flat_map (fun px =>
      map (fun py => (px, py))
        (steps (PlotRegion.y1 self) (PlotRegion.y2 self - Room.height room) step_size))
    (steps (PlotRegion.x1 self) (PlotRegion.x2 self - Room.width room) step_size).

(** ** class RegionBasedPlacement *)

(** A reference to a [Room] object. *)
Definition ref := nat.

(** The attributes a run only reads. *)
Record Config := mkConfig {
  regions : list PlotRegion.t;
  adjacency : gmap Z (list Z);
  sort_method : string;
  optimize_rotations : bool;
  step_size : positive;
  adjacency_weight : Q;
  area_weight : Q;
  timeout : Q;
  adjacency_graph : gmap Z (list Z)
}.

(** The object store, the two room lists of the engine, and the number of
    clock reads so far. *)
Record State := mkState {
  heap : ref -> Room.t;
  rooms : list ref;
  placed_rooms : list ref;
  ticks : nat
}.

(** Stateful, fallible code. *)
Definition M (A : Type) : Type := State -> result (A * State).

Definition ret {A} (a : A) : M A := fun st => Ok (a, st).

Definition bind {A B} (m : M A) (f : A -> M B) : M B :=
  fun st =>
    match m st with
    | Ok (a, st') => f a st'
    | Raise e => Raise e
    end.

Definition lift {A} (r : result A) : M A :=
  fun st =>
    match r with
    | Ok a => Ok (a, st)
    | Raise e => Raise e
    end.

Definition get_state : M State := fun st => Ok (st, st).

Definition modify (f : State -> State) : M unit := fun st => Ok (tt, f st).

Declare Scope M_scope.
Delimit Scope M_scope with M.
Notation "'do' x <- m ; k" := (bind m (fun x => k))
  (at level 10, x name, m at level 100, k at level 200) : M_scope.
Notation "m ;; k" := (bind m (fun _ => k))
  (at level 100, k at level 200, right associativity) : M_scope.

Fixpoint mfold {A B} (f : B -> A -> M B) (l : list A) (b : B) : M B :=
  match l with
  | [] => ret b
  | a :: l' => (do b' <- f b a; mfold f l' b')%M
  end.

(** Assignment to attributes of the object behind [r]. *)
Definition upd (r : ref) (f : Room.t -> Room.t) (st : State) : State :=
  mkState (fun r' => if decide (r' = r) then f (heap st r) else heap st r')
          (rooms st) (placed_rooms st) (ticks st).

Definition set_rooms (l : list ref) (st : State) : State :=
  mkState (heap st) l (placed_rooms st) (ticks st).

Definition set_placed_rooms (l : list ref) (st : State) : State :=
  mkState (heap st) (rooms st) l (ticks st).

(** [time.time()] *)
Definition time_time (clock : nat -> Q) : M Q :=
  fun st => Ok (clock (ticks st), mkState (heap st) (rooms st) (placed_rooms st) (S (ticks st))).

(** [if flag != room.rotated: room.rotate()] *)
Definition rotate_if_differs (flag : bool) (room : ref) : M unit :=
  fun st =>
    if negb (eqb flag (Room.rotated (heap st room)))
    then Ok (tt, upd room Room.rotate st)
    else Ok (tt, st).

(** [list.remove(x)]: drops the first occurrence, [ValueError] if absent. *)
Fixpoint list_remove (r : ref) (l : list ref) : result (list ref) :=
  match l with
  | [] => Raise ValueError
  | a :: l' => if decide (a = r) then Ok l' else (do l'' <- list_remove r l'; Ok (a :: l''))%res
  end.

(** [max(...)] over a generator of integers. *)
Definition py_max (l : list Z) : result Z :=
  match l with
  | [] => Raise ValueError
  | a :: l' => Ok (fold_left Z.max l' a)
  end.

(** [_build_adjacency_graph]: a [defaultdict(list)] filled entry by entry. *)
Definition _build_adjacency_graph (adjacency : gmap Z (list Z)) : gmap Z (list Z) :=
  map_fold (fun room_id neighbors graph =>
      fold_left (fun g neighbor_id =>
          <[room_id := default [] (g !! room_id) ++ [neighbor_id]]> g)
        neighbors graph)
    ∅ adjacency.

(** [RegionBasedPlacement.__init__]: the defaults of the constructor. *)
Definition init_config (regions : list PlotRegion.t) (adjacency : gmap Z (list Z)) : Config :=
  mkConfig regions adjacency "hybrid" true 1%positive (7 # 10) (3 # 10) (30 # 1)
           (_build_adjacency_graph adjacency).

Definition init_state (heap : ref -> Room.t) (rooms : list ref) : State :=
  mkState heap rooms [] 0.

(** [set_sort_method] *)
Definition set_sort_method (method : string) (cfg : Config) : result Config :=
  if bool_decide (method ∈ ["area"; "adjacency"; "width"; "height"; "perimeter";
                            "hybrid"; "degree_area"]%string)
  then Ok (mkConfig (regions cfg) (adjacency cfg) method (optimize_rotations cfg)
                    (step_size cfg) (adjacency_weight cfg) (area_weight cfg) (timeout cfg)
                    (adjacency_graph cfg))
  else Raise ValueError.

(** [clear_placements]: the four attributes it assigns; [width] and
    [height] are not touched. *)
Definition clear_room (room : Room.t) : Room.t :=
  Room.set_rotated false (Room.set_region None (Room.set_xy None None room)).

Definition clear_placements (st : State) : State :=
  set_placed_rooms [] (fold_left (fun s room => upd room clear_room s) (rooms st) st).

Section Engine.

Variable clock : nat -> Q.
Variable cfg : Config.

(** [self.adjacency.get(i, [])] and [self.adjacency_graph.get(i, [])] *)
Definition adjacency_get (i : Z) : list Z := default [] (adjacency cfg !! i).
Definition graph_get (i : Z) : list Z := default [] (adjacency_graph cfg !! i).

Definition degree (room : Room.t) : Z := Z.of_nat (length (adjacency_get (Room.id room))).

(** The key of the [hybrid] strategy; the maximum is recomputed at every
    call, and a zero maximum makes the division raise.  The key is the
    exact value of the float expression of the source. *)
Definition hybrid_key (st : State) (r : ref) : result Q :=
  (do max_area <- py_max (map (fun r' => Room.area (heap st r')) (rooms st));
   if max_area =? 0 then Raise ZeroDivisionError
   else Ok (- (adjacency_weight cfg * inject_Z (degree (heap st r))
               + area_weight cfg * inject_Z (Room.area (heap st r)) / inject_Z max_area))%Q)%res.

(** [sort_rooms]; every key is negated, as in the source. *)
Definition sort_rooms (st : State) : result (list ref) :=
  let h := heap st in
  if String.eqb (sort_method cfg) "area" then
    sorted Z.ltb (fun r => Ok (- Room.area (h r))) (rooms st)
  else if String.eqb (sort_method cfg) "adjacency" then
    sorted Z.ltb (fun r => Ok (- degree (h r))) (rooms st)
  else if String.eqb (sort_method cfg) "width" then
    sorted Z.ltb (fun r => Ok (- Room.width (h r))) (rooms st)
  else if String.eqb (sort_method cfg) "height" then
    sorted Z.ltb (fun r => Ok (- Room.height (h r))) (rooms st)
  else if String.eqb (sort_method cfg) "perimeter" then
    sorted Z.ltb (fun r => Ok (- (Room.width (h r) + Room.height (h r)))) (rooms st)
  else if String.eqb (sort_method cfg) "hybrid" then
    sorted Qltb (hybrid_key st) (rooms st)
  else if String.eqb (sort_method cfg) "degree_area" then
    sorted lex_ltb (fun r => Ok (- degree (h r), - Room.area (h r))) (rooms st)
  else Ok (rooms st).

(** [_get_region_fit_score]; the quotient is the exact value of the float
    that the source returns. *)
Definition _get_region_fit_score (room : Room.t) (region : PlotRegion.t) (px py : Z)
  : result Q :=
  if negb (contains region room px py) then Ok 0%Q
  else
    let left_space := px - PlotRegion.x1 region in
    let right_space := PlotRegion.x2 region - (px + Room.width room) in
    let top_space := py - PlotRegion.y1 region in
    let bottom_space := PlotRegion.y2 region - (py + Room.height room) in
    let total_space := left_space + right_space + top_space + bottom_space in
    let room_area := Room.area room in
    if room_area + total_space =? 0 then Raise ZeroDivisionError
    else Ok (inject_Z room_area / inject_Z (room_area + total_space))%Q.

(** One turn of the loop of [_get_adjacency_score]: two independent tests. *)
Definition adjacency_step (h : ref -> Room.t) (room : ref) (score : Q) (placed_room : ref)
  : result Q :=
  (do score1 <-
     (if bool_decide (Room.id (h placed_room) ∈ graph_get (Room.id (h room))) then
        do adj <- is_adjacent (h room) (h placed_room);
        Ok (if adj then (score + 1)%Q else score)
      else Ok score);
   if bool_decide (Room.id (h room) ∈ graph_get (Room.id (h placed_room))) then
     do adj <- is_adjacent (h room) (h placed_room);
     Ok (if adj then (score1 + (1 # 2))%Q else score1)
   else Ok score1)%res.

(** [_get_adjacency_score]: moves the room to the candidate, scores it
    against [self.placed_rooms], and moves it back. *)
Definition _get_adjacency_score (room : ref) (position : Z * Z) (orientation : bool) : M Q :=
  (do st0 <- get_state;
   let original_pos :=
     (Room.x (heap st0 room), Room.y (heap st0 room), Room.rotated (heap st0 room)) in
   modify (upd room (Room.set_xy (Some position.1) (Some position.2))) ;;
   rotate_if_differs orientation room ;;
   do st <- get_state;
   do score <- lift (rfold (adjacency_step (heap st) room) (placed_rooms st) 0%Q);
   modify (upd room (Room.set_xy original_pos.1.1 original_pos.1.2)) ;;
   (if negb (eqb orientation original_pos.2) then modify (upd room Room.rotate) else ret tt) ;;
   ret score)%M.

(** A candidate [(position, region, is_rotated, score)]. *)
Definition candidate : Type := (Z * Z) * PlotRegion.t * bool * Q.

Definition cand_score (c : candidate) : Q := c.2.

(** One sampling loop of the grid branch: the room is only read. *)
Definition grid_scan (room : Room.t) (region : PlotRegion.t) (flag : bool)
    (candidates : list candidate) : result (list candidate) :=
  rfold (fun cands pos =>
      do fit_score <- _get_region_fit_score room region pos.1 pos.2;
      Ok (if Qltb 0 fit_score then cands ++ [(pos, region, flag, fit_score)] else cands))%res
    (get_sample_positions region room (step_size cfg)) candidates.

(** The grid branch for one region: the original orientation, then, if
    rotations are enabled, the rotated one between two [rotate()] calls. *)
Definition grid_region (room : ref) (candidates : list candidate) (region : PlotRegion.t)
  : M (list candidate) :=
  (do st <- get_state;
   do cands <- lift (grid_scan (heap st room) region false candidates);
   if optimize_rotations cfg then
     modify (upd room Room.rotate) ;;
     do st' <- get_state;
     do cands' <- lift (grid_scan (heap st' room) region true cands);
     modify (upd room Room.rotate) ;;
     ret cands'
   else ret cands)%M.

(** The region loop of the adjacency branch for one position. *)
Definition adjacent_region (room : ref) (pos : Z * Z) (is_rotated : bool)
    (candidates : list candidate) (region : PlotRegion.t) : M (list candidate) :=
  (do st <- get_state;
   do fit_score <- lift (_get_region_fit_score (heap st room) region pos.1 pos.2);
   if Qltb 0 fit_score then
     do adj_score <- _get_adjacency_score room pos is_rotated;
     let score := ((8 # 10) * adj_score + (2 # 10) * fit_score)%Q in
     ret (candidates ++ [(pos, region, is_rotated, score)])
   else ret candidates)%M.

(** One position of the adjacency branch.  The closing test compares the
    flag with the orientation the room has just been given. *)
Definition adjacent_position (room : ref) (candidates : list candidate)
    (p : Z * Z * bool) : M (list candidate) :=
  let pos := p.1 in
  let is_rotated := p.2 in
  (rotate_if_differs is_rotated room ;;
   do cands <- mfold (adjacent_region room pos is_rotated) (regions cfg) candidates;
   rotate_if_differs is_rotated room ;;
   ret cands)%M.

(** One anchor of the adjacency branch; the positions are computed from
    the room as it is when the anchor's turn comes. *)
Definition adjacent_anchor (room : ref) (candidates : list candidate) (placed_room : ref)
  : M (list candidate) :=
  (do st <- get_state;
   do adj_positions <- lift (get_adjacent_positions (heap st room) (heap st placed_room));
   mfold (adjacent_position room) adj_positions candidates)%M.

(** [candidates.sort(key=lambda x: -x[3])] *)
Definition sort_candidates (candidates : list candidate) : list candidate :=
  sort_keyed Qltb (map (fun c => ((- cand_score c)%Q, c)) candidates).

(** [_generate_candidate_positions] *)
Definition _generate_candidate_positions (room : ref) : M (list candidate) :=
  (do st <- get_state;
   let required_adjacencies := graph_get (Room.id (heap st room)) in
   let adjacent_placed_rooms :=
     filter (fun r => Room.id (heap st r) ∈ required_adjacencies) (placed_rooms st) in
   let adjacent_placed_rooms :=
     if bool_decide (adjacent_placed_rooms = []) && negb (bool_decide (placed_rooms st = []))
     then placed_rooms st else adjacent_placed_rooms in
   do candidates <-
     (if bool_decide (adjacent_placed_rooms = [])
      then mfold (grid_region room) (regions cfg) []
      else mfold (adjacent_anchor room) adjacent_placed_rooms []);
   ret (sort_candidates candidates))%M.

(** The overlap loop with its [break]. *)
Fixpoint has_overlap (h : ref -> Room.t) (room : ref) (placed : list ref) : result bool :=
  match placed with
  | [] => Ok false
  | placed_room :: placed' =>
      (do o <- Room.overlaps (h room) (h placed_room);
       if o then Ok true else has_overlap h room placed')%res
  end.

(** The timeout test at the head of [_place_room_backtracking]; the
    clock is read only when [timeout_start] is truthy. *)
Definition timed_out (timeout_start : option Q) : M bool :=
  match timeout_start with
  | None => ret false
  | Some t0 =>
      if Qeq_bool t0 0 then ret false
      else (do now <- time_time clock; ret (Qltb (timeout cfg) (now - t0)%Q))%M
  end.

(** The [for] loop over the candidates in [_place_room_backtracking];
    [next] is the recursive call at [room_idx + 1].  The answer is [true]
    when the loop is left through [return True]. *)
Fixpoint try_candidates (next : M bool) (current_room : ref) (cands : list candidate)
  : M bool :=
  match cands with
  | [] => ret false
  | (position, region, is_rotated, score) :: cands' =>
      (rotate_if_differs is_rotated current_room ;;
       modify (upd current_room (Room.set_xy (Some position.1) (Some position.2))) ;;
       modify (upd current_room (Room.set_region (Some region))) ;;
       do st <- get_state;
       do overlap <- lift (has_overlap (heap st) current_room (placed_rooms st));
       if negb overlap then
         modify (fun s => set_placed_rooms (placed_rooms s ++ [current_room]) s) ;;
         do ok <- next;
         if ok then ret true
         else
           do st' <- get_state;
           do l <- lift (list_remove current_room (placed_rooms st'));
           modify (set_placed_rooms l) ;;
           try_candidates next current_room cands'
       else try_candidates next current_room cands')%M
  end.

(** The tail of [_place_room_backtracking] after a fruitless loop.  The
    test reads [current_room.rotated != self.rooms[room_idx].rotated], and
    [self.rooms[room_idx]] is [current_room] itself. *)
Definition abandon_room (current_room rooms_room_idx : ref) : M bool :=
  (do st <- get_state;
   (if negb (eqb (Room.rotated (heap st current_room))
                 (Room.rotated (heap st rooms_room_idx)))
    then modify (upd current_room Room.rotate) else ret tt) ;;
   modify (upd current_room (Room.set_xy None None)) ;;
   modify (upd current_room (Room.set_region None)) ;;
   ret false)%M.

(** [_place_room_backtracking], by recursion on [self.rooms[room_idx:]]:
    [room_idx >= len(self.rooms)] is the empty suffix, [self.rooms[room_idx]]
    its head, and the recursive call at [room_idx + 1] takes its tail
    ([self.rooms] is not assigned during the search).  The recursion limit
    of the interpreter is not modelled. *)
Fixpoint backtrack (todo : list ref) (timeout_start : option Q) {struct todo} : M bool :=
  (do expired <- timed_out timeout_start;
   if expired then ret false
   else
     match todo with
     | [] => ret true
     | current_room :: rest =>
         do candidates <- _generate_candidate_positions current_room;
         do found <- try_candidates (backtrack rest timeout_start) current_room candidates;
         if found then ret true else abandon_room current_room current_room
     end)%M.

Definition _place_room_backtracking (room_idx : nat) (timeout_start : option Q) : M bool :=
  fun st => backtrack (drop room_idx (rooms st)) timeout_start st.

(** The four [best_*] variables of the greedy loop. *)
Definition best : Type := Q * option (Z * Z) * bool * option PlotRegion.t.

(** One candidate of the greedy loop. *)
Definition greedy_candidate (room : ref) (b : best) (c : candidate) : M best :=
  let '(position, region, is_rotated, score) := c in
  let '(best_score, best_pos, best_rot, best_region) := b in
  (rotate_if_differs is_rotated room ;;
   modify (upd room (Room.set_xy (Some position.1) (Some position.2))) ;;
   do st <- get_state;
   do overlap <- lift (has_overlap (heap st) room (placed_rooms st));
   do b' <-
     (if negb overlap then
        do adjacency_score <- _get_adjacency_score room position is_rotated;
        do st' <- get_state;
        do region_score <-
          lift (_get_region_fit_score (heap st' room) region position.1 position.2);
        let combined_score := ((8 # 10) * adjacency_score + (2 # 10) * region_score)%Q in
        if Qltb best_score combined_score
        then ret (combined_score, Some position, is_rotated, Some region)
        else ret b
      else ret b);
   rotate_if_differs is_rotated room ;;
   ret b')%M.

(** One room of the greedy pass.  A room without a free candidate keeps
    whatever the loop last assigned to it. *)
Definition greedy_room (room : ref) : M unit :=
  (do candidates <- _generate_candidate_positions room;
   do b <- mfold (greedy_candidate room) candidates ((-1)%Q, None, false, None);
   let '(best_score, best_pos, best_rot, best_region) := b in
   match best_pos with
   | Some pos =>
       rotate_if_differs best_rot room ;;
       modify (upd room (Room.set_xy (Some pos.1) (Some pos.2))) ;;
       modify (upd room (Room.set_region best_region)) ;;
       modify (fun s => set_placed_rooms (placed_rooms s ++ [room]) s)
   | None => ret tt
   end)%M.

(** [_place_rooms_greedy] *)
Definition _place_rooms_greedy (sorted_rooms : list ref) : M nat :=
  (mfold (fun _ room => greedy_room room) sorted_rooms tt ;;
   do st <- get_state;
   ret (length (placed_rooms st)))%M.

(** [place_rooms] *)
Definition place_rooms : M nat :=
  (modify clear_placements ;;
   do st <- get_state;
   do sorted_rooms <- lift (sort_rooms st);
   modify (set_rooms sorted_rooms) ;;
   do timeout_start <- time_time clock;
   do ok <- _place_room_backtracking 0 (Some timeout_start);
   if ok then
     do st' <- get_state;
     ret (length (placed_rooms st'))
   else
     modify clear_placements ;;
     _place_rooms_greedy sorted_rooms)%M.

(** The search for the neighbour in [get_adjacency_score], with its
    [break]: [true] when [satisfied] is incremented. *)
Fixpoint neighbor_satisfied (h : ref -> Room.t) (room1 : ref) (neighbor_id : Z)
    (placed : list ref) : result bool :=
  match placed with
  | [] => Ok false
  | room2 :: placed' =>
      if Room.id (h room2) =? neighbor_id then
        (do adj <- is_adjacent (h room1) (h room2);
         if adj then Ok true else neighbor_satisfied h room1 neighbor_id placed')%res
      else neighbor_satisfied h room1 neighbor_id placed'
  end.

(** [get_adjacency_score]: [(satisfied, total, ratio)]. *)
Definition get_adjacency_score (st : State) : result (Z * Z * Q) :=
  (do counts <-
     rfold (fun acc room1 =>
         rfold (fun acc' neighbor_id =>
             let '(satisfied, total) := acc' in
             do hit <- neighbor_satisfied (heap st) room1 neighbor_id (placed_rooms st);
             Ok (if hit then satisfied + 1 else satisfied, total + 1))
           (adjacency_get (Room.id (heap st room1))) acc)
       (placed_rooms st) (0, 0);
   let '(satisfied, total) := counts in
   let ratio := if 0 <? total then (inject_Z satisfied / inject_Z total)%Q else 1%Q in
   Ok (satisfied, total, ratio))%res.

End Engine.

(** * Specification vocabulary *)

(** A placed room lies inside the region it was assigned to. *)
Definition inside_assigned_region (room : Room.t) : Prop :=
  ∃ px py reg,
    Room.x room = Some px ∧ Room.y room = Some py ∧ Room.region room = Some reg
    ∧ contains reg room px py = true.

(** The placement invariant of the data model, on the placed list. *)
Definition placement_invariant (h : ref -> Room.t) (placed : list ref) : Prop :=
  (∀ a b, a ∈ placed → b ∈ placed → a ≠ b → Room.overlaps (h a) (h b) = Ok false)
  ∧ (∀ a, a ∈ placed → inside_assigned_region (h a)).

(** Unplaced in the sense of the data model. *)
Definition unplaced (room : Room.t) : Prop :=
  Room.x room = None ∧ Room.y room = None ∧ Room.region room = None.

(** The dimensions a room has when its flag reads [flag]; [rotate] and the
    position and region assignments leave this function unchanged. *)
Definition dims_at (room : Room.t) (flag : bool) : Z * Z :=
  if eqb (Room.rotated room) flag
  then (Room.width room, Room.height room)
  else (Room.height room, Room.width room).

(** [s'] differs from [s] at most in the object [r], whose identity and
    dimensions per orientation are kept; lists and clock count are kept. *)
Definition touches_only (r : ref) (s s' : State) : Prop :=
  (∀ r', r' ≠ r → heap s' r' = heap s r')
  ∧ rooms s' = rooms s
  ∧ placed_rooms s' = placed_rooms s
  ∧ ticks s' = ticks s
  ∧ Room.id (heap s' r) = Room.id (heap s r)
  ∧ (∀ flag, dims_at (heap s' r) flag = dims_at (heap s r) flag).

(** The room as [_get_adjacency_score] sees it while scoring a candidate. *)
Definition at_candidate (room : Room.t) (position : Z * Z) (orientation : bool) : Room.t :=
  let moved := Room.set_xy (Some position.1) (Some position.2) room in
  if negb (eqb orientation (Room.rotated moved)) then Room.rotate moved else moved.

Definition adjacent_now (a b : Room.t) : bool :=
  match is_adjacent a b with
  | Ok v => v
  | Raise _ => false
  end.

(** What one placed room adds to the heuristic score of a candidate. *)
Definition pair_gain (cfg : Config) (moved placed : Room.t) : Q :=
  ((if bool_decide (Room.id placed ∈ graph_get cfg (Room.id moved)) && adjacent_now moved placed
    then 1 else 0)
   + (if bool_decide (Room.id moved ∈ graph_get cfg (Room.id placed)) && adjacent_now moved placed
      then 1 # 2 else 0))%Q.

Definition Qsum (l : list Q) : Q := foldr Qplus 0%Q l.

(** The grid branch finds an origin for the room in the region: in its
    present orientation or, when rotations are enabled, in the other one. *)
Definition region_takes (cfg : Config) (room : Room.t) (reg : PlotRegion.t) : Prop :=
  get_sample_positions reg room (step_size cfg) ≠ []
  ∨ (optimize_rotations cfg = true
     ∧ get_sample_positions reg (Room.rotate room) (step_size cfg) ≠ []).

(** Some origin of the sampling grid takes the room in some region. *)
Definition grid_fits (cfg : Config) (room : Room.t) : Prop :=
  ∃ reg, reg ∈ regions cfg ∧ region_takes cfg room reg.

(** The anchors of the adjacency branch of [_generate_candidate_positions]. *)
Definition anchors (cfg : Config) (room : ref) (st : State) : list ref :=
  let required :=
    filter (fun r => Room.id (heap st r) ∈ graph_get cfg (Room.id (heap st room)))
           (placed_rooms st) in
  match required with
  | [] => placed_rooms st
  | _ => required
  end.

(** The heap [_get_adjacency_score] scores against: the room moved to the
    candidate, every other object as it is. *)
Definition heap_at_candidate (st : State) (room : ref) (position : Z * Z)
    (orientation : bool) : ref → Room.t :=
  fun r => if decide (r = room)
           then at_candidate (heap st room) position orientation else heap st r.

(** [PlotRegion.contains] on bare dimensions. *)
Definition fits (reg : PlotRegion.t) (d : Z * Z) (pos : Z * Z) : bool :=
  (PlotRegion.x1 reg <=? pos.1) && (pos.1 + d.1 <=? PlotRegion.x2 reg)
  && (PlotRegion.y1 reg <=? pos.2) && (pos.2 + d.2 <=? PlotRegion.y2 reg).

(** A candidate lies inside its region, for the dimensions [d] gives to its
    orientation flag. *)
Definition cand_valid (d : bool → Z * Z) (c : candidate) : Prop :=
  fits c.1.1.2 (d c.1.2) c.1.1.1 = true.

(** Two states agree on everything a run can observe. *)
Definition same_state (s s' : State) : Prop :=
  (∀ r, heap s' r = heap s r) ∧ rooms s' = rooms s
  ∧ placed_rooms s' = placed_rooms s ∧ ticks s' = ticks s.

(** What the search over the remaining rooms [rest] owes to the loop that
    calls it: it leaves the objects outside [rest] alone, leaves the placed
    list as it found it on failure, and on success has appended [rest] and
    kept the invariant. *)
Definition next_spec (rest : list ref) (next : M bool) : Prop :=
  ∀ s b s', next s = Ok (b, s') →
    placement_invariant (heap s) (placed_rooms s) →
    NoDup (placed_rooms s ++ rest) →
    placed_rooms s ≠ [] →
    (∀ r, r ∉ rest → heap s' r = heap s r)
    ∧ (b = false → placed_rooms s' = placed_rooms s)
    ∧ (b = true → placed_rooms s' = placed_rooms s ++ rest
                  ∧ placement_invariant (heap s') (placed_rooms s')).

(** The best candidate of the greedy loop so far lies inside its region and
    is clear of every placed room. *)
Definition best_ok (h0 : ref → Room.t) (placed0 : list ref) (d : bool → Z * Z) (b : best)
  : Prop :=
  match b.1.1.2 with
  | None => True
  | Some pos =>
      ∃ reg, b.2 = Some reg
        ∧ fits reg (d b.1.2) pos = true
        ∧ ∀ room', Room.x room' = Some pos.1 → Room.y room' = Some pos.2 →
            (Room.width room', Room.height room') = d b.1.2 →
            ∀ p, p ∈ placed0 → Room.overlaps room' (h0 p) = Ok false
  end.

(** ** What a run keeps *)

(** Every run of [m] that returns relates the state it started from to the
    state it ends in by [R]. *)
Definition keeps {A} (R : State → State → Prop) (m : M A) : Prop :=
  ∀ s a s', m s = Ok (a, s') → R s s'.

(** Same id and name, and the same width and height up to a swap. *)
Definition same_shape (a b : Room.t) : Prop :=
  Room.id b = Room.id a ∧ Room.name b = Room.name a
  ∧ ((Room.width b, Room.height b) = (Room.width a, Room.height a)
     ∨ (Room.width b, Room.height b) = (Room.height a, Room.width a)).

Definition shape_kept (s s' : State) : Prop := ∀ r, same_shape (heap s r) (heap s' r).

(** Room objects outside [X] are as they were. *)
Definition only_touches (X : ref → Prop) (s s' : State) : Prop :=
  ∀ r, ¬ X r → heap s' r = heap s r.

(** The adjacency requirements that the placed rooms declare, as pairs of a
    room and a neighbour id, in the order [get_adjacency_score] visits them. *)
Definition requirements (cfg : Config) (st : State) : list (ref * Z) :=
  flat_map (fun room1 =>
      map (fun n => (room1, n)) (adjacency_get cfg (Room.id (heap st room1))))
    (placed_rooms st).

(** Some placed room carries the id of the requirement and touches the
    room that declares it. *)
Definition requirement_met (st : State) (req : ref * Z) : bool :=
  existsb (fun room2 =>
      (Room.id (heap st room2) =? req.2) && adjacent_now (heap st req.1) (heap st room2))
    (placed_rooms st).

(** ** Runs that return *)

(** The run of [m] from [s] ends without an exception. *)
Definition returns {A} (m : M A) (s : State) : Prop := ∃ a s', m s = Ok (a, s').

(** The rooms of [l] have both coordinates set. *)
Definition located (h : ref → Room.t) (l : list ref) : Prop :=
  ∀ p, p ∈ l → is_Some (Room.x (h p)) ∧ is_Some (Room.y (h p)).

Definition positive_dims (room : Room.t) : Prop :=
  0 < Room.width room ∧ 0 < Room.height room.

(** [s'] differs from [s] at most in the object [room], which keeps its
    shape; the placed list is kept. *)
Definition steady (room : ref) (s s' : State) : Prop :=
  (∀ r, r ≠ room → heap s' r = heap s r)
  ∧ placed_rooms s' = placed_rooms s
  ∧ same_shape (heap s room) (heap s' room).

(** ** Unit cells *)

(** The unit cell with lower corner [c] lies in the rectangle
    [(x, y, width, height)]. *)
Definition cell_of (rect : Z * Z * Z * Z) (c : Z * Z) : Prop :=
  let '(x, y, w, h) := rect in x ≤ c.1 < x + w ∧ y ≤ c.2 < y + h.

(** Two cells share an edge. *)
Definition edge_neighbours (c1 c2 : Z * Z) : Prop :=
  Z.abs (c1.1 - c2.1) + Z.abs (c1.2 - c2.2) = 1.

(** ** The grid branch and the float range *)


(** An integer far inside the range of a Python float: quotients and
    products of such integers neither overflow nor underflow as floats. *)
Definition moderate (n : Z) : Prop := Z.abs n ≤ 2 ^ 500.

Definition moderate_region (reg : PlotRegion.t) : Prop :=
  moderate (PlotRegion.x1 reg) ∧ moderate (PlotRegion.y1 reg)
  ∧ moderate (PlotRegion.x2 reg) ∧ moderate (PlotRegion.y2 reg).

(** * Sample inputs *)

(** An object store holding the listed rooms at addresses 0, 1, ... *)
Definition store (l : list Room.t) : ref -> Room.t :=
  fun r => default (Room.init 0 0 0 "") (l !! r).

Definition placed_at (px py : Z) (reg : PlotRegion.t) (room : Room.t) : Room.t :=
  Room.set_region (Some reg) (Room.set_xy (Some px) (Some py) room).

(** A clock that advances one millisecond per reading. *)
Definition steady_clock : nat -> Q := fun n => (1000 + inject_Z (Z.of_nat n) / 1000)%Q.

(** A clock that does not advance between readings. *)
Definition frozen_clock : nat -> Q := fun _ => 1000%Q.

(** A clock whose third reading is one second after the first two. *)
Definition late_clock : nat -> Q := fun n => if (n <=? 1)%nat then 1000%Q else 1001%Q.

Module Scenario.
(** The two-room scenario of the specification. *)
Definition hall := PlotRegion.mk 0 0 10 10 "hall".
Definition pair_adjacency : gmap Z (list Z) := {[ 1 := [2]; 2 := [1] ]}.
Definition pair_cfg : Config :=
  mkConfig [hall] pair_adjacency "area" false 1 (7 # 10) (3 # 10) 30
           (_build_adjacency_graph pair_adjacency).
Definition pair_state : State :=
  init_state (store [Room.init 1 3 4 "a"; Room.init 2 2 3 "b"]) [0; 1]%nat.

(** Two unit rooms declared adjacent to each other; the first is placed. *)
Definition unit_state : State :=
  mkState (store [placed_at 0 0 hall (Room.init 1 1 1 "a"); Room.init 2 1 1 "b"])
          [0; 1]%nat [0%nat] 0.

(** A 4x1 strip and rooms of total area 5. *)
Definition strip := PlotRegion.mk 0 0 4 1 "strip".
Definition strip_cfg : Config := init_config [strip] ∅.
Definition strip_state : State :=
  init_state (store [Room.init 1 2 1 "a"; Room.init 2 2 1 "b"; Room.init 3 1 1 "c"])
             [0; 1; 2]%nat.

(** A 1x2 slot that takes a 2x1 room only when rotated; timeout 0. *)
Definition slot := PlotRegion.mk 0 0 1 2 "slot".
Definition slot_cfg : Config := mkConfig [slot] ∅ "hybrid" true 1 (7 # 10) (3 # 10) 0 ∅.
Definition slot_state : State := init_state (store [Room.init 1 2 1 "a"]) [0%nat].

(** A 3x1 corridor, rotations switched off. *)
Definition corridor := PlotRegion.mk 0 0 3 1 "corridor".
Definition corridor_cfg : Config :=
  mkConfig [corridor] ∅ "width" false 1 (7 # 10) (3 # 10) 30 ∅.
Definition corridor_state : State :=
  init_state (store [Room.init 1 1 1 "a"; Room.init 2 1 2 "b"]) [0; 1]%nat.
Definition corridor_mid_state : State :=
  mkState (store [placed_at 0 0 corridor (Room.init 1 1 1 "a"); Room.init 2 1 2 "b"])
          [0; 1]%nat [0%nat] 0.

(** A 4x2 block filled by two placed 2x2 rooms, and a 2x1 room to place. *)
Definition block := PlotRegion.mk 0 0 4 2 "block".
Definition block_cfg : Config := init_config [block] ∅.
Definition block_state : State :=
  mkState (store [placed_at 0 0 block (Room.init 1 2 2 "a");
                  placed_at 2 0 block (Room.init 2 2 2 "b");
                  Room.init 3 2 1 "c"])
          [0; 1; 2]%nat [0; 1]%nat 0.

End Scenario.

(** * Basic facts *)

Lemma Qltb_lt (a b : Q) : Qltb a b = true ↔ (a < b)%Q.
Proof.
  unfold Qltb. rewrite negb_true_iff. split.
  - intros H. apply Qnot_le_lt. intros Hle. apply Qle_bool_iff in Hle. congruence.
  - intros H. destruct (Qle_bool b a) eqn:E; [|done].
    apply Qle_bool_iff in E. exfalso. by apply (Qlt_not_le _ _ H).
Qed.

Lemma rbind_Ok {A B} (m : result A) (f : A → result B) (b : B) :
  rbind m f = Ok b → ∃ a, m = Ok a ∧ f a = Ok b.
Proof. destruct m; simpl; [eauto | discriminate]. Qed.

Lemma bind_Ok {A B} (m : M A) (f : A → M B) (st st' : State) (b : B) :
  bind m f st = Ok (b, st') → ∃ a s, m st = Ok (a, s) ∧ f a s = Ok (b, st').
Proof. unfold bind. destruct (m st) as [[a s]|e]; [eauto | discriminate]. Qed.

Lemma lift_Ok {A} (r : result A) (st st' : State) (a : A) :
  lift r st = Ok (a, st') → r = Ok a ∧ st' = st.
Proof. unfold lift. destruct r; intros H; inversion H; auto. Qed.

Lemma ret_Ok {A} (a a' : A) (st st' : State) :
  ret a st = Ok (a', st') → a' = a ∧ st' = st.
Proof. unfold ret. intros H; inversion H; auto. Qed.

Lemma modify_Ok (f : State → State) (st st' : State) (u : unit) :
  modify f st = Ok (u, st') → st' = f st.
Proof. unfold modify. intros H; inversion H; auto. Qed.

Lemma get_state_Ok (st st' s : State) :
  get_state st = Ok (s, st') → s = st ∧ st' = st.
Proof. unfold get_state. intros H; inversion H; auto. Qed.

(** Peel the leading bind of a successful monadic run. *)
Tactic Notation "mstep" hyp(H) "as" ident(a) ident(s) ident(H1) :=
  apply bind_Ok in H as (a & s & H1 & H);
  first [ apply modify_Ok in H1; subst s
        | apply get_state_Ok in H1 as [-> ->]
        | apply lift_Ok in H1 as [H1 ->]
        | apply ret_Ok in H1 as [-> ->]
        | idtac ].

Lemma rfold_inv {A B} (P : B → Prop) (f : B → A → result B) (l : list A) (b b' : B) :
  (∀ b0 a b1, a ∈ l → P b0 → f b0 a = Ok b1 → P b1) →
  P b → rfold f l b = Ok b' → P b'.
Proof.
  revert b. induction l as [|a l IH]; intros b Hstep Hb Hrun; simpl in Hrun.
  - by inversion Hrun; subst.
  - apply rbind_Ok in Hrun as (b1 & H1 & H2).
    apply (IH b1); [| |done].
    + intros b0 a0 b2 Hin. apply Hstep. by right.
    + apply (Hstep b a b1); [by left|done..].
Qed.

Lemma rfold_total {A B} (P : B → Prop) (f : B → A → result B) (l : list A) (b : B) :
  (∀ b0 a, a ∈ l → P b0 → ∃ b1, f b0 a = Ok b1 ∧ P b1) →
  P b → ∃ b', rfold f l b = Ok b' ∧ P b'.
Proof.
  revert b. induction l as [|a l IH]; intros b Hstep Hb; simpl.
  - eauto.
  - destruct (Hstep b a) as (b1 & -> & Hb1); [by left|done|]. simpl.
    apply IH; [|done]. intros b0 a0 Hin. apply Hstep. by right.
Qed.

Lemma mfold_inv {A B} (P : B → State → Prop) (f : B → A → M B) (l : list A)
    (b b' : B) (st st' : State) :
  (∀ b0 a s0 b1 s1, a ∈ l → P b0 s0 → f b0 a s0 = Ok (b1, s1) → P b1 s1) →
  P b st → mfold f l b st = Ok (b', st') → P b' st'.
Proof.
  revert b st. induction l as [|a l IH]; intros b st Hstep Hb Hrun; simpl in Hrun.
  - by apply ret_Ok in Hrun as [-> ->].
  - apply bind_Ok in Hrun as (b1 & s1 & H1 & H2).
    apply (IH b1 s1); [| |done].
    + intros b0 a0 s0 b2 s2 Hin. apply Hstep. by right.
    + apply (Hstep b a st b1 s1); [by left|done..].
Qed.

(** * Adjacency satisfaction of a placement *)

Lemma is_adjacent_total (a b : Room.t) :
  (is_Some (Room.x a) → is_Some (Room.y a)) →
  (is_Some (Room.x b) → is_Some (Room.y b)) →
  ∃ v, is_adjacent a b = Ok v.
Proof.
  intros Ha Hb. unfold is_adjacent, Room.get_rect.
  destruct (Room.x a) as [xa|]; [|eauto].
  destruct (Room.x b) as [xb|]; [|eauto].
  destruct Ha as [ya ->]; [eauto|]. destruct Hb as [yb ->]; [eauto|]. eauto.
Qed.

Lemma neighbor_satisfied_total (h : ref → Room.t) (room1 : ref) (nid : Z) (placed : list ref) :
  (is_Some (Room.x (h room1)) → is_Some (Room.y (h room1))) →
  Forall (fun r => is_Some (Room.x (h r)) → is_Some (Room.y (h r))) placed →
  ∃ v, neighbor_satisfied h room1 nid placed = Ok v.
Proof.
  intros H1 Hall. induction Hall as [|r l Hr Hl IH]; simpl; [eauto|].
  destruct (Room.id (h r) =? nid); [|done].
  destruct (is_adjacent_total (h room1) (h r)) as [v ->]; [done..|]. simpl.
  destruct v; eauto.
Qed.

Lemma ratio_bounds (satisfied total : Z) :
  0 ≤ satisfied ≤ total → 0 < total →
  (0 <= inject_Z satisfied / inject_Z total <= 1)%Q.
Proof.
  intros [H0 H1] Ht.
  assert (Hq : (0 < inject_Z total)%Q) by (change 0%Q with (inject_Z 0); by rewrite <- Zlt_Qlt).
  split.
  - apply Qle_shift_div_l; [done|]. rewrite Qmult_0_l.
    change 0%Q with (inject_Z 0). by rewrite <- Zle_Qle.
  - apply Qle_shift_div_r; [done|]. rewrite Qmult_1_l. by rewrite <- Zle_Qle.
Qed.

(** * The adjacency heuristic of candidate scoring *)

Lemma adjacency_step_gain (cfg : Config) (h : ref → Room.t) (room p : ref) (acc s : Q) :
  adjacency_step cfg h room acc p = Ok s →
  (s == acc + pair_gain cfg (h room) (h p))%Q.
Proof.
  unfold adjacency_step, pair_gain, adjacent_now. intros H.
  apply rbind_Ok in H as (s1 & H1 & H2).
  destruct (bool_decide (Room.id (h p) ∈ graph_get cfg (Room.id (h room))));
    destruct (bool_decide (Room.id (h room) ∈ graph_get cfg (Room.id (h p))));
    destruct (is_adjacent (h room) (h p)) as [[|]|e]; simpl in *;
    try discriminate; inversion H1; subst; inversion H2; subst; ring.
Qed.

Lemma adjacency_fold_sum (cfg : Config) (h : ref → Room.t) (room : ref) (l : list ref)
    (acc s : Q) :
  rfold (adjacency_step cfg h room) l acc = Ok s →
  (s == acc + Qsum (map (fun p => pair_gain cfg (h room) (h p)) l))%Q.
Proof.
  revert acc. induction l as [|p l IH]; intros acc H; simpl in H.
  - inversion H; subst. simpl. ring.
  - apply rbind_Ok in H as (s1 & H1 & H2).
    apply adjacency_step_gain in H1. apply IH in H2.
    rewrite H2, H1. simpl. ring.
Qed.

Lemma rotate_rotate (room : Room.t) : Room.rotate (Room.rotate room) = room.
Proof. destruct room as [? ? ? ? ? ? [] ?]; reflexivity. Qed.

Lemma set_xy_restore (room : Room.t) (a b : option Z) :
  Room.set_xy (Room.x room) (Room.y room) (Room.set_xy a b room) = room.
Proof. by destruct room. Qed.

Lemma rotate_set_xy (room : Room.t) (a b : option Z) :
  Room.rotate (Room.set_xy a b room) = Room.set_xy a b (Room.rotate room).
Proof. by destruct room. Qed.

Lemma upd_same (r : ref) (f : Room.t → Room.t) (st : State) :
  heap (upd r f st) r = f (heap st r).
Proof. simpl. by rewrite decide_True. Qed.

Lemma upd_other (r r' : ref) (f : Room.t → Room.t) (st : State) :
  r' ≠ r → heap (upd r f st) r' = heap st r'.
Proof. intros. simpl. by rewrite decide_False. Qed.

Lemma rotate_if_differs_Ok (flag : bool) (room : ref) (st st' : State) (u : unit) :
  rotate_if_differs flag room st = Ok (u, st') →
  st' = (if negb (eqb flag (Room.rotated (heap st room))) then upd room Room.rotate st else st).
Proof. unfold rotate_if_differs. destruct (negb _); intros H; by inversion H. Qed.

Lemma adjacency_fold_ext (cfg : Config) (h h' : ref → Room.t) (room : ref) (l : list ref)
    (acc : Q) :
  (∀ r, h r = h' r) →
  rfold (adjacency_step cfg h room) l acc = rfold (adjacency_step cfg h' room) l acc.
Proof.
  intros Hh. revert acc. induction l as [|p l IH]; intros acc; [done|].
  simpl. replace (adjacency_step cfg h room acc p) with (adjacency_step cfg h' room acc p)
    by (unfold adjacency_step; by rewrite !Hh).
  destruct (adjacency_step cfg h' room acc p); simpl; [apply IH|done].
Qed.

Lemma _get_adjacency_score_Ok (cfg : Config) (room : ref) (position : Z * Z)
    (orientation : bool) (st st' : State) (score : Q) :
  _get_adjacency_score cfg room position orientation st = Ok (score, st') →
  rfold (adjacency_step cfg (heap_at_candidate st room position orientation) room)
        (placed_rooms st) 0%Q = Ok score
  ∧ (∀ r, heap st' r = heap st r)
  ∧ rooms st' = rooms st ∧ placed_rooms st' = placed_rooms st ∧ ticks st' = ticks st.
Proof.
  unfold _get_adjacency_score. intros H.
  unfold bind, get_state, modify, rotate_if_differs, lift, ret in H. simpl in H.
  rewrite decide_True in H by done. simpl in H.
  destruct (negb (eqb orientation (Room.rotated (heap st room)))) eqn:E.
  - match type of H with context [rfold ?f ?l ?a] => destruct (rfold f l a) as [sc|] eqn:F end;
      [|discriminate].
    inversion H; subst; clear H. simpl. split; [|split; [|done]].
    + rewrite <- F. apply adjacency_fold_ext. intros r.
      unfold heap_at_candidate, at_candidate. simpl. rewrite E.
      destruct (decide (r = room)) as [->|]; [by rewrite !decide_True|done].
    + intros r. destruct (decide (r = room)) as [->|]; [|done].
      rewrite !decide_True by done.
      by destruct (heap st room) as [? ? ? ? ? ? [] ?].
  - match type of H with context [rfold ?f ?l ?a] => destruct (rfold f l a) as [sc|] eqn:F end;
      [|discriminate].
    inversion H; subst; clear H. simpl. split; [|split; [|done]].
    + rewrite <- F. apply adjacency_fold_ext. intros r.
      unfold heap_at_candidate, at_candidate. simpl. rewrite E.
      destruct (decide (r = room)) as [->|]; done.
    + intros r. destruct (decide (r = room)) as [->|]; [|done].
      rewrite !decide_True by done. by rewrite set_xy_restore.
Qed.

(** C10, as the source has it: the heuristic score of a candidate is the
    sum, over the placed rooms, of what [pair_gain] gives for the room
    moved to the candidate.  Two independent tests feed it: 1 when the
    placed room is a required neighbour of the room and they are adjacent,
    and 1/2 more when the room is a required neighbour of the placed room
    and they are adjacent.  A pair declared in both directions and adjacent
    at the candidate therefore adds 3/2; a pair declared forward only adds
    1, one declared in reverse only adds 1/2.  The call leaves every room
    as it found it. *)
Theorem adjacency_heuristic_adds_both_directions (cfg : Config) (room : ref)
    (position : Z * Z) (orientation : bool) (st st' : State) (score : Q) :
  _get_adjacency_score cfg room position orientation st = Ok (score, st') →
  let h := heap_at_candidate st room position orientation in
  (score == Qsum (map (fun p => pair_gain cfg (h room) (h p)) (placed_rooms st)))%Q
  ∧ (∀ p, Room.id (h p) ∈ graph_get cfg (Room.id (h room)) →
          Room.id (h room) ∈ graph_get cfg (Room.id (h p)) →
          is_adjacent (h room) (h p) = Ok true →
          pair_gain cfg (h room) (h p) = (1 + (1 # 2))%Q)
  ∧ (∀ p, Room.id (h p) ∈ graph_get cfg (Room.id (h room)) →
          Room.id (h room) ∉ graph_get cfg (Room.id (h p)) →
          is_adjacent (h room) (h p) = Ok true →
          pair_gain cfg (h room) (h p) = (1 + 0)%Q)
  ∧ (∀ p, Room.id (h p) ∉ graph_get cfg (Room.id (h room)) →
          Room.id (h room) ∈ graph_get cfg (Room.id (h p)) →
          is_adjacent (h room) (h p) = Ok true →
          pair_gain cfg (h room) (h p) = (0 + (1 # 2))%Q)
  ∧ (∀ r, heap st' r = heap st r).
Proof.
  intros H. apply _get_adjacency_score_Ok in H as (Hfold & Hheap & _).
  apply adjacency_fold_sum in Hfold. cbv zeta.
  split; [by rewrite Hfold, Qplus_0_l|].
  repeat split; try done; intros p Hf Hr Ha; unfold pair_gain, adjacent_now; rewrite Ha;
    rewrite ?(bool_decide_eq_true_2 _ Hf), ?(bool_decide_eq_true_2 _ Hr),
            ?(bool_decide_eq_false_2 _ Hf), ?(bool_decide_eq_false_2 _ Hr); done.
Qed.

(** The sum at the symmetric pair of [Scenario.unit_state]. *)
Lemma adjacency_heuristic_adds_both_directions_witness :
  match _get_adjacency_score Scenario.pair_cfg 1%nat (1, 0) false Scenario.unit_state with
  | Ok (score, _) =>
      Qeq score (Qsum (map (fun p =>
           pair_gain Scenario.pair_cfg
             (heap_at_candidate Scenario.unit_state 1%nat (1, 0) false 1%nat)
             (heap_at_candidate Scenario.unit_state 1%nat (1, 0) false p))
         (placed_rooms Scenario.unit_state)))
  | Raise _ => False
  end.
Proof.
  destruct (_get_adjacency_score Scenario.pair_cfg 1%nat (1, 0) false Scenario.unit_state)
    as [[score st']|e] eqn:E.
  - exact (proj1 (adjacency_heuristic_adds_both_directions _ _ _ _ _ _ _ E)).
  - vm_compute in E. discriminate.
Defined.

(** C10, as the claim has it: the two unit rooms are declared adjacent in
    both directions and touch at the candidate, and the score is 3/2, not
    1. *)
Lemma symmetric_pair_scores_three_halves :
  2 ∈ graph_get Scenario.pair_cfg 1 ∧ 1 ∈ graph_get Scenario.pair_cfg 2
  ∧ placed_rooms Scenario.unit_state = [0%nat]
  ∧ is_adjacent (at_candidate (heap Scenario.unit_state 1%nat) (1, 0) false)
                (heap Scenario.unit_state 0%nat) = Ok true
  ∧ match _get_adjacency_score Scenario.pair_cfg 1%nat (1, 0) false Scenario.unit_state with
    | Ok (score, _) => score = (3 # 2)%Q ∧ ¬ (score == 1)%Q
    | Raise _ => False
    end.
Proof.
  split; [vm_compute; repeat constructor|]. split; [vm_compute; repeat constructor|].
  split; [done|]. split; [done|].
  vm_compute. split; [done|]. discriminate.
Qed.

(** * Frames of the room operations *)

Lemma contains_fits (reg : PlotRegion.t) (room : Room.t) (px py : Z) :
  contains reg room px py = fits reg (Room.width room, Room.height room) (px, py).
Proof. reflexivity. Qed.

Lemma dims_at_own (room : Room.t) :
  dims_at room (Room.rotated room) = (Room.width room, Room.height room).
Proof. unfold dims_at. by rewrite eqb_reflx. Qed.

Lemma dims_at_rotate (room : Room.t) (flag : bool) :
  dims_at (Room.rotate room) flag = dims_at room flag.
Proof. unfold dims_at. simpl. by destruct (Room.rotated room), flag. Qed.

Lemma touches_only_refl (r : ref) (s : State) : touches_only r s s.
Proof. by unfold touches_only; split_and!. Qed.

Lemma touches_only_trans (r : ref) (s1 s2 s3 : State) :
  touches_only r s1 s2 → touches_only r s2 s3 → touches_only r s1 s3.
Proof.
  intros (A1 & A2 & A3 & A4 & A5 & A6) (B1 & B2 & B3 & B4 & B5 & B6).
  unfold touches_only; split_and!;
    [ intros r' Hne; rewrite B1, A1; done | congruence | congruence | congruence
    | congruence | intros flag; by rewrite B6, A6 ].
Qed.

Lemma touches_only_upd (r : ref) (f : Room.t → Room.t) (s : State) :
  (∀ room, Room.id (f room) = Room.id room) →
  (∀ room flag, dims_at (f room) flag = dims_at room flag) →
  touches_only r s (upd r f s).
Proof.
  intros Hid Hd. unfold touches_only; split_and!; simpl; try done.
  - intros r' Hne. by rewrite decide_False.
  - by rewrite decide_True.
  - intros flag. by rewrite decide_True.
Qed.

Lemma touches_only_rotate (r : ref) (s : State) : touches_only r s (upd r Room.rotate s).
Proof. apply touches_only_upd; [done|]. intros. apply dims_at_rotate. Qed.

Lemma touches_only_set_xy (r : ref) (a b : option Z) (s : State) :
  touches_only r s (upd r (Room.set_xy a b) s).
Proof. by apply touches_only_upd. Qed.

Lemma touches_only_set_region (r : ref) (reg : option PlotRegion.t) (s : State) :
  touches_only r s (upd r (Room.set_region reg) s).
Proof. by apply touches_only_upd. Qed.

Lemma touches_only_pointwise (r : ref) (s s' : State) :
  (∀ r', heap s' r' = heap s r') → rooms s' = rooms s →
  placed_rooms s' = placed_rooms s → ticks s' = ticks s → touches_only r s s'.
Proof.
  intros H1 H2 H3 H4. unfold touches_only; split_and!; try done; intros; by rewrite ?H1.
Qed.

Lemma rotate_if_differs_spec (flag : bool) (room : ref) (st st' : State) (u : unit) :
  rotate_if_differs flag room st = Ok (u, st') →
  touches_only room st st' ∧ Room.rotated (heap st' room) = flag.
Proof.
  intros H. apply rotate_if_differs_Ok in H. subst st'.
  destruct (negb (eqb flag (Room.rotated (heap st room)))) eqn:E.
  - split; [apply touches_only_rotate|]. rewrite upd_same. simpl.
    by destruct flag, (Room.rotated (heap st room)).
  - split; [apply touches_only_refl|].
    by destruct flag, (Room.rotated (heap st room)).
Qed.

Lemma _get_adjacency_score_touches (cfg : Config) (room : ref) (position : Z * Z)
    (orientation : bool) (st st' : State) (score : Q) :
  _get_adjacency_score cfg room position orientation st = Ok (score, st') →
  touches_only room st st' ∧ heap st' room = heap st room.
Proof.
  intros H. apply _get_adjacency_score_Ok in H as (_ & H1 & H2 & H3 & H4).
  split; [by apply touches_only_pointwise | done].
Qed.

(** ** Candidates are checked against a region *)

Lemma fit_score_positive (room : Room.t) (reg : PlotRegion.t) (px py : Z) (v : Q) :
  _get_region_fit_score room reg px py = Ok v → Qltb 0 v = true →
  contains reg room px py = true.
Proof.
  unfold _get_region_fit_score. destruct (contains reg room px py); [done|].
  simpl. intros H; inversion H; subst. done.
Qed.

Lemma grid_scan_valid (cfg : Config) (room : Room.t) (reg : PlotRegion.t) (flag : bool)
    (cands0 cands : list candidate) :
  Room.rotated room = flag →
  grid_scan cfg room reg flag cands0 = Ok cands →
  Forall (cand_valid (dims_at room)) cands0 → Forall (cand_valid (dims_at room)) cands.
Proof.
  intros Hflag Hscan H0. unfold grid_scan in Hscan.
  eapply (rfold_inv (Forall (cand_valid (dims_at room)))); [|exact H0|exact Hscan].
  intros b0 pos b1 _ Hb0 Hstep. apply rbind_Ok in Hstep as (v & Hv & Hr).
  inversion Hr; subst; clear Hr. destruct (Qltb 0 v) eqn:E; [|done].
  apply Forall_app. split; [done|]. apply Forall_singleton.
  unfold cand_valid. simpl. rewrite dims_at_own.
  rewrite <- (fit_score_positive room reg pos.1 pos.2 v Hv E).
  rewrite contains_fits. by destruct pos.
Qed.

(** * The branches of the candidate generator *)

Lemma same_state_refl (s : State) : same_state s s.
Proof. by unfold same_state. Qed.

Lemma same_state_trans (s1 s2 s3 : State) :
  same_state s1 s2 → same_state s2 s3 → same_state s1 s3.
Proof.
  intros (A1 & A2 & A3 & A4) (B1 & B2 & B3 & B4).
  unfold same_state; split_and!; [intros r; by rewrite B1 | congruence..].
Qed.

Lemma same_state_touches (r : ref) (s s' : State) : same_state s s' → touches_only r s s'.
Proof. intros (H1 & H2 & H3 & H4). by apply touches_only_pointwise. Qed.

Lemma cand_valid_ext (d d' : bool → Z * Z) (cands : list candidate) :
  (∀ flag, d' flag = d flag) →
  Forall (cand_valid d) cands → Forall (cand_valid d') cands.
Proof.
  intros Hd H. eapply Forall_impl; [exact H|].
  intros c. unfold cand_valid. by rewrite Hd.
Qed.

Lemma grid_region_spec (cfg : Config) (room : ref) (cands0 cands : list candidate)
    (reg : PlotRegion.t) (s s' : State) :
  grid_region cfg room cands0 reg s = Ok (cands, s') →
  Room.rotated (heap s room) = false →
  Forall (cand_valid (dims_at (heap s room))) cands0 →
  same_state s s' ∧ Forall (cand_valid (dims_at (heap s room))) cands.
Proof.
  unfold grid_region. intros H Hrot H0.
  mstep H as st0 s0 Hs0. mstep H as c1 s1 Hc1.
  pose proof (grid_scan_valid cfg _ _ _ _ _ Hrot Hc1 H0) as H1.
  destruct (optimize_rotations cfg).
  - mstep H as u2 s2 Hs2. mstep H as st3 s3 Hs3. mstep H as c4 s4 Hc4.
    mstep H as u5 s5 Hs5. apply ret_Ok in H as [-> ->].
    split.
    + unfold same_state; split_and!; try done. intros r. simpl.
      destruct (decide (r = room)) as [->|]; [|done].
      rewrite !decide_True by done. apply rotate_rotate.
    + eapply cand_valid_ext; [|eapply (grid_scan_valid cfg); [|exact Hc4|]].
      * intros flag. symmetry. rewrite upd_same. apply dims_at_rotate.
      * rewrite upd_same. simpl. by rewrite Hrot.
      * eapply cand_valid_ext; [|exact H1]. intros flag. rewrite upd_same.
        apply dims_at_rotate.
  - apply ret_Ok in H as [-> ->]. split; [apply same_state_refl|done].
Qed.

Lemma adjacent_region_spec (cfg : Config) (room : ref) (pos : Z * Z) (flag : bool)
    (cands0 cands : list candidate) (reg : PlotRegion.t) (s s' : State) :
  adjacent_region cfg room pos flag cands0 reg s = Ok (cands, s') →
  Room.rotated (heap s room) = flag →
  Forall (cand_valid (dims_at (heap s room))) cands0 →
  same_state s s' ∧ Forall (cand_valid (dims_at (heap s room))) cands.
Proof.
  unfold adjacent_region. intros H Hrot H0.
  mstep H as st0 s0 Hs0. mstep H as fit s1 Hfit. destruct (Qltb 0 fit) eqn:E.
  - mstep H as adj s2 Hadj. apply ret_Ok in H as [-> ->].
    apply _get_adjacency_score_Ok in Hadj as (_ & Hs).
    split; [done|]. apply Forall_app. split; [done|]. apply Forall_singleton.
    unfold cand_valid. simpl. rewrite <- Hrot, dims_at_own.
    rewrite <- (fit_score_positive _ _ _ _ _ Hfit E).
    rewrite contains_fits. by destruct pos.
  - apply ret_Ok in H as [-> ->]. split; [apply same_state_refl|done].
Qed.

Lemma adjacent_position_spec (cfg : Config) (room : ref) (cands0 cands : list candidate)
    (p : Z * Z * bool) (s s' : State) :
  adjacent_position cfg room cands0 p s = Ok (cands, s') →
  Forall (cand_valid (dims_at (heap s room))) cands0 →
  touches_only room s s' ∧ Forall (cand_valid (dims_at (heap s room))) cands.
Proof.
  unfold adjacent_position. intros H H0.
  mstep H as u0 s0 Hr0. apply rotate_if_differs_spec in Hr0 as [Ht Hrot].
  mstep H as c1 s1 Hc1. mstep H as u2 s2 Hr2.
  apply rotate_if_differs_spec in Hr2 as [Ht' _].
  apply ret_Ok in H as [-> ->].
  assert (Hd : ∀ flag, dims_at (heap s0 room) flag = dims_at (heap s room) flag)
    by apply Ht.
  cut (same_state s0 s1 ∧ Forall (cand_valid (dims_at (heap s0 room))) c1).
  { intros [Hs Hv]. split.
    - eapply touches_only_trans; [exact Ht|].
      eapply touches_only_trans; [by apply same_state_touches|done].
    - eapply cand_valid_ext; [|exact Hv]. intros; by rewrite Hd. }
  eapply (mfold_inv (fun b s2 => (same_state s0 s2 ∧ Room.rotated (heap s2 room) = p.2)
                                 ∧ Forall (cand_valid (dims_at (heap s0 room))) b)) in Hc1.
  - destruct Hc1 as [[? ?] ?]; done.
  - intros b0 reg sa b1 sb _ [[Hs Hr] Hb] Hstep.
    apply adjacent_region_spec in Hstep as [Hs' Hb']; [|done|].
    + split; [split|].
      * by eapply same_state_trans.
      * destruct Hs' as (-> & _). done.
      * eapply cand_valid_ext; [|exact Hb']. intros. destruct Hs as (-> & _). done.
    + eapply cand_valid_ext; [|exact Hb]. intros. destruct Hs as (-> & _). done.
  - split; [split; [apply same_state_refl|done]|].
    eapply cand_valid_ext; [|exact H0]. intros; by rewrite Hd.
Qed.

Lemma adjacent_anchor_spec (cfg : Config) (room : ref) (cands0 cands : list candidate)
    (anchor : ref) (s s' : State) :
  adjacent_anchor cfg room cands0 anchor s = Ok (cands, s') →
  Forall (cand_valid (dims_at (heap s room))) cands0 →
  touches_only room s s' ∧ Forall (cand_valid (dims_at (heap s room))) cands.
Proof.
  unfold adjacent_anchor. intros H H0. mstep H as st0 s0 Hs0. mstep H as ps s1 Hps.
  eapply (mfold_inv (fun b s2 => touches_only room s s2
                                 ∧ Forall (cand_valid (dims_at (heap s room))) b)) in H.
  - done.
  - intros b0 p s2 b1 s3 _ [Ht Hb] Hstep.
    apply adjacent_position_spec in Hstep as [Ht' Hb'].
    + split; [by eapply touches_only_trans|].
      eapply cand_valid_ext; [|exact Hb']. intros. symmetry. apply Ht.
    + eapply cand_valid_ext; [|exact Hb]. intros. apply Ht.
  - split; [apply touches_only_refl|done].
Qed.

(** ** Sorting permutes *)

Lemma insert_by_perm {K A} (ltb : K → K → bool) (kx : K * A) (l : list (K * A)) :
  insert_by ltb kx l ≡ₚ kx :: l.
Proof.
  induction l as [|ky l IH]; simpl; [done|].
  destruct (ltb kx.1 ky.1); [done|]. rewrite IH. apply Permutation_swap.
Qed.

Lemma sort_keyed_perm {K A} (ltb : K → K → bool) (l : list (K * A)) :
  sort_keyed ltb l ≡ₚ map snd l.
Proof.
  unfold sort_keyed.
  assert (H : ∀ acc, fold_left (fun acc kx => insert_by ltb kx acc) l acc ≡ₚ l ++ acc).
  { induction l as [|kx l IH]; intros acc; simpl; [done|].
    rewrite IH, insert_by_perm. by rewrite Permutation_middle. }
  rewrite (H []). by rewrite app_nil_r.
Qed.

Lemma sort_candidates_perm (cands : list candidate) :
  sort_candidates cands ≡ₚ cands.
Proof.
  unfold sort_candidates. rewrite sort_keyed_perm.
  rewrite map_map. simpl. by rewrite map_id.
Qed.

(** Every candidate of the generator lies inside its region, in the
    orientation its flag names; only the room itself is touched. *)
Lemma _generate_candidate_positions_spec (cfg : Config) (room : ref) (st st' : State)
    (cands : list candidate) :
  _generate_candidate_positions cfg room st = Ok (cands, st') →
  (placed_rooms st = [] → Room.rotated (heap st room) = false) →
  touches_only room st st' ∧ Forall (cand_valid (dims_at (heap st room))) cands.
Proof.
  unfold _generate_candidate_positions. intros H Hrot.
  mstep H as st0 s0 Hs0. mstep H as c1 s1 Hc1. apply ret_Ok in H as [-> ->].
  cut (touches_only room st s1 ∧ Forall (cand_valid (dims_at (heap st room))) c1).
  { intros [Ht Hv]. split; [done|]. by rewrite sort_candidates_perm. }
  match type of Hc1 with
  | (if bool_decide (?l = []) then _ else _) _ = _ =>
      destruct (bool_decide_reflect (l = [])) as [Hnil|Hne]
  end.
  - assert (Hplaced : placed_rooms st = []).
    { destruct (placed_rooms st) as [|p l] eqn:Ep; [done|]. exfalso.
      rewrite ?Ep in Hnil.
      match type of Hnil with
      | context [bool_decide (?f = [])] => destruct (bool_decide_reflect (f = [])) as [Hf|Hf]
      end; simpl in Hnil; [discriminate|done]. }
    specialize (Hrot Hplaced).
    eapply (mfold_inv (fun b s2 => same_state st s2
                                   ∧ Forall (cand_valid (dims_at (heap st room))) b)) in Hc1.
    + destruct Hc1 as [Hs Hv]. split; [by apply same_state_touches|done].
    + intros b0 reg sa b1 sb _ [Hs Hb] Hstep.
      assert (Hh : heap sa room = heap st room) by apply Hs.
      apply grid_region_spec in Hstep as [Hs' Hb']; rewrite ?Hh; try done.
      split; [by eapply same_state_trans|]. by rewrite Hh in Hb'.
    + split; [apply same_state_refl|constructor].
  - eapply (mfold_inv (fun b s2 => touches_only room st s2
                                   ∧ Forall (cand_valid (dims_at (heap st room))) b)) in Hc1.
    + done.
    + intros b0 anchor sa b1 sb _ [Ht Hb] Hstep.
      apply adjacent_anchor_spec in Hstep as [Ht' Hb'].
      * split; [by eapply touches_only_trans|].
        eapply cand_valid_ext; [|exact Hb']. intros. symmetry. apply Ht.
      * eapply cand_valid_ext; [|exact Hb]. intros. apply Ht.
    + split; [apply touches_only_refl|constructor].
Qed.

(** The generator leaves the room lists alone. *)
Lemma grid_region_frame (cfg : Config) (room : ref) (cands0 cands : list candidate)
    (reg : PlotRegion.t) (s s' : State) :
  grid_region cfg room cands0 reg s = Ok (cands, s') → same_state s s'.
Proof.
  unfold grid_region. intros H.
  mstep H as st0 s0 Hs0. mstep H as c1 s1 Hc1.
  destruct (optimize_rotations cfg).
  - mstep H as u2 s2 Hs2. mstep H as st3 s3 Hs3. mstep H as c4 s4 Hc4.
    mstep H as u5 s5 Hs5. apply ret_Ok in H as [-> ->].
    unfold same_state; split_and!; try done. intros r. simpl.
    destruct (decide (r = room)) as [->|]; [|done].
    rewrite !decide_True by done. apply rotate_rotate.
  - apply ret_Ok in H as [-> ->]. apply same_state_refl.
Qed.

Lemma _generate_candidate_positions_rooms (cfg : Config) (room : ref) (st st' : State)
    (cands : list candidate) :
  _generate_candidate_positions cfg room st = Ok (cands, st') → rooms st' = rooms st.
Proof.
  unfold _generate_candidate_positions. intros H.
  mstep H as st0 s0 Hs0. mstep H as c1 s1 Hc1. apply ret_Ok in H as [-> ->].
  match type of Hc1 with
  | (if ?b then _ else _) _ = _ => destruct b
  end.
  - eapply (mfold_inv (fun _ s2 => rooms s2 = rooms st)) in Hc1; [done| |done].
    intros b0 reg sa b1 sb _ Ha Hstep. apply grid_region_frame in Hstep as (_ & -> & _).
    done.
  - eapply (mfold_inv (fun _ s2 => rooms s2 = rooms st)) in Hc1; [done| |done].
    intros b0 anchor sa b1 sb _ Ha Hstep. unfold adjacent_anchor in Hstep.
    mstep Hstep as st2 s2 Hs2. mstep Hstep as ps s3 Hps.
    eapply (mfold_inv (fun _ s4 => rooms s4 = rooms st)) in Hstep; [done| |done].
    intros b2 p sc b3 sd _ Hc Hpos. unfold adjacent_position in Hpos.
    mstep Hpos as u0 s5 Hr0. apply rotate_if_differs_spec in Hr0 as [Ht0 _].
    mstep Hpos as c2 s6 Hc2. mstep Hpos as u2 s7 Hr2.
    apply rotate_if_differs_spec in Hr2 as [Ht2 _]. apply ret_Ok in Hpos as [-> ->].
    destruct Ht2 as (_ & -> & _).
    eapply (mfold_inv (fun _ s8 => rooms s8 = rooms st)) in Hc2; [done| |].
    + intros b4 reg se b5 sf _ He Hreg. unfold adjacent_region in Hreg.
      mstep Hreg as st9 s9 Hs9. mstep Hreg as fit s10 Hfit.
      destruct (Qltb 0 fit).
      * mstep Hreg as adj s11 Hadj. apply ret_Ok in Hreg as [-> ->].
        apply _get_adjacency_score_Ok in Hadj as (_ & _ & -> & _). done.
      * by apply ret_Ok in Hreg as [-> ->].
    + destruct Ht0 as (_ & -> & _). done.
Qed.

(** ** Overlap tests *)

Lemma has_overlap_false (h : ref → Room.t) (room : ref) (placed : list ref) :
  has_overlap h room placed = Ok false →
  ∀ p, p ∈ placed → Room.overlaps (h room) (h p) = Ok false.
Proof.
  induction placed as [|q l IH]; simpl; intros H p Hp.
  - by apply elem_of_nil in Hp.
  - apply rbind_Ok in H as (o & Ho & H). destruct o; [discriminate|].
    apply elem_of_cons in Hp as [->|Hp]; [done|]. by apply IH.
Qed.

Lemma overlaps_sym (a b : Room.t) :
  is_Some (Room.y a) → is_Some (Room.y b) →
  Room.overlaps a b = Ok false → Room.overlaps b a = Ok false.
Proof.
  intros [ya Hya] [yb Hyb]. unfold Room.overlaps. rewrite Hya, Hyb.
  destruct (Room.x a) as [xa|], (Room.x b) as [xb|]; try done.
  rewrite (orb_comm (xb + Room.width b <=? xa)).
  destruct (_ || _); [done|].
  rewrite (orb_comm (yb + Room.height b <=? ya)). done.
Qed.

Lemma overlaps_ext (a a' b : Room.t) :
  Room.x a' = Room.x a → Room.y a' = Room.y a →
  Room.width a' = Room.width a → Room.height a' = Room.height a →
  Room.overlaps a' b = Room.overlaps a b.
Proof. intros H1 H2 H3 H4. unfold Room.overlaps. by rewrite H1, H2, H3, H4. Qed.

Lemma inside_assigned_region_y (room : Room.t) :
  inside_assigned_region room → is_Some (Room.y room).
Proof. intros (px & py & reg & _ & -> & _). eauto. Qed.

Lemma placement_invariant_nil (h : ref → Room.t) : placement_invariant h [].
Proof. split; [intros a b Ha | intros a Ha]; by apply elem_of_nil in Ha. Qed.

Lemma placement_invariant_ext (h h' : ref → Room.t) (placed : list ref) :
  (∀ r, r ∈ placed → h' r = h r) →
  placement_invariant h placed → placement_invariant h' placed.
Proof.
  intros Hh [H1 H2]. split.
  - intros a b Ha Hb Hab. rewrite !Hh by done. by apply H1.
  - intros a Ha. rewrite Hh by done. by apply H2.
Qed.

Lemma placement_invariant_snoc (h : ref → Room.t) (placed : list ref) (c : ref) :
  placement_invariant h placed →
  inside_assigned_region (h c) →
  (∀ p, p ∈ placed → Room.overlaps (h c) (h p) = Ok false) →
  placement_invariant h (placed ++ [c]).
Proof.
  intros [H1 H2] Hc Hov. split.
  - intros a b Ha Hb Hab.
    apply elem_of_app in Ha as [Ha|Ha]; apply elem_of_app in Hb as [Hb|Hb];
      rewrite ?list_elem_of_singleton in *; subst.
    + by apply H1.
    + apply overlaps_sym; [by apply inside_assigned_region_y
                          | by apply inside_assigned_region_y, H2 | by apply Hov].
    + by apply Hov.
    + done.
  - intros a Ha. apply elem_of_app in Ha as [Ha|Ha]; [by apply H2|].
    apply list_elem_of_singleton in Ha. by subst.
Qed.

Lemma list_remove_snoc (c : ref) (l : list ref) :
  c ∉ l → list_remove c (l ++ [c]) = Ok l.
Proof.
  induction l as [|a l IH]; intros Hc; simpl.
  - by rewrite decide_True.
  - rewrite decide_False by (intros ->; apply Hc; by left).
    rewrite IH; [done|]. intros Hin. apply Hc. by right.
Qed.

(** * The sampling grid *)

Lemma while_le_enough (step : positive) (hi : Z) (n m : nat) (lo : Z) :
  (Z.to_nat (hi - lo + 1) ≤ n)%nat → (Z.to_nat (hi - lo + 1) ≤ m)%nat →
  while_le n lo hi step = while_le m lo hi step.
Proof.
  revert m lo. induction n as [|n IH]; intros m lo Hn Hm.
  - destruct m as [|m]; simpl; [done|].
    destruct (Z.leb_spec lo hi); [lia|done].
  - destruct m as [|m]; simpl.
    + destruct (Z.leb_spec lo hi); [lia|done].
    + destruct (Z.leb_spec lo hi); [|done]. f_equal. apply IH; lia.
Qed.

Lemma while_le_bounds (step : positive) (hi : Z) (n : nat) (lo v : Z) :
  v ∈ while_le n lo hi step → lo ≤ v ≤ hi.
Proof.
  revert lo. induction n as [|n IH]; intros lo Hv; simpl in Hv.
  - by apply elem_of_nil in Hv.
  - destruct (Z.leb_spec lo hi); [|by apply elem_of_nil in Hv].
    apply elem_of_cons in Hv as [->|Hv]; [lia|]. apply IH in Hv. lia.
Qed.

Lemma sample_positions_contained (reg : PlotRegion.t) (room : Room.t) (step : positive)
    (pos : Z * Z) :
  pos ∈ get_sample_positions reg room step → contains reg room pos.1 pos.2 = true.
Proof.
  unfold get_sample_positions, steps. intros H.
  apply list_elem_of_In, in_flat_map in H as (px & Hpx & H).
  apply in_map_iff in H as (py & <- & Hpy).
  apply list_elem_of_In, while_le_bounds in Hpx, Hpy.
  unfold contains. simpl.
  repeat (apply andb_true_intro; split); apply Z.leb_le; lia.
Qed.

Lemma fit_score_of_contained (room : Room.t) (reg : PlotRegion.t) (px py : Z) :
  0 < Room.width room → 0 < Room.height room →
  contains reg room px py = true →
  ∃ v, _get_region_fit_score room reg px py = Ok v ∧ Qltb 0 v = true.
Proof.
  intros Hw Hh Hc. unfold _get_region_fit_score. rewrite Hc. simpl.
  unfold contains in Hc. rewrite !andb_true_iff, !Z.leb_le in Hc.
  destruct Hc as [[[H1 H2] H3] H4].
  set (total := px - PlotRegion.x1 reg + (PlotRegion.x2 reg - (px + Room.width room))
                + (py - PlotRegion.y1 reg) + (PlotRegion.y2 reg - (py + Room.height room))).
  assert (Ha : 0 < Room.area room) by (unfold Room.area; lia).
  assert (Ht : 0 ≤ total) by (unfold total; lia).
  destruct (Z.eqb_spec (Room.area room + total) 0) as [E|_]; [lia|].
  eexists. split; [done|]. apply Qltb_lt.
  apply Qlt_shift_div_l.
  - change 0%Q with (inject_Z 0). rewrite <- Zlt_Qlt. lia.
  - rewrite Qmult_0_l. change 0%Q with (inject_Z 0). by rewrite <- Zlt_Qlt.
Qed.

(** With positive dimensions every sample of a scan becomes a candidate. *)
Lemma grid_scan_total (cfg : Config) (room : Room.t) (reg : PlotRegion.t) (flag : bool)
    (cands : list candidate) :
  0 < Room.width room → 0 < Room.height room →
  ∃ extra, grid_scan cfg room reg flag cands = Ok (cands ++ extra)
           ∧ length extra = length (get_sample_positions reg room (step_size cfg)).
Proof.
  intros Hw Hh. unfold grid_scan.
  pose proof (sample_positions_contained reg room (step_size cfg)) as Hall.
  revert cands Hall.
  induction (get_sample_positions reg room (step_size cfg)) as [|pos l IH];
    intros cands Hall.
  - exists []. simpl. by rewrite app_nil_r.
  - destruct (fit_score_of_contained room reg pos.1 pos.2 Hw Hh) as (v & Ev & Hv).
    { apply Hall. by left. }
    cbn [rfold]. rewrite Ev. cbn [rbind]. rewrite Hv.
    destruct (IH (cands ++ [(pos, reg, flag, v)])) as (extra & E & Hlen).
    { intros p Hp. apply Hall. by right. }
    exists ((pos, reg, flag, v) :: extra). split.
    + rewrite <- app_assoc in E. exact E.
    + simpl. by rewrite Hlen.
Qed.

Lemma nonempty_length {A} (l : list A) : l ≠ [] ↔ length l ≠ 0%nat.
Proof. destruct l; simpl; split; intros H; congruence. Qed.

Lemma grid_region_total (cfg : Config) (room : ref) (cands : list candidate)
    (reg : PlotRegion.t) (s : State) :
  0 < Room.width (heap s room) → 0 < Room.height (heap s room) →
  ∃ extra s', grid_region cfg room cands reg s = Ok (cands ++ extra, s')
              ∧ heap s' room = heap s room
              ∧ (region_takes cfg (heap s room) reg → extra ≠ []).
Proof.
  intros Hw Hh. unfold grid_region, region_takes.
  unfold bind at 1. unfold get_state at 1.
  destruct (grid_scan_total cfg (heap s room) reg false cands Hw Hh) as (e1 & E1 & L1).
  unfold bind at 1. rewrite E1. simpl.
  destruct (optimize_rotations cfg).
  - unfold bind, modify, get_state, lift, ret. simpl. rewrite !decide_True by done.
    destruct (grid_scan_total cfg (Room.rotate (heap s room)) reg true (cands ++ e1))
      as (e2 & E2 & L2); [done..|].
    rewrite E2. exists (e1 ++ e2). eexists. split; [by rewrite app_assoc|].
    simpl. rewrite !decide_True by done. split; [apply rotate_rotate|].
    intros [H|[_ H]]; apply nonempty_length; rewrite length_app;
      apply nonempty_length in H; lia.
  - exists e1. eexists. split; [done|]. split; [done|].
    intros [H|[? _]]; [|done]. apply nonempty_length. apply nonempty_length in H. lia.
Qed.

Lemma grid_regions_total (cfg : Config) (room : ref) (regs : list PlotRegion.t)
    (cands : list candidate) (s : State) :
  0 < Room.width (heap s room) → 0 < Room.height (heap s room) →
  ∃ cands' s', mfold (grid_region cfg room) regs cands s = Ok (cands', s')
               ∧ (cands ≠ [] ∨ (∃ reg, reg ∈ regs ∧ region_takes cfg (heap s room) reg)
                  → cands' ≠ []).
Proof.
  revert cands s. induction regs as [|reg regs IH]; intros cands s Hw Hh; simpl.
  - exists cands, s. split; [done|]. intros [H|(reg & Hin & _)]; [done|].
    by apply elem_of_nil in Hin.
  - destruct (grid_region_total cfg room cands reg s Hw Hh) as (e & s1 & E & Hheap & Hne).
    unfold bind. rewrite E.
    destruct (IH (cands ++ e) s1) as (cands' & s' & E' & Hne'); [by rewrite Hheap..|].
    exists cands', s'. split; [done|]. intros H. apply Hne'.
    destruct H as [H|(r & Hin & Hr)].
    + left. by destruct cands.
    + apply elem_of_cons in Hin as [->|Hin].
      * left. specialize (Hne Hr). by destruct cands, e.
      * right. exists r. by rewrite Hheap.
Qed.


(** C5: with [optimize_rotations = False] the adjacency branch still
    proposes rotated candidates, and a run places a room rotated. *)
Theorem rotated_candidates_without_permission :
  optimize_rotations Scenario.corridor_cfg = false
  ∧ match _generate_candidate_positions Scenario.corridor_cfg 1%nat
            Scenario.corridor_mid_state with
    | Ok (cands, _) => map (fun c : candidate => (c.1.1.1, c.1.2)) cands = [((1, 0), true)]
    | Raise _ => False
    end
  ∧ match place_rooms steady_clock Scenario.corridor_cfg Scenario.corridor_state with
    | Ok (n, st') =>
        placed_rooms st' = [0; 1]%nat
        ∧ Room.rotated (heap st' 1%nat) = true
        ∧ Room.width (heap st' 1%nat) = 2 ∧ Room.height (heap st' 1%nat) = 1
    | Raise _ => False
    end.
Proof. vm_compute. repeat split; reflexivity. Qed.

(** * The backtracking search *)

Lemma tentative_inside (room : Room.t) (pos : Z * Z) (reg : PlotRegion.t) (flag : bool)
    (d : bool → Z * Z) :
  Room.rotated room = flag →
  (∀ f, dims_at room f = d f) →
  fits reg (d flag) pos = true →
  inside_assigned_region
    (Room.set_region (Some reg) (Room.set_xy (Some pos.1) (Some pos.2) room)).
Proof.
  intros Hrot Hd Hfit. exists pos.1, pos.2, reg. split_and!; try done.
  rewrite contains_fits. simpl. rewrite <- Hd, <- Hrot, dims_at_own in Hfit.
  by destruct pos.
Qed.

Lemma try_candidates_spec (next : M bool) (c : ref) (rest placed0 : list ref)
    (d : bool → Z * Z) :
  next_spec rest next →
  NoDup (placed0 ++ c :: rest) →
  ∀ cands s b s',
    try_candidates next c cands s = Ok (b, s') →
    placed_rooms s = placed0 →
    placement_invariant (heap s) placed0 →
    (∀ flag, dims_at (heap s c) flag = d flag) →
    Forall (cand_valid d) cands →
    (∀ r, r ≠ c → r ∉ rest → heap s' r = heap s r)
    ∧ (b = false → placed_rooms s' = placed0)
    ∧ (b = true → placed_rooms s' = placed0 ++ c :: rest
                  ∧ placement_invariant (heap s') (placed_rooms s')).
Proof.
  intros Hnext Hnd.
  assert (Hc0 : c ∉ placed0).
  { apply NoDup_app in Hnd as (_ & H & _). intros Hin. apply (H c Hin). by left. }
  assert (Hcr : c ∉ rest).
  { apply NoDup_app in Hnd as (_ & _ & H). by apply NoDup_cons in H as [? _]. }
  assert (Hpr : ∀ p, p ∈ placed0 → p ∉ rest).
  { apply NoDup_app in Hnd as (_ & H & _). intros p Hp Hin. apply (H p Hp). by right. }
  assert (Hnd' : NoDup ((placed0 ++ [c]) ++ rest)) by (by rewrite <- app_assoc).
  induction cands as [|[[[pos reg] flag] sc] cands IH]; intros s b s' Hrun Hpl Hinv Hd Hv.
  { simpl in Hrun. apply ret_Ok in Hrun as [-> ->]. by split_and!. }
  apply Forall_cons in Hv as [Hv1 Hv]. unfold cand_valid in Hv1. simpl in Hv1.
  simpl in Hrun.
  mstep Hrun as u1 s1 Hr1. apply rotate_if_differs_spec in Hr1 as [Ht1 Hrot1].
  mstep Hrun as u2 s2 Hr2. mstep Hrun as u3 s3 Hr3.
  mstep Hrun as st4 s4 Hr4. mstep Hrun as ov s5 Hov.
  remember (upd c (Room.set_region (Some reg))
              (upd c (Room.set_xy (Some pos.1) (Some pos.2)) s1)) as s3 eqn:Es3.
  assert (Hh3c : heap s3 c
                 = Room.set_region (Some reg) (Room.set_xy (Some pos.1) (Some pos.2) (heap s1 c))).
  { rewrite Es3. simpl. by rewrite !decide_True. }
  assert (Hh3 : ∀ r, r ≠ c → heap s3 r = heap s r).
  { intros r Hr. rewrite Es3. simpl. rewrite !decide_False by done. by apply Ht1. }
  assert (Hp3 : placed_rooms s3 = placed0).
  { rewrite Es3. simpl. destruct Ht1 as (_ & _ & -> & _). done. }
  clear Es3.
  assert (Hd3 : ∀ f, dims_at (heap s3 c) f = d f).
  { intros f. rewrite Hh3c. rewrite <- Hd. destruct Ht1 as (_ & _ & _ & _ & _ & <-). done. }
  assert (Hinv3 : placement_invariant (heap s3) placed0).
  { eapply placement_invariant_ext; [|exact Hinv].
    intros r Hr. apply Hh3. intros ->. done. }
  destruct ov; simpl in Hrun.
  - (* the candidate overlaps a placed room *)
    apply IH in Hrun as (H1 & H2 & H3); try done.
    split_and!; try done. intros r Hr Hrr. rewrite H1 by done. by apply Hh3.
  - (* the candidate is free: commit and recurse *)
    mstep Hrun as u6 s6 Hr6. mstep Hrun as ok s7 Hok.
    remember (set_placed_rooms (placed_rooms s3 ++ [c]) s3) as s6 eqn:Es6.
    assert (Hh6 : heap s6 = heap s3) by (by rewrite Es6).
    assert (Hp6 : placed_rooms s6 = placed0 ++ [c]) by (by rewrite Es6, <- Hp3).
    clear Es6.
    assert (Hinv6 : placement_invariant (heap s6) (placed_rooms s6)).
    { rewrite Hh6, Hp6. apply placement_invariant_snoc; [done| |].
      - rewrite Hh3c. apply (tentative_inside _ _ _ flag d); [done| |done].
        intros f. rewrite <- Hd. by apply Ht1.
      - rewrite <- Hp3. by apply has_overlap_false. }
    destruct (Hnext _ _ _ Hok Hinv6) as (K1 & K2 & K3);
      [by rewrite Hp6 | rewrite Hp6; by destruct placed0 |].
    rewrite Hh6 in K1. rewrite Hp6 in K2, K3.
    destruct ok.
    + apply ret_Ok in Hrun as [-> ->]. destruct (K3 eq_refl) as [K4 K5].
      split_and!; [|done|].
      * intros r Hr Hrr. rewrite K1 by done. by apply Hh3.
      * intros _. split; [|done]. rewrite K4. by rewrite <- app_assoc.
    + mstep Hrun as st8 s8 Hr8. mstep Hrun as l s9 Hl. mstep Hrun as u10 s10 Hr10.
      rewrite (K2 eq_refl) in Hl.
      rewrite list_remove_snoc in Hl by done. inversion Hl; subst l; clear Hl.
      apply IH in Hrun as (H1 & H2 & H3); try done.
      * split_and!; try done. intros r Hr Hrr. rewrite H1 by done. simpl.
        rewrite K1 by done. by apply Hh3.
      * eapply placement_invariant_ext; [|exact Hinv3].
        intros r Hr. simpl. rewrite K1 by auto. done.
      * intros f. simpl. rewrite K1 by done. apply Hd3.
Qed.

Lemma timed_out_spec (clock : nat → Q) (cfg : Config) (ts : option Q) (s s' : State) (b : bool) :
  timed_out clock cfg ts s = Ok (b, s') →
  heap s' = heap s ∧ rooms s' = rooms s ∧ placed_rooms s' = placed_rooms s.
Proof.
  unfold timed_out. destruct ts as [t0|].
  - destruct (Qeq_bool t0 0).
    + intros H. by apply ret_Ok in H as [-> ->].
    + intros H. apply bind_Ok in H as (now & s1 & H1 & H2).
      apply ret_Ok in H2 as [-> ->]. unfold time_time in H1. by inversion H1.
  - intros H. by apply ret_Ok in H as [-> ->].
Qed.

Lemma abandon_room_spec (c : ref) (s s' : State) (b : bool) :
  abandon_room c c s = Ok (b, s') →
  b = false ∧ (∀ r, r ≠ c → heap s' r = heap s r) ∧ placed_rooms s' = placed_rooms s
  ∧ unplaced (heap s' c)
  ∧ Room.rotated (heap s' c) = Room.rotated (heap s c)
  ∧ Room.width (heap s' c) = Room.width (heap s c)
  ∧ Room.height (heap s' c) = Room.height (heap s c).
Proof.
  unfold abandon_room. intros H. mstep H as st0 s0 Hs0.
  rewrite eqb_reflx in H. simpl in H.
  mstep H as u1 s1 H1. mstep H as u2 s2 H2. mstep H as u3 s3 H3.
  apply ret_Ok in H as [-> ->]. split; [done|]. split.
  - intros r Hr. simpl. by rewrite !decide_False.
  - simpl. rewrite !decide_True by done. by unfold unplaced.
Qed.

Lemma backtrack_spec (clock : nat → Q) (cfg : Config) (ts : option Q) (todo : list ref) :
  ∀ st b st',
    backtrack clock cfg todo ts st = Ok (b, st') →
    placement_invariant (heap st) (placed_rooms st) →
    NoDup (placed_rooms st ++ todo) →
    (placed_rooms st = [] → ∀ r, r ∈ todo → Room.rotated (heap st r) = false) →
    (∀ r, r ∉ todo → heap st' r = heap st r)
    ∧ (b = false → placed_rooms st' = placed_rooms st)
    ∧ (b = true → placed_rooms st' = placed_rooms st ++ todo
                  ∧ placement_invariant (heap st') (placed_rooms st')).
Proof.
  induction todo as [|c rest IH]; intros st b st' Hrun Hinv Hnd Hrot.
  - simpl in Hrun. apply bind_Ok in Hrun as (ex & s1 & Hto & Hrun).
    apply timed_out_spec in Hto as (Hh & _ & Hp).
    destruct ex; apply ret_Ok in Hrun as [-> ->]; rewrite Hh, Hp;
      split_and!; try done.
    intros _. by rewrite app_nil_r.
  - simpl in Hrun. apply bind_Ok in Hrun as (ex & s1 & Hto & Hrun).
    apply timed_out_spec in Hto as (Hh & _ & Hp).
    destruct ex.
    { apply ret_Ok in Hrun as [-> ->]. rewrite Hh, Hp. by split_and!. }
    mstep Hrun as cands s2 Hgen. mstep Hrun as found s3 Htry.
    apply _generate_candidate_positions_spec in Hgen as [Ht Hv].
    2: { rewrite Hh, Hp. intros Hnil. apply Hrot; [done|by left]. }
    assert (Hp2 : placed_rooms s2 = placed_rooms st).
    { destruct Ht as (_ & _ & -> & _). done. }
    assert (Hh2 : ∀ r, r ≠ c → heap s2 r = heap st r).
    { intros r Hr. destruct Ht as (Ht0 & _). rewrite Ht0 by done. by rewrite Hh. }
    assert (Hnd2 : NoDup (placed_rooms st ++ c :: rest)) by done.
    assert (Hinv2 : placement_invariant (heap s2) (placed_rooms st)).
    { eapply placement_invariant_ext; [|exact Hinv]. intros r Hr. apply Hh2.
      intros ->. apply NoDup_app in Hnd as (_ & H & _). apply (H c Hr). by left. }
    assert (Hnx : next_spec rest (backtrack clock cfg rest ts)).
    { intros s b0 s' Hn Hi Hn' Hne. apply (IH _ _ _ Hn Hi Hn'). done. }
    assert (Hd2 : ∀ flag, dims_at (heap s2 c) flag = dims_at (heap s1 c) flag) by apply Ht.
    destruct (try_candidates_spec _ c rest (placed_rooms st) (dims_at (heap s1 c))
                Hnx Hnd2 cands s2 found s3 Htry Hp2 Hinv2 Hd2 Hv) as (T1 & T2 & T3).
    destruct found.
    + apply ret_Ok in Hrun as [-> ->]. split_and!; try done.
      intros r Hr. apply not_elem_of_cons in Hr as [Hrc Hrr].
      rewrite T1 by done. by apply Hh2.
    + apply abandon_room_spec in Hrun as (-> & A1 & A2 & _).
      split_and!; try done.
      * intros r Hr. apply not_elem_of_cons in Hr as [Hrc Hrr].
        rewrite A1, T1 by done. by apply Hh2.
      * intros _. rewrite A2. by apply T2.
Qed.

(** C6: a room whose candidates all overlap comes back from
    [_place_room_backtracking] with position and region cleared but in the
    orientation of the last candidate tried, not the one it came with. *)
Theorem backtracking_failure_keeps_last_orientation :
  Room.rotated (heap Scenario.block_state 2%nat) = false
  ∧ Room.width (heap Scenario.block_state 2%nat) = 2
  ∧ Room.height (heap Scenario.block_state 2%nat) = 1
  ∧ match _place_room_backtracking steady_clock Scenario.block_cfg 2 None
            Scenario.block_state with
    | Ok (ok, st') =>
        ok = false
        ∧ unplaced (heap st' 2%nat)
        ∧ Room.rotated (heap st' 2%nat) = true
        ∧ Room.width (heap st' 2%nat) = 1
        ∧ Room.height (heap st' 2%nat) = 2
    | Raise _ => False
    end.
Proof. vm_compute. repeat split; reflexivity. Qed.

(** C3: with [timeout = 0] and a clock that has not advanced between the
    reading that starts the search and the first timeout test, the
    recursive search runs and places the room; and two runs on the same
    rooms, regions and configuration end in different room states when the
    clock readings differ. *)
Theorem timeout_zero_still_backtracks :
  Qeq (timeout Scenario.slot_cfg) 0
  ∧ match _place_room_backtracking frozen_clock Scenario.slot_cfg 0
            (Some (frozen_clock 0)) Scenario.slot_state with
    | Ok (ok, st') => ok = true ∧ placed_rooms st' = [0%nat]
    | Raise _ => False
    end
  ∧ match place_rooms steady_clock Scenario.slot_cfg Scenario.slot_state,
          place_rooms late_clock Scenario.slot_cfg Scenario.slot_state with
    | Ok (n1, st1), Ok (n2, st2) =>
        placed_rooms st1 = [0%nat] ∧ placed_rooms st2 = [0%nat]
        ∧ Room.rotated (heap st1 0%nat) = true
        ∧ Room.rotated (heap st2 0%nat) = false
    | _, _ => False
    end.
Proof. vm_compute. repeat split; reflexivity. Qed.

(** * The greedy pass *)

Lemma greedy_candidate_spec (cfg : Config) (room : ref) (s0 s s' : State) (b b' : best)
    (c : candidate) :
  greedy_candidate cfg room b c s = Ok (b', s') →
  room ∉ placed_rooms s0 →
  touches_only room s0 s →
  cand_valid (dims_at (heap s0 room)) c →
  best_ok (heap s0) (placed_rooms s0) (dims_at (heap s0 room)) b →
  touches_only room s0 s'
  ∧ best_ok (heap s0) (placed_rooms s0) (dims_at (heap s0 room)) b'.
Proof.
  destruct c as [[[pos reg] flag] sc]. destruct b as [[[bs bp] br] bg].
  unfold greedy_candidate, cand_valid. simpl. intros H Hnin Ht Hv Hb.
  mstep H as u1 s1 Hr1. apply rotate_if_differs_spec in Hr1 as [Ht1 Hrot1].
  mstep H as u2 s2 Hr2. mstep H as st3 s3 Hr3. mstep H as ov s4 Hov.
  remember (upd room (Room.set_xy (Some pos.1) (Some pos.2)) s1) as s2 eqn:Es2.
  assert (Ht2 : touches_only room s0 s2).
  { rewrite Es2. eapply touches_only_trans; [exact Ht|].
    eapply touches_only_trans; [exact Ht1|]. apply touches_only_set_xy. }
  assert (Hh2 : heap s2 room = Room.set_xy (Some pos.1) (Some pos.2) (heap s1 room)).
  { rewrite Es2. apply upd_same. }
  clear Es2.
  mstep H as b1 s5 Hb1. mstep H as u6 s6 Hr6.
  apply rotate_if_differs_spec in Hr6 as [Ht6 _]. apply ret_Ok in H as [-> ->].
  destruct ov; simpl in Hb1.
  - apply ret_Ok in Hb1 as [-> ->]. split; [by eapply touches_only_trans|done].
  - mstep Hb1 as adj s7 Hadj. apply _get_adjacency_score_touches in Hadj as [Ht7 Hh7].
    mstep Hb1 as st8 s8 Hr8. mstep Hb1 as rs s9 Hrs.
    destruct (Qltb _ _); apply ret_Ok in Hb1 as [-> ->];
      (assert (Ht' : touches_only room s0 s6)
         by (eapply touches_only_trans; [|exact Ht6]; by eapply touches_only_trans));
      (split; [done|]); [|done].
    unfold best_ok. simpl. exists reg. split_and!; [done|done|].
    intros room' Hx Hy Hwh p Hp.
    rewrite <- (has_overlap_false _ _ _ Hov p).
    + assert (Hpr : p ≠ room) by (intros ->; apply Hnin; done).
      destruct Ht2 as (Hother & _ & _ & _ & _ & Hdims).
      rewrite (Hother p Hpr). apply overlaps_ext.
      * by rewrite Hh2.
      * by rewrite Hh2.
      * rewrite Hh2. simpl. destruct Ht1 as (_ & _ & _ & _ & _ & Hd1).
        destruct Ht as (_ & _ & _ & _ & _ & Hd0).
        rewrite <- Hd0, <- Hd1, <- Hrot1, dims_at_own in Hwh. by inversion Hwh.
      * rewrite Hh2. simpl. destruct Ht1 as (_ & _ & _ & _ & _ & Hd1).
        destruct Ht as (_ & _ & _ & _ & _ & Hd0).
        rewrite <- Hd0, <- Hd1, <- Hrot1, dims_at_own in Hwh. by inversion Hwh.
    + destruct Ht2 as (_ & _ & -> & _). done.
Qed.

Lemma greedy_room_spec (cfg : Config) (room : ref) (s s' : State) (u : unit) :
  greedy_room cfg room s = Ok (u, s') →
  placement_invariant (heap s) (placed_rooms s) →
  room ∉ placed_rooms s →
  (placed_rooms s = [] → Room.rotated (heap s room) = false) →
  (∀ r, r ≠ room → heap s' r = heap s r)
  ∧ placement_invariant (heap s') (placed_rooms s')
  ∧ (∀ r, r ∈ placed_rooms s' → r ∈ placed_rooms s ∨ r = room).
Proof.
  unfold greedy_room. intros H Hinv Hnin Hrot.
  mstep H as cands s1 Hgen. mstep H as b s2 Hloop.
  apply _generate_candidate_positions_spec in Hgen as [Ht1 Hv]; [|done].
  assert (Hd1 : ∀ f, dims_at (heap s1 room) f = dims_at (heap s room) f) by apply Ht1.
  assert (Hp1 : placed_rooms s1 = placed_rooms s) by apply Ht1.
  assert (Hh1 : ∀ r, r ≠ room → heap s1 r = heap s r) by apply Ht1.
  eapply (mfold_inv (fun b0 sa =>
            touches_only room s1 sa
            ∧ best_ok (heap s1) (placed_rooms s1) (dims_at (heap s1 room)) b0)) in Hloop.
  2: { intros b0 c sa b1 sb Hc [Hta Hba] Hstep.
       eapply greedy_candidate_spec in Hstep; try done.
       - by rewrite Hp1.
       - eapply Forall_forall in Hv; [|exact Hc]. unfold cand_valid in *. by rewrite Hd1. }
  2: { split; [apply touches_only_refl|done]. }
  destruct Hloop as [Ht2 Hb]. destruct b as [[[bs bp] br] bg].
  unfold best_ok in Hb. simpl in Hb.
  assert (Ht : touches_only room s s2) by (by eapply touches_only_trans).
  assert (Hne : ∀ r, r ∈ placed_rooms s → r ≠ room) by (intros r Hr ->; done).
  destruct bp as [pos|].
  - destruct Hb as (reg & -> & Hfit & Hov).
    mstep H as u3 s3 Hr3. apply rotate_if_differs_spec in Hr3 as [Ht3 Hrot3].
    mstep H as u4 s4 Hr4. mstep H as u5 s5 Hr5. apply modify_Ok in H. subst s'.
    assert (Ht' : touches_only room s s3) by (by eapply touches_only_trans).
    destruct Ht' as (Ho & _ & Hpl & _ & _ & Hd').
    remember (upd room (Room.set_region (Some reg))
                (upd room (Room.set_xy (Some pos.1) (Some pos.2)) s3)) as s5 eqn:Es5.
    assert (Hh5 : heap s5 room
                  = Room.set_region (Some reg)
                      (Room.set_xy (Some pos.1) (Some pos.2) (heap s3 room))).
    { rewrite Es5. simpl. by rewrite !decide_True. }
    assert (Hh5o : ∀ r, r ≠ room → heap s5 r = heap s r).
    { intros r Hr. rewrite Es5. simpl. rewrite !decide_False by done. by apply Ho. }
    assert (Hp5 : placed_rooms s5 = placed_rooms s) by (by rewrite Es5).
    clear Es5. simpl. rewrite Hp5. split_and!.
    + done.
    + apply placement_invariant_snoc.
      * eapply placement_invariant_ext; [|exact Hinv]. intros r Hr. apply Hh5o. by apply Hne.
      * rewrite Hh5.
        apply (tentative_inside _ _ _ br (dims_at (heap s1 room))); [done| |done].
        intros f. by rewrite Hd1, Hd'.
      * intros p Hp. rewrite (Hh5o p) by (by apply Hne).
        rewrite <- (Hh1 p) by (by apply Hne).
        apply Hov; [by rewrite Hh5|by rewrite Hh5| |by rewrite Hp1].
        rewrite Hh5. simpl. by rewrite Hd1, <- Hd', <- Hrot3, dims_at_own.
    + intros r Hr. apply elem_of_app in Hr as [Hr|Hr]; [by left|].
      apply list_elem_of_singleton in Hr. by right.
  - apply ret_Ok in H as [_ ->]. destruct Ht as (Ho & _ & Hp & _). split_and!.
    + done.
    + rewrite Hp. eapply placement_invariant_ext; [|exact Hinv].
      intros r Hr. apply Ho. by apply Hne.
    + intros r Hr. left. by rewrite <- Hp.
Qed.

Lemma greedy_loop_spec (cfg : Config) (l : list ref) :
  ∀ s s' u,
    mfold (fun _ room => greedy_room cfg room) l u s = Ok (tt, s') →
    NoDup l →
    placement_invariant (heap s) (placed_rooms s) →
    (∀ r, r ∈ l → r ∉ placed_rooms s) →
    (∀ r, r ∈ l → Room.rotated (heap s r) = false) →
    placement_invariant (heap s') (placed_rooms s').
Proof.
  induction l as [|room l IH]; intros s s' u H Hnd Hinv Hout Hrot; simpl in H.
  - by apply ret_Ok in H as [_ ->].
  - apply bind_Ok in H as (u1 & s1 & H1 & H2).
    apply NoDup_cons in Hnd as [Hroom Hnd].
    apply greedy_room_spec in H1 as (G1 & G2 & G3); try done.
    + eapply IH; try done.
      * intros r Hr Hin. apply G3 in Hin as [Hin| ->]; [|done].
        apply (Hout r); [by right|done].
      * intros r Hr. rewrite G1 by (intros ->; done). apply Hrot. by right.
    + apply Hout. by left.
    + intros _. apply Hrot. by left.
Qed.

(** C8: the greedy pass leaves the last candidate position on a room it
    could not place. *)
Theorem greedy_leaves_position_on_unplaced_room :
  match place_rooms steady_clock Scenario.strip_cfg Scenario.strip_state with
  | Ok (n, st') =>
      n = 2%nat
      ∧ placed_rooms st' = [0; 1]%nat
      ∧ 2%nat ∈ rooms st'
      ∧ (2%nat ∉ placed_rooms st')
      ∧ Room.x (heap st' 2%nat) = Some 1
      ∧ Room.y (heap st' 2%nat) = Some 0
      ∧ Room.region (heap st' 2%nat) = None
  | Raise _ => False
  end.
Proof.
  vm_compute. split_and!; try reflexivity.
  - repeat constructor.
  - intros H. repeat (apply elem_of_cons in H as [H|H]; [discriminate|]).
    by apply elem_of_nil in H.
Qed.

(** * Clearing and sorting *)

Lemma clear_fold_spec (l : list ref) :
  ∀ st,
    let st' := fold_left (fun s room => upd room clear_room s) l st in
    rooms st' = rooms st ∧ placed_rooms st' = placed_rooms st ∧ ticks st' = ticks st
    ∧ ∀ r, heap st' r = if decide (r ∈ l) then clear_room (heap st r) else heap st r.
Proof.
  induction l as [|a l IH]; intros st; simpl.
  - split_and!; try done.
  - destruct (IH (upd a clear_room st)) as (I1 & I2 & I3 & I4).
    split_and!; try done. intros r. rewrite I4. simpl.
    destruct (decide (r ∈ l)) as [Hin|Hnin], (decide (r = a)) as [->|Hne].
    + rewrite decide_True by (by left). by destruct (heap st a).
    + rewrite decide_True by (by right). done.
    + rewrite decide_True by (by left). done.
    + rewrite decide_False; [done|]. intros Hx. apply elem_of_cons in Hx as [?|?]; done.
Qed.

Lemma clear_placements_spec (st : State) :
  rooms (clear_placements st) = rooms st
  ∧ placed_rooms (clear_placements st) = []
  ∧ ticks (clear_placements st) = ticks st
  ∧ ∀ r, heap (clear_placements st) r
         = if decide (r ∈ rooms st) then clear_room (heap st r) else heap st r.
Proof.
  unfold clear_placements. simpl.
  destruct (clear_fold_spec (rooms st) st) as (H1 & H2 & H3 & H4). by split_and!.
Qed.

Lemma rmap_keyed_snd {K A} (key : A → result K) (l : list A) (ks : list (K * A)) :
  rmap (fun a => do k <- key a; Ok (k, a))%res l = Ok ks → map snd ks = l.
Proof.
  revert ks. induction l as [|a l IH]; intros ks H; simpl in H.
  - by inversion H.
  - apply rbind_Ok in H as ([k a'] & H1 & H2).
    apply rbind_Ok in H1 as (k' & Hk & Hka). inversion Hka; subst.
    apply rbind_Ok in H2 as (ks' & H2 & H3). inversion H3; subst.
    simpl. by rewrite (IH ks').
Qed.

Lemma sorted_perm {K A} (ltb : K → K → bool) (key : A → result K) (l l' : list A) :
  sorted ltb key l = Ok l' → l' ≡ₚ l.
Proof.
  unfold sorted. intros H. apply rbind_Ok in H as (ks & H1 & H2).
  inversion H2; subst. rewrite sort_keyed_perm. by rewrite (rmap_keyed_snd key l ks).
Qed.

Lemma sort_rooms_perm (cfg : Config) (st : State) (l : list ref) :
  sort_rooms cfg st = Ok l → l ≡ₚ rooms st.
Proof.
  unfold sort_rooms.
  repeat (destruct (String.eqb _ _); [apply sorted_perm|]).
  intros H. by inversion H.
Qed.

(** C7: after a run that placed a 2x1 room rotated, [clear_placements]
    resets the flag and leaves the swapped dimensions 1x2 in place. *)
Theorem clear_placements_keeps_swapped_dimensions :
  Room.width (heap Scenario.slot_state 0%nat) = 2
  ∧ Room.height (heap Scenario.slot_state 0%nat) = 1
  ∧ match place_rooms steady_clock Scenario.slot_cfg Scenario.slot_state with
    | Ok (_, st') =>
        unplaced (heap (clear_placements st') 0%nat)
        ∧ Room.rotated (heap (clear_placements st') 0%nat) = false
        ∧ placed_rooms (clear_placements st') = []
        ∧ Room.width (heap (clear_placements st') 0%nat) = 1
        ∧ Room.height (heap (clear_placements st') 0%nat) = 2
    | Raise _ => False
    end.
Proof. vm_compute. repeat split; reflexivity. Qed.

(** * Runs on an empty room list *)

Lemma sort_rooms_nil (cfg : Config) (st : State) :
  rooms st = [] → sort_rooms cfg st = Ok [].
Proof.
  intros H. unfold sort_rooms. rewrite H.
  repeat (destruct (String.eqb _ _); [reflexivity|]). reflexivity.
Qed.

Lemma clear_placements_nil (st : State) :
  rooms st = [] → clear_placements st = set_placed_rooms [] st.
Proof. intros H. unfold clear_placements. by rewrite H. Qed.

(** C2: with an empty room list and a non-empty region list,
    [place_rooms] raises nothing and returns 0, whatever the configuration
    (the default sort method [hybrid] included) and whatever the clock
    reads; [get_adjacency_score] on the resulting state returns ratio 1. *)
Theorem place_rooms_empty_room_list (clock : nat → Q) (cfg : Config) (st : State) :
  rooms st = [] → regions cfg ≠ [] →
  ∃ st', place_rooms clock cfg st = Ok (0%nat, st')
         ∧ get_adjacency_score cfg st' = Ok (0, 0, 1%Q).
Proof.
  intros Hrooms _. unfold place_rooms, bind, modify, get_state, lift, time_time.
  rewrite clear_placements_nil by done.
  rewrite sort_rooms_nil by done. simpl.
  unfold _place_room_backtracking. simpl.
  unfold bind, timed_out, time_time, ret. simpl.
  destruct (Qeq_bool (clock (ticks st)) 0); simpl.
  - eexists. split; [reflexivity|]. reflexivity.
  - destruct (Qltb _ _); simpl.
    + eexists. split; [reflexivity|]. reflexivity.
    + eexists. split; [reflexivity|]. reflexivity.
Qed.

(** The empty run under the constructor's defaults. *)
Lemma place_rooms_empty_room_list_witness :
  ∃ st', place_rooms steady_clock (init_config [Scenario.hall] ∅)
                     (init_state (store []) []) = Ok (0%nat, st')
         ∧ get_adjacency_score (init_config [Scenario.hall] ∅) st' = Ok (0, 0, 1%Q).
Proof.
  apply (place_rooms_empty_room_list steady_clock (init_config [Scenario.hall] ∅)
           (init_state (store []) [])); [reflexivity | discriminate].
Defined.

(** * Runs of [place_rooms] *)

Lemma cleared_sorted_state (st : State) (l : list ref) :
  NoDup (rooms st) → l ≡ₚ rooms st →
  let s := set_rooms l (clear_placements st) in
  NoDup l ∧ placed_rooms s = [] ∧ rooms s = l
  ∧ ∀ r, r ∈ l → Room.rotated (heap s r) = false.
Proof.
  intros Hnd Hperm. destruct (clear_placements_spec st) as (Er & Ep & Et & Eh).
  unfold set_rooms. cbn [heap rooms placed_rooms]. split_and!; try done.
  - by rewrite Hperm.
  - intros r Hr. rewrite Eh. rewrite decide_True by (by rewrite <- Hperm). done.
Qed.

Lemma try_candidates_rooms (next : M bool) (c : ref) (cands : list candidate) :
  (∀ s b s', next s = Ok (b, s') → rooms s' = rooms s) →
  ∀ s b s', try_candidates next c cands s = Ok (b, s') → rooms s' = rooms s.
Proof.
  intros Hnext. induction cands as [|[[[pos reg] flag] sc] cands IH]; intros s b s' H.
  - simpl in H. by apply ret_Ok in H as [_ ->].
  - simpl in H. mstep H as u1 s1 Hr1. apply rotate_if_differs_spec in Hr1 as [Ht1 _].
    mstep H as u2 s2 Hr2. mstep H as u3 s3 Hr3. mstep H as st4 s4 Hr4.
    mstep H as ov s5 Hov.
    assert (Hr : rooms s1 = rooms s) by apply Ht1.
    destruct ov; simpl in H.
    + apply IH in H. by rewrite H.
    + mstep H as u6 s6 Hr6. mstep H as ok s7 Hok. apply Hnext in Hok.
      destruct ok.
      * apply ret_Ok in H as [_ ->]. by rewrite Hok.
      * mstep H as st8 s8 Hr8. mstep H as l s9 Hl. mstep H as u10 s10 Hr10.
        apply IH in H. rewrite H. simpl. by rewrite Hok.
Qed.

Lemma backtrack_rooms (clock : nat → Q) (cfg : Config) (ts : option Q) (todo : list ref) :
  ∀ st b st', backtrack clock cfg todo ts st = Ok (b, st') → rooms st' = rooms st.
Proof.
  induction todo as [|c rest IH]; intros st b st' H; simpl in H;
    apply bind_Ok in H as (ex & s1 & Hto & H);
    apply timed_out_spec in Hto as (_ & Hr1 & _).
  - destruct ex; apply ret_Ok in H as [_ ->]; done.
  - destruct ex; [by apply ret_Ok in H as [_ ->]|].
    mstep H as cands s2 Hgen. mstep H as found s3 Htry.
    apply _generate_candidate_positions_rooms in Hgen.
    apply (try_candidates_rooms _ _ _ IH) in Htry.
    destruct found.
    + apply ret_Ok in H as [_ ->]. congruence.
    + unfold abandon_room in H. mstep H as st4 s4 H4.
      rewrite eqb_reflx in H. simpl in H.
      mstep H as u5 s5 H5. mstep H as u6 s6 H6. mstep H as u7 s7 H7.
      apply ret_Ok in H as [_ ->]. simpl. congruence.
Qed.

(** C1: after any run of [place_rooms] that returns, on a room list of
    distinct objects, the placement invariant holds: two distinct rooms of
    the placed list never overlap, and every placed room lies inside the
    rectangle of the region assigned to it.  This covers the run that ends
    with a successful search and the run that ends with the greedy pass;
    the count returned is the length of the placed list. *)
Theorem place_rooms_keeps_placement_invariant (clock : nat → Q) (cfg : Config)
    (st st' : State) (n : nat) :
  NoDup (rooms st) →
  place_rooms clock cfg st = Ok (n, st') →
  placement_invariant (heap st') (placed_rooms st') ∧ n = length (placed_rooms st').
Proof.
  intros Hnd H. unfold place_rooms in H.
  mstep H as u0 s0 H0. mstep H as st1 s1 H1. mstep H as sorted_rooms s2 Hsort.
  mstep H as u3 s3 H3. apply bind_Ok in H as (t0 & s4 & Ht & H).
  unfold time_time in Ht. inversion Ht; subst t0 s4; clear Ht.
  apply bind_Ok in H as (ok & s5 & Hbt & H).
  apply sort_rooms_perm in Hsort.
  destruct (clear_placements_spec st) as (Er & Ep & Et & Eh). rewrite Er in Hsort.
  destruct (cleared_sorted_state st sorted_rooms Hnd Hsort) as (Hnd' & Hp & Hr & Hrot).
  unfold _place_room_backtracking in Hbt. simpl in Hbt.
  pose proof Hbt as Hbt0.
  apply backtrack_spec in Hbt as (B1 & B2 & B3); simpl.
  - destruct ok.
    + mstep H as st6 s6 H6. apply ret_Ok in H as [-> ->].
      destruct (B3 eq_refl) as [_ Hinv]. done.
    + mstep H as u6 s6 H6. unfold _place_rooms_greedy in H.
      apply bind_Ok in H as ([] & s7 & Hloop & H).
      mstep H as st8 s8 H8. apply ret_Ok in H as [-> ->]. split; [|done].
      destruct (clear_placements_spec s5) as (D1 & D2 & D3 & D4).
      assert (Hrooms5 : rooms s5 = sorted_rooms).
      { apply backtrack_rooms in Hbt0. by rewrite Hbt0. }
      eapply greedy_loop_spec; [exact Hloop|done| | |].
      * rewrite D2. apply placement_invariant_nil.
      * intros r _. rewrite D2. apply not_elem_of_nil.
      * intros r Hin. rewrite D4. rewrite decide_True by (by rewrite Hrooms5). done.
  - apply placement_invariant_nil.
  - done.
  - intros _ r Hin. exact (Hrot r Hin).
Qed.

(** The invariant after the two-room scenario of the specification. *)
Lemma place_rooms_keeps_placement_invariant_witness :
  match place_rooms steady_clock Scenario.pair_cfg Scenario.pair_state with
  | Ok (n, st') =>
      placement_invariant (heap st') (placed_rooms st') ∧ n = length (placed_rooms st')
  | Raise _ => False
  end.
Proof.
  destruct (place_rooms steady_clock Scenario.pair_cfg Scenario.pair_state)
    as [[n st']|e] eqn:E.
  - apply (place_rooms_keeps_placement_invariant steady_clock Scenario.pair_cfg
             Scenario.pair_state st' n); [|exact E].
    simpl. apply NoDup_cons. split; [|apply NoDup_singleton].
    intros H. apply list_elem_of_singleton in H. discriminate.
  - vm_compute in E. discriminate.
Defined.

(** * Geometry of rooms and rectangles *)

Ltac zbool :=
  repeat match goal with
         | |- context [?a =? ?b] => destruct (Z.eqb_spec a b)
         | |- context [?a <=? ?b] => destruct (Z.leb_spec a b)
         end;
  simpl; try reflexivity; try lia.

Lemma are_adjacent_sym (rect1 rect2 : Z * Z * Z * Z) :
  are_adjacent rect1 rect2 = are_adjacent rect2 rect1.
Proof.
  destruct rect1 as [[[ax ay] aw] ah], rect2 as [[[bx by_] bw] bh].
  unfold are_adjacent. zbool.
Qed.

(** X1: adjacency is symmetric, both for the free function [are_adjacent]
    on rectangles and for [Room.is_adjacent] on rooms, whatever the two
    rooms hold (placed or not, the [TypeError] outcome included). *)
Theorem adjacency_is_symmetric :
  (∀ rect1 rect2, are_adjacent rect1 rect2 = are_adjacent rect2 rect1)
  ∧ (∀ a b : Room.t, is_adjacent a b = is_adjacent b a).
Proof.
  split; [apply are_adjacent_sym|]. intros a b. unfold is_adjacent.
  destruct (Room.x a), (Room.x b); try done.
  destruct (Room.get_rect a), (Room.get_rect b); try done.
  by rewrite are_adjacent_sym.
Qed.

(** X2: [Room.overlaps] gives the same outcome in both directions: the
    same answer, or [TypeError] on both sides. *)
Theorem overlaps_is_symmetric (a b : Room.t) : Room.overlaps a b = Room.overlaps b a.
Proof.
  unfold Room.overlaps.
  destruct (Room.x a) as [xa|], (Room.x b) as [xb|]; try done.
  rewrite (orb_comm (xb + Room.width b <=? xa)).
  destruct (_ || _); [done|].
  destruct (Room.y a) as [ya|], (Room.y b) as [yb|]; try done.
  by rewrite (orb_comm (yb + Room.height b <=? ya)).
Qed.

(** X3: two rooms that [is_adjacent] reports as adjacent do not overlap:
    sharing a wall excludes sharing area. *)
Theorem adjacent_rooms_do_not_overlap (a b : Room.t) :
  is_adjacent a b = Ok true → Room.overlaps a b = Ok false.
Proof.
  unfold is_adjacent, Room.get_rect, Room.overlaps.
  destruct (Room.x a) as [xa|], (Room.x b) as [xb|]; try done.
  destruct (Room.y a) as [ya|], (Room.y b) as [yb|]; try done.
  unfold are_adjacent. intros H. inversion H as [H']. clear H. revert H'. zbool.
  all: intros H'; try discriminate.
Qed.

Lemma adjacent_rooms_do_not_overlap_witness :
  Room.overlaps (placed_at 0 0 Scenario.hall (Room.init 1 3 4 "a"))
                (placed_at 3 1 Scenario.hall (Room.init 2 2 3 "b")) = Ok false.
Proof. apply adjacent_rooms_do_not_overlap. reflexivity. Defined.

(** X4: rotating a room twice gives the room back; one rotation keeps the
    area and the perimeter and flips the [rotated] flag. *)
Theorem rotate_is_an_involution (room : Room.t) :
  Room.rotate (Room.rotate room) = room
  ∧ Room.area (Room.rotate room) = Room.area room
  ∧ Room.perimeter (Room.rotate room) = Room.perimeter room
  ∧ Room.rotated (Room.rotate room) = negb (Room.rotated room).
Proof.
  split; [apply rotate_rotate|]. unfold Room.area, Room.perimeter. simpl.
  split_and!; [lia|lia|done].
Qed.

(** ** Positions proposed next to a placed room *)

Lemma side_positions_adjacent (ox oy ow oh w h : Z) (flag : bool) (p : Z * Z * bool) :
  0 < w → 0 < h → 0 < ow → 0 < oh →
  p ∈ side_positions ox oy ow oh w h flag →
  p.2 = flag ∧ are_adjacent (p.1.1, p.1.2, w, h) (ox, oy, ow, oh) = true.
Proof.
  intros Hw Hh How Hoh. unfold side_positions, range.
  rewrite !elem_of_app, !elem_of_cons, elem_of_nil.
  assert (Hflat : ∀ (f : Z → list (Z * Z * bool)) n,
            p ∈ flat_map f (seqZ 1 (n - 1)) → ∃ k, 1 ≤ k < n ∧ p ∈ f k).
  { intros f n Hp. apply list_elem_of_In, in_flat_map in Hp as (k & Hk & Hp).
    apply list_elem_of_In, elem_of_seqZ in Hk. apply list_elem_of_In in Hp.
    exists k. split; [lia|done]. }
  intros H.
  repeat match goal with
         | H : _ ∨ _ |- _ => destruct H as [H|H]
         | H : p ∈ flat_map _ _ |- _ =>
             apply Hflat in H as (k & Hk & H);
             rewrite !elem_of_cons, elem_of_nil in H
         | H : p = _ |- _ => subst p
         | H : False |- _ => destruct H
         end; (split; [reflexivity|]); unfold are_adjacent; simpl; zbool.
Qed.

Lemma get_adjacent_positions_Ok (self other : Room.t) (positions : list (Z * Z * bool)) :
  get_adjacent_positions self other = Ok positions →
  ∃ ox oy,
    Room.x other = Some ox ∧ Room.y other = Some oy
    ∧ positions
      = side_positions ox oy (Room.width other) (Room.height other)
          (Room.width self) (Room.height self) false
        ++ side_positions ox oy (Room.width other) (Room.height other)
             (Room.height self) (Room.width self) true.
Proof.
  unfold get_adjacent_positions.
  destruct (Room.x other) as [ox|]; [|done]. destruct (Room.y other) as [oy|]; [|done].
  intros H. exists ox, oy. split_and!; try done. by inversion H.
Qed.

(** X5: for rooms with integer coordinates and positive integer width and
    height, every position that [get_adjacent_positions] proposes really
    makes the room adjacent to [other]: the room set at that origin, with
    its own dimensions when the flag is false and the swapped ones when it
    is true, shares a wall segment of positive length with the rectangle
    of [other]. *)
Theorem adjacent_positions_touch_the_anchor (self other : Room.t)
    (positions : list (Z * Z * bool)) :
  0 < Room.width self → 0 < Room.height self →
  0 < Room.width other → 0 < Room.height other →
  get_adjacent_positions self other = Ok positions →
  ∃ other_rect,
    Room.get_rect other = Some other_rect
    ∧ ∀ (px py : Z) (flag : bool), (px, py, flag) ∈ positions →
        are_adjacent (px, py,
                      if flag then Room.height self else Room.width self,
                      if flag then Room.width self else Room.height self)
                     other_rect = true.
Proof.
  intros Hw Hh How Hoh H.
  apply get_adjacent_positions_Ok in H as (ox & oy & Hx & Hy & ->).
  unfold Room.get_rect. rewrite Hx, Hy. eexists. split; [done|].
  intros px py flag Hin. apply elem_of_app in Hin as [Hin|Hin];
    apply side_positions_adjacent in Hin as [Hf Ha]; simpl in *; try done;
    by subst flag.
Qed.

Lemma adjacent_positions_touch_the_anchor_witness :
  ∃ other_rect,
    Room.get_rect (placed_at 0 0 Scenario.hall (Room.init 1 3 4 "a")) = Some other_rect
    ∧ ∀ (px py : Z) (flag : bool),
        (px, py, flag) ∈ side_positions 0 0 3 4 2 3 false ++ side_positions 0 0 3 4 3 2 true →
        are_adjacent (px, py, if flag then 3 else 2, if flag then 2 else 3) other_rect = true.
Proof.
  apply (adjacent_positions_touch_the_anchor (Room.init 2 2 3 "b")
           (placed_at 0 0 Scenario.hall (Room.init 1 3 4 "a"))); reflexivity.
Defined.

(** * The sampling grid of a region *)

Lemma while_le_aligned (step : positive) (hi : Z) (n : nat) (lo v : Z) :
  v ∈ while_le n lo hi step → (Z.pos step | v - lo).
Proof.
  revert lo. induction n as [|n IH]; intros lo Hv; simpl in Hv.
  - by apply elem_of_nil in Hv.
  - destruct (Z.leb_spec lo hi); [|by apply elem_of_nil in Hv].
    apply elem_of_cons in Hv as [->|Hv].
    + rewrite Z.sub_diag. apply Z.divide_0_r.
    + apply IH in Hv. destruct Hv as [k Hk]. exists (k + 1). lia.
Qed.

Lemma while_le_complete (step : positive) (hi : Z) (n : nat) (lo v : Z) :
  lo ≤ v ≤ hi → (Z.pos step | v - lo) → (Z.to_nat (hi - lo + 1) ≤ n)%nat →
  v ∈ while_le n lo hi step.
Proof.
  revert lo. induction n as [|n IH]; intros lo Hv Hd Hn; simpl.
  - lia.
  - destruct (Z.leb_spec lo hi); [|lia].
    destruct (decide (v = lo)) as [->|Hne]; [by left|]. right.
    destruct Hd as [k Hk].
    assert (1 ≤ k) by nia.
    apply IH; [nia| exists (k - 1); lia | lia].
Qed.

Lemma while_le_gt (step : positive) (hi : Z) (n : nat) (lo v : Z) :
  v ∈ while_le n (lo + Z.pos step) hi step → lo < v.
Proof. intros H. apply while_le_bounds in H. lia. Qed.

Lemma while_le_NoDup (step : positive) (hi : Z) (n : nat) (lo : Z) :
  NoDup (while_le n lo hi step).
Proof.
  revert lo. induction n as [|n IH]; intros lo; simpl; [constructor|].
  destruct (lo <=? hi); [|constructor].
  constructor; [|apply IH]. intros H. apply while_le_gt in H. lia.
Qed.

Lemma steps_spec (lo hi : Z) (step : positive) (v : Z) :
  v ∈ steps lo hi step ↔ lo ≤ v ≤ hi ∧ (Z.pos step | v - lo).
Proof.
  unfold steps. split.
  - intros H. split; [by eapply while_le_bounds | by eapply while_le_aligned].
  - intros [Hb Hd]. by apply while_le_complete.
Qed.

Lemma grid_NoDup (ys : list Z) (step : positive) (hi : Z) (n : nat) (lo : Z) :
  NoDup ys →
  NoDup (flat_map (fun px => map (fun py => (px, py)) ys) (while_le n lo hi step)).
Proof.
  intros Hys. revert lo. induction n as [|n IH]; intros lo; simpl; [constructor|].
  destruct (lo <=? hi); [|constructor]. simpl.
  apply NoDup_app. split_and!.
  - apply NoDup_fmap_2; [|done]. intros a b [= ->]. done.
  - intros [qx qy] H1 H2. apply list_elem_of_fmap in H1 as (y & [= -> ->] & _).
    apply list_elem_of_In, in_flat_map in H2 as (x' & Hx' & H2).
    apply in_map_iff in H2 as (y' & [= -> ->] & _).
    apply list_elem_of_In, while_le_gt in Hx'. lia.
  - apply IH.
Qed.

(** X6: for a region and a room with integer coordinates and sizes and a
    positive integer step, [get_sample_positions] returns exactly the
    origins of the step grid anchored at the region's top-left corner at
    which the room lies inside the region, each of them once. *)
Theorem sample_positions_are_the_grid_origins_that_fit (reg : PlotRegion.t)
    (room : Room.t) (step : positive) :
  (∀ px py,
     (px, py) ∈ get_sample_positions reg room step ↔
       contains reg room px py = true
       ∧ (Z.pos step | px - PlotRegion.x1 reg)
       ∧ (Z.pos step | py - PlotRegion.y1 reg))
  ∧ NoDup (get_sample_positions reg room step).
Proof.
  split.
  - intros px py. unfold get_sample_positions.
    rewrite list_elem_of_In, in_flat_map. unfold contains.
    rewrite !andb_true_iff, !Z.leb_le. split.
    + intros (qx & Hqx & H). apply in_map_iff in H as (qy & [= -> ->] & Hqy).
      apply list_elem_of_In, steps_spec in Hqx, Hqy. destruct Hqx as [? ?], Hqy as [? ?]. split_and!; try done; lia.
    + intros ([[[H1 H2] H3] H4] & Hx & Hy). exists px. split.
      * apply list_elem_of_In, steps_spec. split; [lia|done].
      * apply in_map_iff. exists py. split; [done|].
        apply list_elem_of_In, steps_spec. split; [lia|done].
  - unfold get_sample_positions, steps. apply grid_NoDup, while_le_NoDup.
Qed.

(** * The fit score *)

Lemma Qdiv_Z_eq_1 (a b : Z) : 0 < b → (inject_Z a / inject_Z b == 1)%Q ↔ a = b.
Proof.
  intros Hb. destruct b as [|b|b]; try lia.
  unfold Qdiv, Qeq, Qmult, Qinv, inject_Z. simpl. lia.
Qed.

(** X7: for a room of positive integer width and height and a region
    whose integer coordinates lie far inside the float range,
    [_get_region_fit_score] does not raise; the score lies between 0 and
    1, is positive exactly when the room lies inside the region at that
    origin, and is 1 when the room fills the region. *)
Theorem region_fit_score_range (room : Room.t) (reg : PlotRegion.t) (px py : Z) :
  0 < Room.width room → 0 < Room.height room →
  moderate_region reg →
  ∃ v, _get_region_fit_score room reg px py = Ok v
       ∧ (0 <= v <= 1)%Q
       ∧ ((0 < v)%Q ↔ contains reg room px py = true)
       ∧ (px = PlotRegion.x1 reg ∧ py = PlotRegion.y1 reg
          ∧ px + Room.width room = PlotRegion.x2 reg
          ∧ py + Room.height room = PlotRegion.y2 reg → (v == 1)%Q).
Proof.
  intros Hw Hh _. unfold _get_region_fit_score.
  destruct (contains reg room px py) eqn:Hc; simpl.
  - unfold contains in Hc. rewrite !andb_true_iff, !Z.leb_le in Hc.
    destruct Hc as [[[H1 H2] H3] H4].
    set (total := px - PlotRegion.x1 reg + (PlotRegion.x2 reg - (px + Room.width room))
                  + (py - PlotRegion.y1 reg)
                  + (PlotRegion.y2 reg - (py + Room.height room))).
    assert (Ha : 0 < Room.area room) by (unfold Room.area; lia).
    assert (Ht : 0 ≤ total) by (unfold total; lia).
    destruct (Z.eqb_spec (Room.area room + total) 0) as [E|_]; [lia|].
    assert (Hd : (0 < inject_Z (Room.area room + total))%Q).
    { change 0%Q with (inject_Z 0). rewrite <- Zlt_Qlt. lia. }
    assert (Hpos : (0 < inject_Z (Room.area room) / inject_Z (Room.area room + total))%Q).
    { apply Qlt_shift_div_l; [done|]. rewrite Qmult_0_l.
      change 0%Q with (inject_Z 0). by rewrite <- Zlt_Qlt. }
    eexists. split; [done|]. split_and!.
    + by apply Qlt_le_weak.
    + apply Qle_shift_div_r; [done|]. rewrite Qmult_1_l, <- Zle_Qle. lia.
    + done.
    + intros Hfill. rewrite Qdiv_Z_eq_1 by lia. unfold total. lia.
  - exists 0%Q. split; [done|]. split; [split; [apply Qle_refl | discriminate]|]. split.
    + split; [intros H; by apply Qlt_irrefl in H | done].
    + intros (-> & -> & E1 & E2).
      unfold contains in Hc. rewrite !andb_false_iff, !Z.leb_gt in Hc. lia.
Qed.

Lemma region_fit_score_range_witness :
  ∃ v, _get_region_fit_score (Room.init 1 3 4 "a") Scenario.hall 0 0 = Ok v
       ∧ (0 <= v <= 1)%Q
       ∧ ((0 < v)%Q ↔ contains Scenario.hall (Room.init 1 3 4 "a") 0 0 = true)
       ∧ (0 = PlotRegion.x1 Scenario.hall ∧ 0 = PlotRegion.y1 Scenario.hall
          ∧ 0 + Room.width (Room.init 1 3 4 "a") = PlotRegion.x2 Scenario.hall
          ∧ 0 + Room.height (Room.init 1 3 4 "a") = PlotRegion.y2 Scenario.hall
          → (v == 1)%Q).
Proof.
  apply (region_fit_score_range (Room.init 1 3 4 "a") Scenario.hall 0 0);
    [reflexivity | reflexivity |].
  unfold moderate_region, moderate. simpl.
  repeat split; apply Z.leb_le; vm_compute; reflexivity.
Defined.

(** * The orders of [sort_rooms] and of the candidate list *)

Lemma StronglySorted_impl {A} (R1 R2 : A → A → Prop) (l : list A) :
  (∀ a b, R1 a b → R2 a b) → StronglySorted R1 l → StronglySorted R2 l.
Proof.
  intros HR. induction 1 as [|x l Hs IH Hall]; constructor; [done|].
  eapply Forall_impl; [exact Hall|]. intros b. apply HR.
Qed.

Section Sorting.
Context {K A : Type} (ltb : K → K → bool) (R : K → K → Prop).
Hypothesis ltb_true : ∀ a b, ltb a b = true → R a b.
Hypothesis ltb_false : ∀ a b, ltb a b = false → R b a.
Hypothesis R_trans : ∀ a b c, R a b → R b c → R a c.

Lemma insert_by_sorted (kx : K * A) (l : list (K * A)) :
  StronglySorted (fun x y => R x.1 y.1) l →
  StronglySorted (fun x y => R x.1 y.1) (insert_by ltb kx l).
Proof.
  induction 1 as [|ky l Hs IH Hall]; simpl.
  - repeat constructor.
  - destruct (ltb kx.1 ky.1) eqn:E.
    + constructor; [by constructor|]. constructor; [by apply ltb_true|].
      eapply Forall_impl; [exact Hall|]. intros z Hz. simpl in Hz.
      eapply R_trans; [by apply ltb_true|done].
    + constructor; [done|].
      eapply Permutation_Forall; [symmetry; apply insert_by_perm|].
      constructor; [by apply ltb_false|done].
Qed.

Lemma fold_insert_by_sorted (l acc : list (K * A)) :
  StronglySorted (fun x y => R x.1 y.1) acc →
  StronglySorted (fun x y => R x.1 y.1)
    (fold_left (fun acc kx => insert_by ltb kx acc) l acc).
Proof.
  revert acc. induction l as [|kx l IH]; intros acc Hs; simpl; [done|].
  by apply IH, insert_by_sorted.
Qed.

Lemma sorted_sorted (key : A → result K) (l l' : list A) :
  sorted ltb key l = Ok l' →
  StronglySorted (fun a b => ∀ ka kb, key a = Ok ka → key b = Ok kb → R ka kb) l'.
Proof.
  unfold sorted. intros H. apply rbind_Ok in H as (ks & Hks & H).
  inversion H; subst l'; clear H.
  assert (Hkeys : Forall (fun x => key x.2 = Ok x.1) ks).
  { clear -Hks. revert ks Hks. induction l as [|a l IH]; intros ks H; simpl in H.
    - inversion H. constructor.
    - apply rbind_Ok in H as ([k a'] & H1 & H2).
      apply rbind_Ok in H1 as (k' & Hk & Hka). inversion Hka; subst.
      apply rbind_Ok in H2 as (bs & H2 & H3). inversion H3; subst.
      constructor; [done|]. by apply IH. }
  unfold sort_keyed.
  pose proof (fold_insert_by_sorted ks [] (SSorted_nil _)) as Hs.
  assert (Hf : Forall (fun x => key x.2 = Ok x.1)
                 (fold_left (fun acc kx => insert_by ltb kx acc) ks [])).
  { eapply Permutation_Forall; [|exact Hkeys].
    assert (Hp : ∀ acc, fold_left (fun acc kx => insert_by ltb kx acc) ks acc ≡ₚ ks ++ acc).
    { clear. induction ks as [|kx ks IH]; intros acc; simpl; [done|].
      rewrite IH, insert_by_perm. by rewrite Permutation_middle. }
    rewrite (Hp []). by rewrite app_nil_r. }
  revert Hs Hf. generalize (fold_left (fun acc kx => insert_by ltb kx acc) ks []).
  intros r. induction 1 as [|x r Hs IH Hall]; intros Hf; simpl; [constructor|].
  apply Forall_cons in Hf as [Hx Hf]. constructor; [by apply IH|].
  rewrite Forall_forall in Hall, Hf. apply Forall_forall. intros b Hb.
  apply list_elem_of_fmap in Hb as (y & -> & Hy).
  intros ka kb Ha Hb. rewrite Hx in Ha. rewrite (Hf y Hy) in Hb.
  inversion Ha; inversion Hb; subst. by apply Hall.
Qed.
End Sorting.

Lemma sorted_Z {A} (f : A → Z) (l l' : list A) :
  sorted Z.ltb (fun a => Ok (f a)) l = Ok l' →
  StronglySorted (fun a b => f a ≤ f b) l'.
Proof.
  intros H. eapply StronglySorted_impl;
    [|eapply (sorted_sorted Z.ltb Z.le); [| | |exact H]].
  - intros a b Hab. by apply Hab.
  - intros a b Hab. apply Z.ltb_lt in Hab. lia.
  - intros a b Hab. apply Z.ltb_ge in Hab. lia.
  - intros a b c. lia.
Qed.

Lemma sorted_Q {A} (key : A → result Q) (l l' : list A) :
  sorted Qltb key l = Ok l' →
  StronglySorted (fun a b => ∀ ka kb, key a = Ok ka → key b = Ok kb → (ka <= kb)%Q) l'.
Proof.
  apply (sorted_sorted Qltb Qle).
  - intros a b Hab. apply Qltb_lt in Hab. by apply Qlt_le_weak.
  - intros a b Hab. unfold Qltb in Hab. apply negb_false_iff in Hab.
    by apply Qle_bool_iff.
  - intros a b c. apply Qle_trans.
Qed.

Lemma sorted_lex {A} (f : A → Z * Z) (l l' : list A) :
  sorted lex_ltb (fun a => Ok (f a)) l = Ok l' →
  StronglySorted (fun a b => (f a).1 < (f b).1 ∨ ((f a).1 = (f b).1 ∧ (f a).2 ≤ (f b).2)) l'.
Proof.
  intros H. eapply StronglySorted_impl;
    [|eapply (sorted_sorted lex_ltb
                (fun a b : Z * Z => a.1 < b.1 ∨ (a.1 = b.1 ∧ a.2 ≤ b.2)));
      [| | |exact H]].
  - intros a b Hab. by apply Hab.
  - intros a b. unfold lex_ltb. rewrite orb_true_iff, andb_true_iff.
    rewrite !Z.ltb_lt, Z.eqb_eq. lia.
  - intros a b. unfold lex_ltb. rewrite orb_false_iff, andb_false_iff.
    rewrite !Z.ltb_ge, Z.eqb_neq. lia.
  - intros a b c. lia.
Qed.

(** X8: when [sort_rooms] returns, its result is a permutation of
    [self.rooms]; under each of the six methods whose key is an integer
    (area, number of declared neighbours, width, height, perimeter, or
    neighbours then area) it is ordered by non-increasing key, and under a
    method name that is none of the seven known ones it is [self.rooms]
    unchanged. *)
Theorem sort_rooms_orders_the_rooms (cfg : Config) (st : State) (l : list ref) :
  sort_rooms cfg st = Ok l →
  l ≡ₚ rooms st
  ∧ (sort_method cfg = "area"%string →
     StronglySorted (fun a b => Room.area (heap st b) ≤ Room.area (heap st a)) l)
  ∧ (sort_method cfg = "adjacency"%string →
     StronglySorted (fun a b => degree cfg (heap st b) ≤ degree cfg (heap st a)) l)
  ∧ (sort_method cfg = "width"%string →
     StronglySorted (fun a b => Room.width (heap st b) ≤ Room.width (heap st a)) l)
  ∧ (sort_method cfg = "height"%string →
     StronglySorted (fun a b => Room.height (heap st b) ≤ Room.height (heap st a)) l)
  ∧ (sort_method cfg = "perimeter"%string →
     StronglySorted (fun a b => Room.perimeter (heap st b) ≤ Room.perimeter (heap st a)) l)
  ∧ (sort_method cfg = "degree_area"%string →
     StronglySorted
       (fun a b => degree cfg (heap st b) < degree cfg (heap st a)
                   ∨ (degree cfg (heap st b) = degree cfg (heap st a)
                      ∧ Room.area (heap st b) ≤ Room.area (heap st a))) l)
  ∧ (sort_method cfg ∉ ["area"; "adjacency"; "width"; "height"; "perimeter"; "hybrid";
                        "degree_area"]%string → l = rooms st).
Proof.
  intros H. split; [by eapply sort_rooms_perm|].
  unfold sort_rooms in H.
  split_and!; intros Hm.
  - rewrite Hm in H. simpl in H. apply sorted_Z in H.
    eapply StronglySorted_impl; [|exact H]. intros a b. simpl. lia.
  - rewrite Hm in H. simpl in H. apply sorted_Z in H.
    eapply StronglySorted_impl; [|exact H]. intros a b. simpl. lia.
  - rewrite Hm in H. simpl in H. apply sorted_Z in H.
    eapply StronglySorted_impl; [|exact H]. intros a b. simpl. lia.
  - rewrite Hm in H. simpl in H. apply sorted_Z in H.
    eapply StronglySorted_impl; [|exact H]. intros a b. simpl. lia.
  - rewrite Hm in H. simpl in H. apply sorted_Z in H.
    eapply StronglySorted_impl; [|exact H]. intros a b. unfold Room.perimeter. simpl. lia.
  - rewrite Hm in H. simpl in H. apply sorted_lex in H.
    eapply StronglySorted_impl; [|exact H]. intros a b. simpl. lia.
  - repeat match type of H with
           | (if String.eqb ?a ?b then _ else _) = _ =>
               let E := fresh "E" in
               revert H; destruct (String.eqb_spec a b) as [E|E]; intros H;
               [exfalso; apply Hm; rewrite E; repeat constructor|]
           end.
    by inversion H.
Qed.

Lemma sort_rooms_orders_the_rooms_witness :
  ∃ l, sort_rooms Scenario.corridor_cfg Scenario.corridor_state = Ok l
       ∧ l ≡ₚ rooms Scenario.corridor_state.
Proof.
  eexists. split; [reflexivity|].
  apply (sort_rooms_orders_the_rooms Scenario.corridor_cfg Scenario.corridor_state).
  reflexivity.
Defined.

(** * What the candidate generator returns *)

Lemma sorted_pure {K A} (ltb : K → K → bool) (f : A → K) (l : list A) :
  sorted ltb (fun a => Ok (f a)) l = Ok (sort_keyed ltb (map (fun a => (f a, a)) l)).
Proof.
  unfold sorted.
  assert (H : rmap (fun a => Ok (f a, a)) l = Ok (map (fun a => (f a, a)) l)).
  { induction l as [|a l IH]; simpl; [done|]. by rewrite IH. }
  change (rmap (fun a => do k <- Ok (f a); Ok (k, a))%res l)
    with (rmap (fun a => Ok (f a, a)) l).
  by rewrite H.
Qed.

Lemma sort_candidates_sorted (cands : list candidate) :
  StronglySorted (fun c1 c2 => (cand_score c2 <= cand_score c1)%Q) (sort_candidates cands).
Proof.
  unfold sort_candidates.
  pose proof (sorted_pure Qltb (fun c : candidate => (- cand_score c)%Q) cands) as H.
  apply sorted_Q in H. eapply StronglySorted_impl; [|exact H].
  intros a b Hab. specialize (Hab _ _ eq_refl eq_refl).
  apply Qopp_le_compat in Hab. by rewrite !Qopp_involutive in Hab.
Qed.

(** X9: the candidates that [_generate_candidate_positions] returns come
    in order of non-increasing score. *)
Theorem candidates_come_best_first (cfg : Config) (room : ref) (st st' : State)
    (cands : list candidate) :
  _generate_candidate_positions cfg room st = Ok (cands, st') →
  StronglySorted (fun c1 c2 => (cand_score c2 <= cand_score c1)%Q) cands.
Proof.
  unfold _generate_candidate_positions. intros H.
  mstep H as st0 s0 Hs0. mstep H as c1 s1 Hc1. apply ret_Ok in H as [-> ->].
  apply sort_candidates_sorted.
Qed.

Lemma candidates_come_best_first_witness :
  match _generate_candidate_positions Scenario.pair_cfg 0%nat Scenario.pair_state with
  | Ok (cands, _) =>
      StronglySorted (fun c1 c2 => (cand_score c2 <= cand_score c1)%Q) cands
  | Raise _ => False
  end.
Proof.
  destruct (_generate_candidate_positions Scenario.pair_cfg 0%nat Scenario.pair_state)
    as [[cands st']|e] eqn:E.
  - exact (candidates_come_best_first _ _ _ _ _ E).
  - vm_compute in E. discriminate.
Defined.

(** X10: when the room is unrotated whenever nothing is placed yet, every
    candidate that [_generate_candidate_positions] returns lies inside the
    region it names, with the room's dimensions in the orientation the
    candidate's flag asks for; the call changes no other room object and
    neither room list, and keeps the id and the area of the room. *)
Theorem generated_candidates_fit_their_region (cfg : Config) (room : ref) (st st' : State)
    (cands : list candidate) :
  _generate_candidate_positions cfg room st = Ok (cands, st') →
  (placed_rooms st = [] → Room.rotated (heap st room) = false) →
  (∀ pos reg flag score, (pos, reg, flag, score) ∈ cands →
     fits reg (dims_at (heap st room) flag) pos = true)
  ∧ (∀ r, r ≠ room → heap st' r = heap st r)
  ∧ rooms st' = rooms st ∧ placed_rooms st' = placed_rooms st
  ∧ Room.id (heap st' room) = Room.id (heap st room)
  ∧ Room.area (heap st' room) = Room.area (heap st room).
Proof.
  intros H Hrot. apply _generate_candidate_positions_spec in H as [Ht Hv]; [|done].
  destruct Ht as (T1 & T2 & T3 & _ & T5 & T6). split_and!; try done.
  - intros pos reg flag score Hin. rewrite Forall_forall in Hv. by apply Hv in Hin.
  - specialize (T6 (Room.rotated (heap st' room))). rewrite dims_at_own in T6.
    unfold dims_at in T6. unfold Room.area.
    destruct (eqb _ _); inversion T6; lia.
Qed.

Lemma generated_candidates_fit_their_region_witness :
  match _generate_candidate_positions Scenario.corridor_cfg 1%nat
          Scenario.corridor_mid_state with
  | Ok (cands, st') =>
      ∀ pos reg flag score, (pos, reg, flag, score) ∈ cands →
        fits reg (dims_at (heap Scenario.corridor_mid_state 1%nat) flag) pos = true
  | Raise _ => False
  end.
Proof.
  destruct (_generate_candidate_positions Scenario.corridor_cfg 1%nat
              Scenario.corridor_mid_state) as [[cands st']|e] eqn:E.
  - apply (generated_candidates_fit_their_region _ _ _ _ _ E). intros Hp. discriminate.
  - vm_compute in E. discriminate.
Defined.

(** * The hybrid order over rooms without area *)

Lemma fold_max_zero (l : list Z) (a : Z) :
  a ≤ 0 → Forall (fun x => x ≤ 0) l → (a = 0 ∨ 0 ∈ l) → fold_left Z.max l a = 0.
Proof.
  revert a. induction l as [|x l IH]; intros a Ha Hl Hz; simpl.
  - destruct Hz as [?|Hz]; [done|]. by apply elem_of_nil in Hz.
  - apply Forall_cons in Hl as [Hx Hl]. apply IH; [lia|done|].
    destruct Hz as [->|Hz]; [left; lia|].
    apply elem_of_cons in Hz as [<-|Hz]; [left; lia|by right].
Qed.

Lemma clear_room_area (room : Room.t) : Room.area (clear_room room) = Room.area room.
Proof. done. Qed.

Lemma sort_rooms_hybrid (cfg : Config) (st : State) :
  sort_method cfg = "hybrid"%string →
  sort_rooms cfg st = sorted Qltb (hybrid_key cfg st) (rooms st).
Proof. intros Hm. unfold sort_rooms. by rewrite Hm. Qed.

(** X11: with the [hybrid] method, a non-empty room list in which no room
    has a positive area and one has area zero (all areas integers far
    inside the float range) makes [place_rooms] raise
    [ZeroDivisionError]: the largest area, by which every key divides, is
    zero. *)
Theorem hybrid_order_divides_by_zero (clock : nat → Q) (cfg : Config) (st : State) :
  sort_method cfg = "hybrid"%string →
  rooms st ≠ [] →
  (∀ r, r ∈ rooms st →
        Room.area (heap st r) ≤ 0 ∧ moderate (Room.area (heap st r))) →
  (∃ r, r ∈ rooms st ∧ Room.area (heap st r) = 0) →
  place_rooms clock cfg st = Raise ZeroDivisionError.
Proof.
  intros Hm Hne Hall (r0 & Hr0 & Hz).
  destruct (clear_placements_spec st) as (Er & Ep & Et & Eh).
  assert (Hmax : py_max (map (fun r' => Room.area (heap (clear_placements st) r'))
                             (rooms (clear_placements st))) = Ok 0).
  { rewrite Er.
    assert (Hmap : map (fun r' => Room.area (heap (clear_placements st) r')) (rooms st)
                   = map (fun r' => Room.area (heap st r')) (rooms st)).
    { apply map_ext_in. intros r Hr. apply list_elem_of_In in Hr.
      rewrite Eh, decide_True by done. apply clear_room_area. }
    rewrite Hmap. clear Hmap.
    assert (Hle : Forall (fun x => x ≤ 0) (map (fun r' => Room.area (heap st r')) (rooms st))).
    { apply Forall_forall. intros x Hx. apply list_elem_of_fmap in Hx as (r & -> & Hr).
      by apply Hall. }
    assert (Hin : 0 ∈ map (fun r' => Room.area (heap st r')) (rooms st)).
    { apply list_elem_of_fmap. by exists r0. }
    destruct (map _ (rooms st)) as [|a l]; [by apply elem_of_nil in Hin|].
    simpl. f_equal. apply Forall_cons in Hle as [Ha Hl].
    apply fold_max_zero; [done..|]. apply elem_of_cons in Hin as [<-|?]; auto. }
  assert (Hs : sort_rooms cfg (clear_placements st) = Raise ZeroDivisionError).
  { rewrite sort_rooms_hybrid by done. unfold sorted.
    destruct (rooms (clear_placements st)) as [|a l] eqn:El; [by rewrite Er in El|].
    cbn [rmap]. unfold hybrid_key at 1. by rewrite El, Hmax. }
  unfold place_rooms. unfold bind at 1. unfold modify at 1.
  unfold bind at 1. unfold get_state at 1. unfold bind at 1. by rewrite Hs.
Qed.

Lemma hybrid_order_divides_by_zero_witness :
  place_rooms steady_clock (init_config [Scenario.hall] ∅)
    (init_state (store [Room.init 1 0 3 "a"]) [0%nat])
  = Raise ZeroDivisionError.
Proof.
  apply hybrid_order_divides_by_zero.
  - reflexivity.
  - discriminate.
  - intros r Hr. apply list_elem_of_singleton in Hr as ->.
    split; [vm_compute; discriminate|].
    unfold moderate. apply Z.leb_le. vm_compute. reflexivity.
  - exists 0%nat. split; [by left|reflexivity].
Defined.

(** * The adjacency graph of the constructor *)

Lemma graph_row_fold (i : Z) (neighbors : list Z) (g : gmap Z (list Z)) :
  let g' := fold_left (fun g n => <[i := default [] (g !! i) ++ [n]]> g) neighbors g in
  default [] (g' !! i) = default [] (g !! i) ++ neighbors
  ∧ ∀ j, j ≠ i → g' !! j = g !! j.
Proof.
  revert g. induction neighbors as [|n l IH]; intros g; simpl.
  - by rewrite app_nil_r.
  - destruct (IH (<[i := default [] (g !! i) ++ [n]]> g)) as [H1 H2]. split.
    + rewrite H1. rewrite lookup_insert_eq. simpl. by rewrite <- app_assoc.
    + intros j Hj. rewrite H2 by done. by rewrite lookup_insert_ne.
Qed.

(** X12: the adjacency graph that the constructor builds answers every
    lookup exactly as the adjacency dictionary it was built from, a missing
    key reading as the empty list on both sides. *)
Theorem adjacency_graph_answers_as_the_dictionary (regions : list PlotRegion.t)
    (adjacency : gmap Z (list Z)) (i : Z) :
  graph_get (init_config regions adjacency) i = adjacency_get (init_config regions adjacency) i.
Proof.
  unfold graph_get, adjacency_get, init_config. simpl. unfold _build_adjacency_graph.
  revert i. apply (map_fold_weak_ind
    (fun (r : gmap Z (list Z)) (m : gmap Z (list Z)) =>
       ∀ i, default [] (r !! i) = default [] (m !! i))).
  - intros i. by rewrite !lookup_empty.
  - intros k x m r Hk IH i.
    destruct (graph_row_fold k x r) as [H1 H2].
    destruct (decide (i = k)) as [->|Hne].
    + rewrite H1, IH, Hk, lookup_insert_eq. done.
    + rewrite H2 by done. rewrite lookup_insert_ne by done. apply IH.
Qed.

(** * What a run keeps *)

Ltac shape := intros []; unfold same_shape; simpl; auto.

Section Kept.
Variable R : State → State → Prop.
Variable touch : ref → Prop.
Hypothesis R_refl : ∀ s, R s s.
Hypothesis R_trans : ∀ s1 s2 s3, R s1 s2 → R s2 s3 → R s1 s3.
Hypothesis R_upd :
  ∀ r f s, touch r → (∀ room, same_shape room (f room)) → R s (upd r f s).
Hypothesis R_placed : ∀ l s, R s (set_placed_rooms l s).
Hypothesis R_rooms : ∀ l s, l ≡ₚ rooms s → R s (set_rooms l s).
Hypothesis R_tick : ∀ s, R s (mkState (heap s) (rooms s) (placed_rooms s) (S (ticks s))).

Lemma keeps_ret {A} (a : A) : keeps R (ret a).
Proof. intros s a' s' H. apply ret_Ok in H as [_ ->]. apply R_refl. Qed.

Lemma keeps_bind {A B} (m : M A) (f : A → M B) :
  keeps R m → (∀ a, keeps R (f a)) → keeps R (bind m f).
Proof.
  intros Hm Hf s b s' H. apply bind_Ok in H as (a & s1 & H1 & H2).
  eapply R_trans; [by eapply Hm|by eapply Hf].
Qed.

Lemma keeps_lift {A} (r : result A) : keeps R (lift r).
Proof. intros s a s' H. apply lift_Ok in H as [_ ->]. apply R_refl. Qed.

Lemma keeps_get_state : keeps R get_state.
Proof. intros s a s' H. apply get_state_Ok in H as [_ ->]. apply R_refl. Qed.

Lemma keeps_modify (f : State → State) : (∀ s, R s (f s)) → keeps R (modify f).
Proof. intros Hf s a s' H. apply modify_Ok in H as ->. apply Hf. Qed.

Lemma keeps_upd (r : ref) (f : Room.t → Room.t) :
  touch r → (∀ room, same_shape room (f room)) → keeps R (modify (upd r f)).
Proof. intros Hr Hf. apply keeps_modify. intros s. by apply R_upd. Qed.

Lemma keeps_mfold {A B} (f : B → A → M B) (l : list A) (b : B) :
  (∀ b a, a ∈ l → keeps R (f b a)) → keeps R (mfold f l b).
Proof.
  revert b. induction l as [|a l IH]; intros b Hf; simpl.
  - apply keeps_ret.
  - apply keeps_bind; [apply Hf; by left|]. intros b'. apply IH.
    intros b0 a0 Hin. apply Hf. by right.
Qed.

Lemma keeps_time_time (clock : nat → Q) : keeps R (time_time clock).
Proof. intros s a s' H. unfold time_time in H. inversion H; subst. apply R_tick. Qed.

Lemma keeps_rotate_if_differs (flag : bool) (room : ref) :
  touch room → keeps R (rotate_if_differs flag room).
Proof.
  intros Hr s a s' H. apply rotate_if_differs_Ok in H as ->.
  destruct (negb _); [|apply R_refl]. apply R_upd; [done|shape].
Qed.

Ltac keep1 :=
  lazymatch goal with
  | |- keeps _ (ret _) => apply keeps_ret
  | |- keeps _ (lift _) => apply keeps_lift
  | |- keeps _ get_state => apply keeps_get_state
  | |- keeps _ (time_time _) => apply keeps_time_time
  | |- keeps _ (rotate_if_differs _ _) => apply keeps_rotate_if_differs; assumption
  | |- keeps _ (modify (upd _ _)) => apply keeps_upd; [assumption | shape]
  | |- keeps _ (modify _) => apply keeps_modify; intros ?; apply R_placed
  | |- keeps _ (bind _ _) => apply keeps_bind; [|intros ?]
  | |- keeps _ (mfold _ _ _) => apply keeps_mfold; intros ? ? ?
  | |- keeps _ (if ?b then _ else _) => destruct b
  end.

Ltac keep := repeat keep1.

Variable clock : nat → Q.
Variable cfg : Config.

Lemma keeps__get_adjacency_score (room : ref) (position : Z * Z) (orientation : bool) :
  touch room → keeps R (_get_adjacency_score cfg room position orientation).
Proof. intros Hr. unfold _get_adjacency_score. keep. Qed.

Lemma keeps_grid_region (room : ref) (cands : list candidate) (reg : PlotRegion.t) :
  touch room → keeps R (grid_region cfg room cands reg).
Proof. intros Hr. unfold grid_region. keep. Qed.

Lemma keeps_adjacent_region (room : ref) (pos : Z * Z) (flag : bool)
    (cands : list candidate) (reg : PlotRegion.t) :
  touch room → keeps R (adjacent_region cfg room pos flag cands reg).
Proof.
  intros Hr. unfold adjacent_region. keep. by apply keeps__get_adjacency_score.
Qed.

Lemma keeps_adjacent_position (room : ref) (cands : list candidate) (p : Z * Z * bool) :
  touch room → keeps R (adjacent_position cfg room cands p).
Proof. intros Hr. unfold adjacent_position. keep. by apply keeps_adjacent_region. Qed.

Lemma keeps_adjacent_anchor (room : ref) (cands : list candidate) (anchor : ref) :
  touch room → keeps R (adjacent_anchor cfg room cands anchor).
Proof. intros Hr. unfold adjacent_anchor. keep. by apply keeps_adjacent_position. Qed.

Lemma keeps__generate_candidate_positions (room : ref) :
  touch room → keeps R (_generate_candidate_positions cfg room).
Proof.
  intros Hr. unfold _generate_candidate_positions. keep.
  - by apply keeps_grid_region.
  - by apply keeps_adjacent_anchor.
Qed.

Lemma keeps_timed_out (ts : option Q) : keeps R (timed_out clock cfg ts).
Proof. unfold timed_out. destruct ts as [t0|]; keep. Qed.

Lemma keeps_try_candidates (next : M bool) (c : ref) (cands : list candidate) :
  keeps R next → touch c → keeps R (try_candidates next c cands).
Proof.
  intros Hn Hc. induction cands as [|[[[pos reg] flag] sc] cands IH]; simpl; keep; done.
Qed.

Lemma keeps_abandon_room (c : ref) : touch c → keeps R (abandon_room c c).
Proof. intros Hc. unfold abandon_room. keep. Qed.

Lemma keeps_backtrack (ts : option Q) (todo : list ref) :
  (∀ r, r ∈ todo → touch r) → keeps R (backtrack clock cfg todo ts).
Proof.
  induction todo as [|c rest IH]; intros Ht; simpl.
  - keep. apply keeps_timed_out.
  - assert (Hc : touch c) by (apply Ht; by left).
    assert (Hrest : keeps R (backtrack clock cfg rest ts)).
    { apply IH. intros r Hr. apply Ht. by right. }
    keep.
    + apply keeps_timed_out.
    + by apply keeps__generate_candidate_positions.
    + by apply keeps_try_candidates.
    + by apply keeps_abandon_room.
Qed.

Lemma keeps_greedy_candidate (room : ref) (b : best) (c : candidate) :
  touch room → keeps R (greedy_candidate cfg room b c).
Proof.
  intros Hr. destruct c as [[[pos reg] flag] sc], b as [[[bs bp] br] bg].
  unfold greedy_candidate. keep. by apply keeps__get_adjacency_score.
Qed.

Lemma keeps_greedy_room (room : ref) : touch room → keeps R (greedy_room cfg room).
Proof.
  intros Hr. unfold greedy_room. apply keeps_bind.
  { by apply keeps__generate_candidate_positions. }
  intros cands. apply keeps_bind.
  { apply keeps_mfold. intros ? ? _. by apply keeps_greedy_candidate. }
  intros [[[bs bp] br] bg]. destruct bp as [pos|]; keep.
Qed.

Lemma keeps__place_rooms_greedy (l : list ref) :
  (∀ r, r ∈ l → touch r) → keeps R (_place_rooms_greedy cfg l).
Proof.
  intros Hl. unfold _place_rooms_greedy. keep. apply keeps_greedy_room. by apply Hl.
Qed.

Lemma keeps_clear_placements (s : State) :
  (∀ r, r ∈ rooms s → touch r) → R s (clear_placements s).
Proof.
  intros Hl. unfold clear_placements.
  eapply R_trans; [|apply R_placed].
  assert (Hfold : ∀ l s0, (∀ r, r ∈ l → touch r) →
            R s0 (fold_left (fun s1 room => upd room clear_room s1) l s0)).
  { induction l as [|a l IH]; intros s0 Hin; simpl; [apply R_refl|].
    eapply R_trans; [|apply IH].
    - apply R_upd; [apply Hin; by left | shape].
    - intros r Hr. apply Hin. by right. }
  by apply Hfold.
Qed.

Lemma kept_by_place_rooms (s s' : State) (n : nat) :
  (∀ r, r ∈ rooms s → touch r) →
  place_rooms clock cfg s = Ok (n, s') → R s s'.
Proof.
  intros Hl H. unfold place_rooms in H.
  apply bind_Ok in H as (u0 & s0 & H0 & H). apply modify_Ok in H0. subst s0.
  apply bind_Ok in H as (st1 & s1 & H1 & H). apply get_state_Ok in H1 as [-> ->].
  apply bind_Ok in H as (sorted_rooms & s2 & Hsort & H). apply lift_Ok in Hsort as [Hsort ->].
  apply bind_Ok in H as (u3 & s3 & H3 & H). apply modify_Ok in H3. subst s3.
  apply bind_Ok in H as (t0 & s4 & Ht & H).
  apply bind_Ok in H as (ok & s5 & Hbt & H).
  apply sort_rooms_perm in Hsort.
  destruct (clear_placements_spec s) as (Er & _). rewrite Er in Hsort.
  assert (Hsorted : ∀ r, r ∈ sorted_rooms → touch r).
  { intros r Hr. apply Hl. by rewrite <- Hsort. }
  assert (R0 : R s (clear_placements s)) by (by apply keeps_clear_placements).
  assert (R3 : R (clear_placements s) (set_rooms sorted_rooms (clear_placements s)))
    by (apply R_rooms; by rewrite Er).
  assert (R4 : R (set_rooms sorted_rooms (clear_placements s)) s4)
    by (by eapply keeps_time_time).
  assert (Hr4 : rooms s4 = sorted_rooms).
  { unfold time_time in Ht. by inversion Ht. }
  assert (R5 : R s4 s5).
  { unfold _place_room_backtracking in Hbt. eapply keeps_backtrack; [|exact Hbt].
    rewrite Hr4. simpl. done. }
  assert (Hr5 : rooms s5 = sorted_rooms).
  { unfold _place_room_backtracking in Hbt. apply backtrack_rooms in Hbt. congruence. }
  assert (R05 : R s s5) by eauto.
  destruct ok.
  - apply bind_Ok in H as (st6 & s6 & H6 & H). apply get_state_Ok in H6 as [-> ->].
    apply ret_Ok in H as [_ ->]. done.
  - apply bind_Ok in H as (u6 & s6 & H6 & H). apply modify_Ok in H6. subst s6.
    eapply R_trans; [exact R05|]. eapply R_trans.
    + apply keeps_clear_placements. by rewrite Hr5.
    + eapply keeps__place_rooms_greedy; [|exact H]. done.
Qed.
End Kept.

(** X13: a run of [place_rooms] that returns keeps the id and the name of
    every room object, and keeps its width and height up to a swap; so
    areas and perimeters are kept. *)
Theorem place_rooms_keeps_room_shapes (clock : nat → Q) (cfg : Config) (st st' : State)
    (n : nat) :
  place_rooms clock cfg st = Ok (n, st') →
  ∀ r, Room.id (heap st' r) = Room.id (heap st r)
       ∧ Room.name (heap st' r) = Room.name (heap st r)
       ∧ ((Room.width (heap st' r), Room.height (heap st' r))
            = (Room.width (heap st r), Room.height (heap st r))
          ∨ (Room.width (heap st' r), Room.height (heap st' r))
            = (Room.height (heap st r), Room.width (heap st r)))
       ∧ Room.area (heap st' r) = Room.area (heap st r)
       ∧ Room.perimeter (heap st' r) = Room.perimeter (heap st r).
Proof.
  intros H.
  assert (Hk : shape_kept st st').
  { eapply (kept_by_place_rooms shape_kept (fun _ => True)); [..|exact H]; try done.
    - intros s r. unfold same_shape. auto.
    - intros s1 s2 s3 H12 H23 r. destruct (H12 r) as (A1 & A2 & A3).
      destruct (H23 r) as (B1 & B2 & B3). unfold same_shape.
      split; [congruence|]. split; [congruence|].
      destruct A3 as [A3|A3], B3 as [B3|B3]; inversion A3; inversion B3;
        (left; congruence) || (right; congruence).
    - intros r f s _ Hf r'. unfold upd. simpl.
      destruct (decide (r' = r)) as [->|]; [apply Hf|]. unfold same_shape. auto.
    - intros l s r. unfold same_shape. auto.
    - intros l s _ r. unfold same_shape. auto.
    - intros s r. unfold same_shape. auto. }
  intros r. destruct (Hk r) as (K1 & K2 & K3). split_and!; try done.
  - unfold Room.area. destruct K3 as [K3|K3]; inversion K3; lia.
  - unfold Room.perimeter. destruct K3 as [K3|K3]; inversion K3; lia.
Qed.

Lemma place_rooms_keeps_room_shapes_witness :
  match place_rooms steady_clock Scenario.corridor_cfg Scenario.corridor_state with
  | Ok (_, st') =>
      ∀ r, Room.area (heap st' r) = Room.area (heap Scenario.corridor_state r)
  | Raise _ => False
  end.
Proof.
  destruct (place_rooms steady_clock Scenario.corridor_cfg Scenario.corridor_state)
    as [[n st']|e] eqn:E.
  - intros r. by apply (place_rooms_keeps_room_shapes _ _ _ _ _ E).
  - vm_compute in E. discriminate.
Defined.

(** X14: a run of [place_rooms] that returns changes no room object
    outside [self.rooms], and leaves in [self.rooms] a permutation of the
    list it started with. *)
Theorem place_rooms_touches_only_its_rooms (clock : nat → Q) (cfg : Config)
    (st st' : State) (n : nat) :
  place_rooms clock cfg st = Ok (n, st') →
  (∀ r, r ∉ rooms st → heap st' r = heap st r) ∧ rooms st' ≡ₚ rooms st.
Proof.
  intros H. split.
  - eapply (kept_by_place_rooms (only_touches (fun r => r ∈ rooms st))
              (fun r => r ∈ rooms st)); [..|exact H]; try done.
    + intros s1 s2 s3 H12 H23 r Hr. rewrite H23, H12; done.
    + intros r f s Hr _ r' Hr'. unfold upd. simpl.
      destruct (decide (r' = r)) as [->|]; done.
  - eapply (kept_by_place_rooms (fun s s' => rooms s' ≡ₚ rooms s) (fun _ => True));
      [..|exact H]; try done.
    intros s1 s2 s3 H12 H23. by rewrite H23.
Qed.

Lemma place_rooms_touches_only_its_rooms_witness :
  match place_rooms steady_clock Scenario.corridor_cfg Scenario.corridor_state with
  | Ok (_, st') =>
      (∀ r, r ∉ rooms Scenario.corridor_state → heap st' r = heap Scenario.corridor_state r)
      ∧ rooms st' ≡ₚ rooms Scenario.corridor_state
  | Raise _ => False
  end.
Proof.
  destruct (place_rooms steady_clock Scenario.corridor_cfg Scenario.corridor_state)
    as [[n st']|e] eqn:E.
  - exact (place_rooms_touches_only_its_rooms _ _ _ _ _ E).
  - vm_compute in E. discriminate.
Defined.

(** * The search as a whole *)

(** X15: [_place_room_backtracking], called at [room_idx] on a state that
    satisfies the placement invariant, with the placed rooms and the rooms
    from [room_idx] on all distinct (and these unrotated when nothing is
    placed yet), is all or nothing.  If it returns [True], the rooms from
    [room_idx] on have been appended to the placed list, in order, and the
    invariant holds; if it returns [False], the placed list is what it was.
    Either way [self.rooms] is unchanged, and so is every room object
    outside the rooms from [room_idx] on. *)
Theorem backtracking_is_all_or_nothing (clock : nat → Q) (cfg : Config) (room_idx : nat)
    (ts : option Q) (st st' : State) (b : bool) :
  _place_room_backtracking clock cfg room_idx ts st = Ok (b, st') →
  placement_invariant (heap st) (placed_rooms st) →
  NoDup (placed_rooms st ++ drop room_idx (rooms st)) →
  (placed_rooms st = [] →
   ∀ r, r ∈ drop room_idx (rooms st) → Room.rotated (heap st r) = false) →
  rooms st' = rooms st
  ∧ (∀ r, r ∉ drop room_idx (rooms st) → heap st' r = heap st r)
  ∧ (b = true →
     placed_rooms st' = placed_rooms st ++ drop room_idx (rooms st)
     ∧ placement_invariant (heap st') (placed_rooms st'))
  ∧ (b = false → placed_rooms st' = placed_rooms st).
Proof.
  unfold _place_room_backtracking. intros H Hinv Hnd Hrot.
  pose proof (backtrack_rooms _ _ _ _ _ _ _ H) as Hrooms.
  apply backtrack_spec in H as (B1 & B2 & B3); done.
Qed.

Lemma backtracking_is_all_or_nothing_witness :
  match _place_room_backtracking steady_clock Scenario.pair_cfg 0 None Scenario.pair_state with
  | Ok (b, st') =>
      b = true → placed_rooms st' = [0; 1]%nat
                 ∧ placement_invariant (heap st') (placed_rooms st')
  | Raise _ => False
  end.
Proof.
  assert (Hnd : NoDup (placed_rooms Scenario.pair_state
                       ++ drop 0 (rooms Scenario.pair_state))).
  { simpl. apply NoDup_cons. split; [|apply NoDup_singleton].
    intros H. apply list_elem_of_singleton in H. discriminate. }
  assert (Hrot : placed_rooms Scenario.pair_state = [] →
            ∀ r, r ∈ drop 0 (rooms Scenario.pair_state) →
                 Room.rotated (heap Scenario.pair_state r) = false).
  { intros _ r Hr. simpl in Hr.
    repeat (apply elem_of_cons in Hr as [->|Hr]; [reflexivity|]).
    by apply elem_of_nil in Hr. }
  destruct (_place_room_backtracking steady_clock Scenario.pair_cfg 0 None
              Scenario.pair_state) as [[b st']|e] eqn:E.
  - destruct (backtracking_is_all_or_nothing _ _ _ _ _ _ _ E
                (placement_invariant_nil _) Hnd Hrot) as (_ & _ & Hb & _).
    exact Hb.
  - vm_compute in E. discriminate.
Defined.

(** * What [get_adjacency_score] counts *)

Lemma neighbor_satisfied_Ok (h : ref → Room.t) (room1 : ref) (nid : Z) (placed : list ref)
    (hit : bool) :
  neighbor_satisfied h room1 nid placed = Ok hit →
  hit = existsb (fun room2 => (Room.id (h room2) =? nid) && adjacent_now (h room1) (h room2))
          placed.
Proof.
  induction placed as [|room2 placed IH]; simpl; intros H.
  - by inversion H.
  - destruct (Room.id (h room2) =? nid); simpl; [|by apply IH].
    apply rbind_Ok in H as (adj & Hadj & H). unfold adjacent_now. rewrite Hadj.
    destruct adj; simpl; [by inversion H|by apply IH].
Qed.

Lemma requirements_of_room (st : State) (room1 : ref) (l : list Z)
    (acc acc' : Z * Z) :
  rfold (fun acc' neighbor_id =>
      let '(satisfied, total) := acc' in
      do hit <- neighbor_satisfied (heap st) room1 neighbor_id (placed_rooms st);
      Ok (if hit then satisfied + 1 else satisfied, total + 1))%res l acc = Ok acc' →
  acc'.1 = acc.1 + Z.of_nat (length (List.filter (requirement_met st)
                                       (map (fun n => (room1, n)) l)))
  ∧ acc'.2 = acc.2 + Z.of_nat (length l).
Proof.
  revert acc. induction l as [|n l IH]; intros [s t] H; simpl in H.
  - inversion H. simpl. lia.
  - apply rbind_Ok in H as ([s1 t1] & H1 & H2).
    apply rbind_Ok in H1 as (hit & Hhit & H1). inversion H1; subst s1 t1; clear H1.
    apply neighbor_satisfied_Ok in Hhit. apply IH in H2 as [I1 I2]. simpl in I1, I2.
    cbn [map List.filter]. unfold requirement_met at 1. cbn [fst snd].
    rewrite <- Hhit. destruct hit; cbn [length fst snd]; lia.
Qed.

(** X16: in the triple of [get_adjacency_score], [total] is the number
    of adjacency requirements declared by the placed rooms, a requirement
    towards a room that is not placed included, and [satisfied] is the
    number of them for which some placed room carries the required id and
    is adjacent to the declaring room. *)
Theorem adjacency_score_counts_declared_requirements (cfg : Config) (st : State)
    (satisfied total : Z) (ratio : Q) :
  get_adjacency_score cfg st = Ok (satisfied, total, ratio) →
  total = Z.of_nat (length (requirements cfg st))
  ∧ satisfied = Z.of_nat (length (List.filter (requirement_met st) (requirements cfg st))).
Proof.
  unfold get_adjacency_score, requirements. intros H.
  apply rbind_Ok in H as ([s t] & Hfold & H). inversion H; subst; clear H.
  assert (Hgen : ∀ l acc acc',
            rfold (fun acc room1 =>
                rfold (fun acc' neighbor_id =>
                    let '(satisfied, total) := acc' in
                    do hit <- neighbor_satisfied (heap st) room1 neighbor_id (placed_rooms st);
                    Ok (if hit then satisfied + 1 else satisfied, total + 1))%res
                  (adjacency_get cfg (Room.id (heap st room1))) acc) l acc = Ok acc' →
            acc'.2 = acc.2 + Z.of_nat (length (flat_map (fun room1 =>
                       map (fun n => (room1, n)) (adjacency_get cfg (Room.id (heap st room1)))) l))
            ∧ acc'.1 = acc.1 + Z.of_nat (length (List.filter (requirement_met st)
                         (flat_map (fun room1 =>
                            map (fun n => (room1, n))
                              (adjacency_get cfg (Room.id (heap st room1)))) l)))).
  { induction l as [|room1 l IH]; intros acc acc' Hl; simpl in Hl.
    - inversion Hl. simpl. lia.
    - apply rbind_Ok in Hl as (acc1 & H1 & H2).
      apply requirements_of_room in H1 as [R1 R2]. apply IH in H2 as [I2 I1].
      cbn [flat_map]. rewrite List.filter_app, !length_app, length_map.
      lia. }
  apply Hgen in Hfold as [G2 G1]. simpl in G1, G2. lia.
Qed.

Lemma adjacency_score_counts_declared_requirements_witness :
  match get_adjacency_score Scenario.pair_cfg Scenario.unit_state with
  | Ok (satisfied, total, _) =>
      total = Z.of_nat (length (requirements Scenario.pair_cfg Scenario.unit_state))
  | Raise _ => False
  end.
Proof.
  destruct (get_adjacency_score Scenario.pair_cfg Scenario.unit_state)
    as [[[satisfied total] ratio]|e] eqn:E.
  - by apply (adjacency_score_counts_declared_requirements _ _ _ _ _ E).
  - vm_compute in E. discriminate.
Defined.

(** * The placed list after a run *)

Lemma placed_kept_refl (s : State) : placed_rooms s = placed_rooms s.
Proof. done. Qed.

Lemma placed_kept_trans (s1 s2 s3 : State) :
  placed_rooms s2 = placed_rooms s1 → placed_rooms s3 = placed_rooms s2 →
  placed_rooms s3 = placed_rooms s1.
Proof. congruence. Qed.

Lemma placed_kept_upd (r : ref) (f : Room.t → Room.t) (s : State) :
  True → (∀ room, same_shape room (f room)) → placed_rooms (upd r f s) = placed_rooms s.
Proof. done. Qed.

Lemma greedy_room_placed (cfg : Config) (room : ref) (s s' : State) (u : unit) :
  greedy_room cfg room s = Ok (u, s') →
  placed_rooms s' = placed_rooms s ∨ placed_rooms s' = placed_rooms s ++ [room].
Proof.
  unfold greedy_room. intros H.
  apply bind_Ok in H as (cands & s1 & Hgen & H).
  apply bind_Ok in H as (b & s2 & Hloop & H).
  apply (keeps__generate_candidate_positions
           (fun s s' => placed_rooms s' = placed_rooms s) (fun _ => True)
           placed_kept_refl placed_kept_trans placed_kept_upd cfg room I) in Hgen.
  apply (keeps_mfold (fun s s' => placed_rooms s' = placed_rooms s)
           placed_kept_refl placed_kept_trans) in Hloop.
  2: { intros b0 c _.
       apply (keeps_greedy_candidate
                (fun s s' => placed_rooms s' = placed_rooms s) (fun _ => True)
                placed_kept_refl placed_kept_trans placed_kept_upd cfg room b0 c I). }
  destruct b as [[[bs bp] br] bg]. destruct bp as [pos|].
  - mstep H as u3 s3 H3. apply rotate_if_differs_spec in H3 as [Ht3 _].
    mstep H as u4 s4 H4. mstep H as u5 s5 H5. apply modify_Ok in H. subst s'.
    right. simpl. destruct Ht3 as (_ & _ & -> & _). congruence.
  - apply ret_Ok in H as [_ ->]. left. congruence.
Qed.

Lemma greedy_loop_placed (cfg : Config) (l : list ref) :
  ∀ s s' u,
    mfold (fun _ room => greedy_room cfg room) l u s = Ok (tt, s') →
    ∃ l', l' `sublist_of` l ∧ placed_rooms s' = placed_rooms s ++ l'.
Proof.
  induction l as [|room l IH]; intros s s' u H; simpl in H.
  - apply ret_Ok in H as [_ ->]. exists []. by rewrite app_nil_r.
  - apply bind_Ok in H as (u1 & s1 & H1 & H2).
    apply greedy_room_placed in H1. apply IH in H2 as (l' & Hsub & Hp).
    destruct H1 as [H1|H1]; rewrite H1 in Hp.
    + exists l'. split; [by apply sublist_cons|done].
    + exists (room :: l'). split; [by apply sublist_skip|]. by rewrite <- app_assoc in Hp.
Qed.

Lemma sublist_same_length {A} (l1 l2 : list A) :
  l1 `sublist_of` l2 → length l1 = length l2 → l1 = l2.
Proof.
  induction 1 as [|x l1 l2 Hs IH|x l1 l2 Hs IH]; simpl; intros Hl; [done| |].
  - f_equal. apply IH. lia.
  - apply sublist_length in Hs. lia.
Qed.

Lemma greedy_loop_rooms (cfg : Config) (l : list ref) (s s' : State) (u u' : unit) :
  mfold (fun _ room => greedy_room cfg room) l u s = Ok (u', s') → rooms s' = rooms s.
Proof.
  apply (keeps_mfold (fun s s' => rooms s' = rooms s)); [done|congruence|].
  intros b room _.
  apply (keeps_greedy_room (fun s s' => rooms s' = rooms s) (fun _ => True));
    [done|congruence|done|done|done].
Qed.

(** X17: on a room list of distinct objects, a run of [place_rooms] that
    returns leaves [self.rooms] in the order [sort_rooms] gave, and the
    placed list is a sub-sequence of it: rooms are placed in sorted order,
    none twice.  The count returned is at most the number of rooms, and
    when it equals that number the placed list is the whole sorted list. *)
Theorem placed_rooms_follow_the_sorted_order (clock : nat → Q) (cfg : Config)
    (st st' : State) (n : nat) :
  NoDup (rooms st) →
  place_rooms clock cfg st = Ok (n, st') →
  sort_rooms cfg (clear_placements st) = Ok (rooms st')
  ∧ placed_rooms st' `sublist_of` rooms st'
  ∧ NoDup (placed_rooms st')
  ∧ (n ≤ length (rooms st))%nat
  ∧ (n = length (rooms st) → placed_rooms st' = rooms st').
Proof.
  intros Hnd H. unfold place_rooms in H.
  mstep H as u0 s0 H0. mstep H as st1 s1 H1. mstep H as sorted_rooms s2 Hsort.
  mstep H as u3 s3 H3. apply bind_Ok in H as (t0 & s4 & Ht & H).
  unfold time_time in Ht. inversion Ht; subst t0 s4; clear Ht.
  apply bind_Ok in H as (ok & s5 & Hbt & H).
  pose proof (sort_rooms_perm _ _ _ Hsort) as Hperm.
  destruct (clear_placements_spec st) as (Er & Ep & Et & Eh). rewrite Er in Hperm.
  destruct (cleared_sorted_state st sorted_rooms Hnd Hperm) as (Hnd' & Hp & Hr & Hrot).
  unfold _place_room_backtracking in Hbt. simpl in Hbt.
  pose proof (backtrack_rooms _ _ _ _ _ _ _ Hbt) as Hrooms5. simpl in Hrooms5.
  assert (Hfinal : rooms st' = sorted_rooms ∧ placed_rooms st' `sublist_of` sorted_rooms
                   ∧ n = length (placed_rooms st')).
  { destruct ok.
    - mstep H as st6 s6 H6. apply ret_Ok in H as [-> ->].
      apply backtrack_spec in Hbt as (_ & _ & B3); simpl.
      + destruct (B3 eq_refl) as [B _]. simpl in B. rewrite B. done.
      + apply placement_invariant_nil.
      + done.
      + intros _ r Hin. exact (Hrot r Hin).
    - mstep H as u6 s6 H6. unfold _place_rooms_greedy in H.
      apply bind_Ok in H as ([] & s7 & Hloop & H).
      mstep H as st8 s8 H8. apply ret_Ok in H as [-> ->].
      destruct (clear_placements_spec s5) as (D1 & D2 & D3 & D4).
      pose proof Hloop as Hloop0.
      apply greedy_loop_placed in Hloop as (l' & Hsub & Hpl).
      rewrite D2 in Hpl. simpl in Hpl. rewrite Hpl. split_and!; try done.
      apply greedy_loop_rooms in Hloop0. rewrite Hloop0, D1. done. }
  destruct Hfinal as (F1 & F2 & F3). rewrite F1.
  assert (Hlen : length sorted_rooms = length (rooms st)) by (by rewrite Hperm).
  split_and!; try done.
  - eapply sublist_NoDup; done.
  - rewrite F3, <- Hlen. by apply sublist_length.
  - intros Hn. apply sublist_same_length; [done|lia].
Qed.

Lemma placed_rooms_follow_the_sorted_order_witness :
  match place_rooms steady_clock Scenario.strip_cfg Scenario.strip_state with
  | Ok (n, st') => placed_rooms st' `sublist_of` rooms st' ∧ (n ≤ 3)%nat
  | Raise _ => False
  end.
Proof.
  assert (Hnd : NoDup (rooms Scenario.strip_state)).
  { apply (bool_decide_unpack _). vm_compute. reflexivity. }
  destruct (place_rooms steady_clock Scenario.strip_cfg Scenario.strip_state)
    as [[n st']|e] eqn:E.
  - destruct (placed_rooms_follow_the_sorted_order _ _ _ _ _ Hnd E) as (_ & Hs & _ & Hn & _).
    split; [exact Hs|exact Hn].
  - vm_compute in E. discriminate.
Defined.

(** * Runs that return *)

Lemma returns_bind {A B} (m : M A) (f : A → M B) (s s1 : State) (a : A) :
  m s = Ok (a, s1) → returns (f a) s1 → returns (bind m f) s.
Proof. intros Hm (b & s' & Hf). exists b, s'. unfold bind. by rewrite Hm. Qed.

Lemma returns_lift {A B} (r : result A) (f : A → M B) (s : State) (a : A) :
  r = Ok a → returns (f a) s → returns (bind (lift r) f) s.
Proof. intros -> H. exact H. Qed.

Lemma returns_seq {A B} (m : M A) (f : A → M B) (s : State) :
  returns m s → (∀ a s1, m s = Ok (a, s1) → returns (f a) s1) → returns (bind m f) s.
Proof. intros (a & s1 & Hm) Hf. eapply returns_bind; [exact Hm|]. by apply Hf. Qed.

Lemma returns_ret {A} (a : A) (s : State) : returns (ret a) s.
Proof. by exists a, s. Qed.

Lemma returns_modify (f : State → State) (s : State) : returns (modify f) s.
Proof. by exists tt, (f s). Qed.

Lemma rotate_if_differs_run (flag : bool) (room : ref) (s : State) :
  rotate_if_differs flag room s
  = Ok (tt, if negb (eqb flag (Room.rotated (heap s room))) then upd room Room.rotate s else s).
Proof. unfold rotate_if_differs. by destruct (negb _). Qed.

Ltac go1 :=
  lazymatch goal with
  | |- returns (bind (modify _) _) _ => eapply returns_bind; [reflexivity|]; cbv beta
  | |- returns (bind get_state _) _ => eapply returns_bind; [reflexivity|]; cbv beta
  | |- returns (bind (ret _) _) _ => eapply returns_bind; [reflexivity|]; cbv beta
  | |- returns (bind (time_time _) _) _ => eapply returns_bind; [reflexivity|]; cbv beta
  | |- returns (bind (rotate_if_differs _ _) _) _ =>
      eapply returns_bind; [apply rotate_if_differs_run|]; cbv beta
  | |- returns (ret _) _ => apply returns_ret
  | |- returns (modify _) _ => apply returns_modify
  end.

Ltac go := repeat go1.

Lemma steady_refl (room : ref) (s : State) : steady room s s.
Proof. split_and!; try done. unfold same_shape. auto. Qed.

Lemma same_shape_trans (a b c : Room.t) : same_shape a b → same_shape b c → same_shape a c.
Proof.
  intros (A1 & A2 & A3) (B1 & B2 & B3). unfold same_shape.
  split; [congruence|]. split; [congruence|].
  destruct A3 as [A3|A3], B3 as [B3|B3]; inversion A3; inversion B3;
    (left; congruence) || (right; congruence).
Qed.

Lemma steady_trans (room : ref) (s1 s2 s3 : State) :
  steady room s1 s2 → steady room s2 s3 → steady room s1 s3.
Proof.
  intros (A1 & A2 & A3) (B1 & B2 & B3). split_and!.
  - intros r Hr. rewrite B1, A1; done.
  - congruence.
  - by eapply same_shape_trans.
Qed.

Lemma steady_upd (room r : ref) (f : Room.t → Room.t) (s : State) :
  r = room → (∀ x, same_shape x (f x)) → steady room s (upd r f s).
Proof.
  intros -> Hf. split_and!; try done.
  - intros r Hr. simpl. by rewrite decide_False.
  - simpl. by rewrite decide_True.
Qed.

Lemma positive_dims_shape (a b : Room.t) : same_shape a b → positive_dims a → positive_dims b.
Proof.
  intros (_ & _ & [H|H]) [Hw Hh]; inversion H as [[E1 E2]]; unfold positive_dims;
    rewrite E1, E2; done.
Qed.

Lemma located_ext (h h' : ref → Room.t) (l : list ref) :
  (∀ p, p ∈ l → h' p = h p) → located h l → located h' l.
Proof. intros He Hl p Hp. rewrite He by done. by apply Hl. Qed.

Lemma located_invariant (h : ref → Room.t) (l : list ref) :
  placement_invariant h l → located h l.
Proof.
  intros [_ Hin] p Hp. destruct (Hin p Hp) as (px & py & reg & Hx & Hy & _).
  rewrite Hx, Hy. eauto.
Qed.

(** ** The scoring functions *)

Lemma region_fit_score_returns (room : Room.t) (reg : PlotRegion.t) (px py : Z) :
  positive_dims room → ∃ v, _get_region_fit_score room reg px py = Ok v.
Proof.
  intros [Hw Hh]. destruct (contains reg room px py) eqn:Hc.
  - destruct (fit_score_of_contained room reg px py Hw Hh Hc) as (v & Hv & _). eauto.
  - unfold _get_region_fit_score. rewrite Hc. simpl. eauto.
Qed.

Lemma adjacency_step_returns (cfg : Config) (h : ref → Room.t) (room : ref) (score : Q)
    (p : ref) :
  is_Some (Room.y (h room)) → is_Some (Room.y (h p)) →
  ∃ v, adjacency_step cfg h room score p = Ok v.
Proof.
  intros Hr Hp. unfold adjacency_step.
  destruct (is_adjacent_total (h room) (h p)) as [adj Hadj]; [done..|].
  rewrite Hadj. simpl.
  destruct (bool_decide _), (bool_decide _); simpl; eauto.
Qed.

Lemma _get_adjacency_score_returns (cfg : Config) (room : ref) (position : Z * Z)
    (orientation : bool) (s : State) :
  room ∉ placed_rooms s → located (heap s) (placed_rooms s) →
  returns (_get_adjacency_score cfg room position orientation) s.
Proof.
  intros Hout Hloc. unfold _get_adjacency_score. go.
  match goal with |- returns (bind (lift (rfold ?f ?l ?a)) _) ?st =>
    destruct (rfold_total (fun _ => True) f l a) as (v & Hv & _); [|done|]
  end.
  - intros sc p Hp _.
    destruct (adjacency_step_returns cfg
      (heap (if negb (eqb orientation
                      (Room.rotated (heap (upd room
                         (Room.set_xy (Some position.1) (Some position.2)) s) room)))
             then upd room Room.rotate
                    (upd room (Room.set_xy (Some position.1) (Some position.2)) s)
             else upd room (Room.set_xy (Some position.1) (Some position.2)) s))
      room sc p) as [v Hv]; [| |eauto].
    + destruct (negb _); simpl; rewrite !decide_True by done; simpl; eauto.
    + assert (Hne : p ≠ room).
      { intros ->. apply Hout. revert Hp. by destruct (negb _). }
      assert (Hin : p ∈ placed_rooms s) by (revert Hp; by destruct (negb _)).
      destruct (negb _); simpl; rewrite !decide_False by done; by apply Hloc.
  - eapply returns_lift; [exact Hv|]. go.
    destruct (negb _); go; destruct (negb _); go.
Qed.

(** ** The candidate generator *)

Lemma steady__get_adjacency_score (cfg : Config) (room : ref) (position : Z * Z)
    (orientation : bool) :
  keeps (steady room) (_get_adjacency_score cfg room position orientation).
Proof.
  by apply (keeps__get_adjacency_score (steady room) (fun r => r = room)
              (steady_refl room) (steady_trans room) (steady_upd room)).
Qed.

Lemma steady_adjacent_region (cfg : Config) (room : ref) (pos : Z * Z) (flag : bool)
    (cands : list candidate) (reg : PlotRegion.t) :
  keeps (steady room) (adjacent_region cfg room pos flag cands reg).
Proof.
  by apply (keeps_adjacent_region (steady room) (fun r => r = room)
              (steady_refl room) (steady_trans room) (steady_upd room)).
Qed.

Lemma steady_adjacent_position (cfg : Config) (room : ref) (cands : list candidate)
    (p : Z * Z * bool) :
  keeps (steady room) (adjacent_position cfg room cands p).
Proof.
  by apply (keeps_adjacent_position (steady room) (fun r => r = room)
              (steady_refl room) (steady_trans room) (steady_upd room)).
Qed.

Lemma steady_adjacent_anchor (cfg : Config) (room : ref) (cands : list candidate)
    (anchor : ref) :
  keeps (steady room) (adjacent_anchor cfg room cands anchor).
Proof.
  by apply (keeps_adjacent_anchor (steady room) (fun r => r = room)
              (steady_refl room) (steady_trans room) (steady_upd room)).
Qed.

Lemma steady__generate_candidate_positions (cfg : Config) (room : ref) :
  keeps (steady room) (_generate_candidate_positions cfg room).
Proof.
  by apply (keeps__generate_candidate_positions (steady room) (fun r => r = room)
              (steady_refl room) (steady_trans room) (steady_upd room)).
Qed.

Lemma steady_greedy_candidate (cfg : Config) (room : ref) (b : best) (c : candidate) :
  keeps (steady room) (greedy_candidate cfg room b c).
Proof.
  by apply (keeps_greedy_candidate (steady room) (fun r => r = room)
              (steady_refl room) (steady_trans room) (steady_upd room)).
Qed.

(** What the generator needs of the state to return. *)
Lemma steady_pre (room : ref) (s s' : State) :
  steady room s s' →
  positive_dims (heap s room) ∧ (room ∉ placed_rooms s) ∧ located (heap s) (placed_rooms s) →
  positive_dims (heap s' room) ∧ (room ∉ placed_rooms s')
  ∧ located (heap s') (placed_rooms s').
Proof.
  intros (S1 & S2 & S3) (P1 & P2 & P3). rewrite S2. split_and!; [|done|].
  - by eapply positive_dims_shape.
  - eapply located_ext; [|exact P3]. intros p Hp. apply S1. by intros ->.
Qed.

Lemma mfold_returns {A B} (Pre : State → Prop) (f : B → A → M B) (l : list A) :
  (∀ b a s, a ∈ l → Pre s → returns (f b a) s) →
  (∀ b a s b' s', a ∈ l → Pre s → f b a s = Ok (b', s') → Pre s') →
  ∀ b s, Pre s → ∃ b' s', mfold f l b s = Ok (b', s') ∧ Pre s'.
Proof.
  induction l as [|a l IH]; intros Hret Hpre b s Hs; simpl.
  - by exists b, s.
  - destruct (Hret b a s) as (b1 & s1 & H1); [by left|done|].
    destruct (IH (fun b a s Ha => Hret b a s (list_elem_of_further _ _ _ Ha))
                 (fun b a s b' s' Ha => Hpre b a s b' s' (list_elem_of_further _ _ _ Ha))
                 b1 s1) as (b2 & s2 & H2 & Hs2).
    { eapply Hpre; [by left|exact Hs|exact H1]. }
    exists b2, s2. split; [|done]. unfold bind. by rewrite H1.
Qed.

Lemma adjacent_region_returns (cfg : Config) (room : ref) (pos : Z * Z) (flag : bool)
    (cands : list candidate) (reg : PlotRegion.t) (s : State) :
  positive_dims (heap s room) ∧ (room ∉ placed_rooms s) ∧ located (heap s) (placed_rooms s) →
  returns (adjacent_region cfg room pos flag cands reg) s.
Proof.
  intros (P1 & P2 & P3). unfold adjacent_region. go.
  destruct (region_fit_score_returns (heap s room) reg pos.1 pos.2 P1) as [v Hv].
  eapply returns_lift; [exact Hv|]. destruct (Qltb 0 v); [|go].
  destruct (_get_adjacency_score_returns cfg room pos flag s P2 P3) as (a & s1 & H1).
  eapply returns_bind; [exact H1|]. go.
Qed.

Lemma adjacent_position_returns (cfg : Config) (room : ref) (cands : list candidate)
    (p : Z * Z * bool) (s : State) :
  positive_dims (heap s room) ∧ (room ∉ placed_rooms s) ∧ located (heap s) (placed_rooms s) →
  returns (adjacent_position cfg room cands p) s.
Proof.
  intros Hpre. unfold adjacent_position.
  eapply returns_bind; [apply rotate_if_differs_run|]. cbv beta.
  match goal with |- returns _ ?st => remember st as s1 eqn:Es1 end.
  assert (Hs1 : steady room s s1).
  { rewrite Es1. destruct (negb _); [apply steady_upd; [done|shape]|apply steady_refl]. }
  clear Es1.
  destruct (mfold_returns (steady room s) (adjacent_region cfg room p.1 p.2) (regions cfg))
    with (b := cands) (s := s1) as (cands' & s2 & H2 & Hs2); [| |done|].
  - intros b reg s0 _ Hs0. apply adjacent_region_returns. by eapply steady_pre.
  - intros b reg s0 b' s' _ Hs0 Hrun. eapply steady_trans; [exact Hs0|].
    by eapply steady_adjacent_region.
  - eapply returns_bind; [exact H2|]. go.
Qed.

Lemma get_adjacent_positions_returns (self other : Room.t) :
  is_Some (Room.x other) → is_Some (Room.y other) →
  ∃ l, get_adjacent_positions self other = Ok l.
Proof. intros [ox Hx] [oy Hy]. unfold get_adjacent_positions. rewrite Hx, Hy. eauto. Qed.

Lemma adjacent_anchor_returns (cfg : Config) (room : ref) (cands : list candidate)
    (anchor : ref) (s : State) :
  anchor ∈ placed_rooms s →
  positive_dims (heap s room) ∧ (room ∉ placed_rooms s) ∧ located (heap s) (placed_rooms s) →
  returns (adjacent_anchor cfg room cands anchor) s.
Proof.
  intros Hin Hpre. unfold adjacent_anchor. go.
  destruct Hpre as (P1 & P2 & P3).
  destruct (get_adjacent_positions_returns (heap s room) (heap s anchor)) as [l Hl];
    [by apply P3..|].
  eapply returns_lift; [exact Hl|].
  destruct (mfold_returns (steady room s) (adjacent_position cfg room) l)
    with (b := cands) (s := s) as (cands' & s2 & H2 & Hs2);
    [| |apply steady_refl|by exists cands', s2].
  - intros b p s0 _ Hs0. apply adjacent_position_returns. by eapply steady_pre.
  - intros b p s0 b' s' _ Hs0 Hrun. eapply steady_trans; [exact Hs0|].
    by eapply steady_adjacent_position.
Qed.

Lemma _generate_candidate_positions_returns (cfg : Config) (room : ref) (s : State) :
  positive_dims (heap s room) → room ∉ placed_rooms s → located (heap s) (placed_rooms s) →
  returns (_generate_candidate_positions cfg room) s.
Proof.
  intros P1 P2 P3. unfold _generate_candidate_positions. go. cbv zeta.
  match goal with
  | |- returns (bind (if bool_decide (?l = []) then _ else _) _) _ =>
      assert (Hsub : ∀ a, a ∈ l → a ∈ placed_rooms s);
      [|destruct (bool_decide (l = []));
        [|generalize dependent l; intros anchors Hsub]]
  end.
  - intros a. destruct (_ && _); [done|]. intros Ha.
    by apply list_elem_of_filter in Ha as [_ Ha].
  - destruct P1 as [Hw Hh].
    destruct (grid_regions_total cfg room (regions cfg) [] s Hw Hh) as (c & s' & H & _).
    eapply returns_bind; [exact H|]. go.
  - destruct (mfold_returns (fun s0 => steady room s s0 ∧ placed_rooms s0 = placed_rooms s)
                (adjacent_anchor cfg room) anchors)
      with (b := @nil candidate) (s := s) as (cands' & s2 & H2 & Hs2).
    + intros b a s0 Ha [Hs0 Hp0]. apply adjacent_anchor_returns.
      * rewrite Hp0. by apply Hsub.
      * by eapply steady_pre.
    + intros b a s0 b' s' _ [Hs0 Hp0] Hrun.
      apply steady_adjacent_anchor in Hrun. split; [by eapply steady_trans|].
      destruct Hrun as (_ & -> & _). done.
    + split; [apply steady_refl|done].
    + eapply returns_bind; [exact H2|]. go.
Qed.

(** ** The search *)

Lemma overlaps_returns (a b : Room.t) :
  is_Some (Room.y a) → is_Some (Room.y b) → ∃ v, Room.overlaps a b = Ok v.
Proof.
  intros [ya Ha] [yb Hb]. unfold Room.overlaps. rewrite Ha, Hb.
  destruct (Room.x a), (Room.x b); try destruct (_ || _); eauto.
Qed.

Lemma has_overlap_returns (h : ref → Room.t) (room : ref) (placed : list ref) :
  is_Some (Room.y (h room)) → (∀ p, p ∈ placed → is_Some (Room.y (h p))) →
  ∃ b, has_overlap h room placed = Ok b.
Proof.
  intros Hr. induction placed as [|p placed IH]; intros Hp; simpl; [eauto|].
  destruct (overlaps_returns (h room) (h p) Hr) as [v Hv]; [apply Hp; by left|].
  rewrite Hv. simpl. destruct v; [eauto|]. apply IH. intros q Hq. apply Hp. by right.
Qed.

Lemma shape_kept_refl (s : State) : shape_kept s s.
Proof. intros r. unfold same_shape. auto. Qed.

Lemma shape_kept_trans (s1 s2 s3 : State) :
  shape_kept s1 s2 → shape_kept s2 s3 → shape_kept s1 s3.
Proof. intros H12 H23 r. by eapply same_shape_trans. Qed.

Lemma shape_kept_upd (r : ref) (f : Room.t → Room.t) (s : State) :
  True → (∀ room, same_shape room (f room)) → shape_kept s (upd r f s).
Proof.
  intros _ Hf r'. simpl. destruct (decide (r' = r)) as [->|]; [apply Hf|].
  unfold same_shape. auto.
Qed.

Lemma shape_kept_backtrack (clock : nat → Q) (cfg : Config) (ts : option Q)
    (todo : list ref) :
  keeps shape_kept (backtrack clock cfg todo ts).
Proof.
  apply (keeps_backtrack shape_kept (fun _ => True) shape_kept_refl shape_kept_trans
           shape_kept_upd); try done.
  - intros l s r. unfold same_shape. simpl. auto.
  - intros s r. unfold same_shape. simpl. auto.
Qed.

Lemma try_candidates_returns (next : M bool) (c : ref) (rest placed0 : list ref)
    (d : bool → Z * Z) :
  next_spec rest next →
  keeps shape_kept next →
  (∀ s, placement_invariant (heap s) (placed_rooms s) →
        NoDup (placed_rooms s ++ rest) → placed_rooms s ≠ [] →
        (∀ r, r ∈ rest → positive_dims (heap s r)) → returns next s) →
  NoDup (placed0 ++ c :: rest) →
  ∀ cands s,
    placed_rooms s = placed0 →
    placement_invariant (heap s) placed0 →
    (∀ flag, dims_at (heap s c) flag = d flag) →
    Forall (cand_valid d) cands →
    (∀ r, r ∈ rest → positive_dims (heap s r)) →
    returns (try_candidates next c cands) s.
Proof.
  intros Hnext Hshape Hret Hnd.
  assert (Hc0 : c ∉ placed0).
  { apply NoDup_app in Hnd as (_ & H & _). intros Hin. apply (H c Hin). by left. }
  assert (Hcr : c ∉ rest).
  { apply NoDup_app in Hnd as (_ & _ & H). by apply NoDup_cons in H as [? _]. }
  assert (Hpr : ∀ p, p ∈ placed0 → p ∉ rest).
  { apply NoDup_app in Hnd as (_ & H & _). intros p Hp Hin. apply (H p Hp). by right. }
  assert (Hnd' : NoDup ((placed0 ++ [c]) ++ rest)) by (by rewrite <- app_assoc).
  induction cands as [|[[[pos reg] flag] sc] cands IH]; intros s Hpl Hinv Hd Hv Hpos.
  { simpl. apply returns_ret. }
  apply Forall_cons in Hv as [Hv1 Hv]. unfold cand_valid in Hv1. simpl in Hv1.
  cbn [try_candidates].
  eapply returns_bind; [apply rotate_if_differs_run|]. cbv beta.
  match goal with |- returns _ ?st => remember st as s1 eqn:Es1 end.
  assert (Hrun1 : rotate_if_differs flag c s = Ok (tt, s1)).
  { rewrite Es1. apply rotate_if_differs_run. }
  apply rotate_if_differs_spec in Hrun1 as [Ht1 Hrot1]. clear Es1.
  go.
  remember (upd c (Room.set_region (Some reg))
              (upd c (Room.set_xy (Some pos.1) (Some pos.2)) s1)) as s3 eqn:Es3.
  assert (Hh3c : heap s3 c
                 = Room.set_region (Some reg) (Room.set_xy (Some pos.1) (Some pos.2) (heap s1 c))).
  { rewrite Es3. simpl. by rewrite !decide_True. }
  assert (Hh3 : ∀ r, r ≠ c → heap s3 r = heap s r).
  { intros r Hr. rewrite Es3. simpl. rewrite !decide_False by done. by apply Ht1. }
  assert (Hp3 : placed_rooms s3 = placed0).
  { rewrite Es3. simpl. destruct Ht1 as (_ & _ & -> & _). done. }
  clear Es3.
  assert (Hd3 : ∀ f, dims_at (heap s3 c) f = d f).
  { intros f. rewrite Hh3c. rewrite <- Hd. destruct Ht1 as (_ & _ & _ & _ & _ & <-). done. }
  assert (Hinv3 : placement_invariant (heap s3) placed0).
  { eapply placement_invariant_ext; [|exact Hinv].
    intros r Hr. apply Hh3. intros ->. done. }
  assert (Hpos3 : ∀ r, r ∈ rest → positive_dims (heap s3 r)).
  { intros r Hr. rewrite Hh3; [by apply Hpos|]. by intros ->. }
  destruct (has_overlap_returns (heap s3) c (placed_rooms s3)) as [ov Hov].
  { rewrite Hh3c. simpl. eauto. }
  { rewrite Hp3. intros p Hp. by apply (located_invariant _ _ Hinv3). }
  eapply returns_lift; [exact Hov|]. destruct ov; cbn [negb].
  - by apply IH.
  - go.
    remember (set_placed_rooms (placed_rooms s3 ++ [c]) s3) as s6 eqn:Es6.
    assert (Hh6 : heap s6 = heap s3) by (by rewrite Es6).
    assert (Hp6 : placed_rooms s6 = placed0 ++ [c]) by (by rewrite Es6, <- Hp3).
    clear Es6.
    assert (Hinv6 : placement_invariant (heap s6) (placed_rooms s6)).
    { rewrite Hh6, Hp6. apply placement_invariant_snoc; [done| |].
      - rewrite Hh3c. apply (tentative_inside _ _ _ flag d); [done| |done].
        intros f. rewrite <- Hd. by apply Ht1.
      - rewrite <- Hp3. by apply has_overlap_false. }
    assert (Hne6 : placed_rooms s6 ≠ []) by (rewrite Hp6; by destruct placed0).
    destruct (Hret s6 Hinv6) as (ok & s7 & Hok); [by rewrite Hp6|done| |].
    { intros r Hr. rewrite Hh6. by apply Hpos3. }
    eapply returns_bind; [exact Hok|]. cbv beta.
    destruct (Hnext _ _ _ Hok Hinv6) as (K1 & K2 & K3); [by rewrite Hp6|done|].
    rewrite Hh6 in K1. rewrite Hp6 in K2, K3.
    destruct ok; [go|]. go.
    rewrite (K2 eq_refl), list_remove_snoc by done.
    eapply returns_lift; [reflexivity|]. go.
    apply IH.
    + done.
    + eapply placement_invariant_ext; [|exact Hinv3].
      intros r Hr. simpl. rewrite K1 by auto. done.
    + intros f. simpl. rewrite K1 by done. apply Hd3.
    + done.
    + intros r Hr. simpl. eapply positive_dims_shape; [apply (Hshape _ _ _ Hok)|].
      rewrite Hh6. by apply Hpos3.
Qed.

Lemma timed_out_returns (clock : nat → Q) (cfg : Config) (ts : option Q) (s : State) :
  returns (timed_out clock cfg ts) s.
Proof. unfold timed_out. destruct ts as [t0|]; [destruct (Qeq_bool t0 0)|]; go. Qed.

Lemma abandon_room_returns (c : ref) (s : State) : returns (abandon_room c c) s.
Proof. unfold abandon_room. go. destruct (negb _); go. Qed.

Lemma backtrack_returns (clock : nat → Q) (cfg : Config) (ts : option Q) (todo : list ref) :
  ∀ s,
    placement_invariant (heap s) (placed_rooms s) →
    NoDup (placed_rooms s ++ todo) →
    (placed_rooms s = [] → ∀ r, r ∈ todo → Room.rotated (heap s r) = false) →
    (∀ r, r ∈ todo → positive_dims (heap s r)) →
    returns (backtrack clock cfg todo ts) s.
Proof.
  induction todo as [|c rest IH]; intros s Hinv Hnd Hrot Hpos.
  - cbn [backtrack]. destruct (timed_out_returns clock cfg ts s) as (ex & s1 & Hto).
    eapply returns_bind; [exact Hto|]. destruct ex; go.
  - cbn [backtrack]. destruct (timed_out_returns clock cfg ts s) as (ex & s1 & Hto).
    eapply returns_bind; [exact Hto|]. cbv beta.
    apply timed_out_spec in Hto as (Hh & _ & Hp).
    destruct ex; [go|].
    assert (Hc0 : c ∉ placed_rooms s).
    { apply NoDup_app in Hnd as (_ & H & _). intros Hin. apply (H c Hin). by left. }
    destruct (_generate_candidate_positions_returns cfg c s1) as (cands & s2 & Hgen).
    { rewrite Hh. apply Hpos. by left. }
    { by rewrite Hp. }
    { rewrite Hh, Hp. by apply located_invariant. }
    eapply returns_bind; [exact Hgen|]. cbv beta.
    apply _generate_candidate_positions_spec in Hgen as [Ht Hv].
    2: { rewrite Hh, Hp. intros Hnil. apply Hrot; [done|by left]. }
    assert (Hp2 : placed_rooms s2 = placed_rooms s).
    { destruct Ht as (_ & _ & -> & _). done. }
    assert (Hh2 : ∀ r, r ≠ c → heap s2 r = heap s r).
    { intros r Hr. destruct Ht as (Ht0 & _). rewrite Ht0 by done. by rewrite Hh. }
    assert (Hinv2 : placement_invariant (heap s2) (placed_rooms s)).
    { eapply placement_invariant_ext; [|exact Hinv]. intros r Hr. apply Hh2.
      by intros ->. }
    assert (Hnx : next_spec rest (backtrack clock cfg rest ts)).
    { intros s0 b0 s' Hn Hi Hn' Hne. apply (backtrack_spec _ _ _ _ _ _ _ Hn Hi Hn'). done. }
    assert (Hd2 : ∀ flag, dims_at (heap s2 c) flag = dims_at (heap s1 c) flag) by apply Ht.
    assert (Hcr : c ∉ rest).
    { apply NoDup_app in Hnd as (_ & _ & H). by apply NoDup_cons in H as [? _]. }
    destruct (try_candidates_returns (backtrack clock cfg rest ts) c rest (placed_rooms s)
                (dims_at (heap s1 c)) Hnx (shape_kept_backtrack clock cfg ts rest))
      with (cands := cands) (s := s2) as (found & s3 & Htry); try done.
    { intros s0 Hi Hn Hne Hps. apply IH; try done. }
    { intros r Hr. rewrite Hh2; [apply Hpos; by right|]. by intros ->. }
    eapply returns_bind; [exact Htry|]. cbv beta.
    destruct found; [go|]. apply abandon_room_returns.
Qed.

(** ** The greedy pass *)

Lemma greedy_candidate_returns (cfg : Config) (room : ref) (b : best) (c : candidate)
    (s : State) :
  positive_dims (heap s room) ∧ (room ∉ placed_rooms s) ∧ located (heap s) (placed_rooms s) →
  returns (greedy_candidate cfg room b c) s.
Proof.
  intros Hpre. destruct c as [[[pos reg] flag] sc], b as [[[bs bp] br] bg].
  unfold greedy_candidate.
  eapply returns_bind; [apply rotate_if_differs_run|]. cbv beta.
  match goal with |- returns _ ?st => remember st as s1 eqn:Es1 end.
  assert (Hs1 : steady room s s1).
  { rewrite Es1. destruct (negb _); [apply steady_upd; [done|shape]|apply steady_refl]. }
  clear Es1. go.
  remember (upd room (Room.set_xy (Some pos.1) (Some pos.2)) s1) as s2 eqn:Es2.
  assert (Hs2 : steady room s s2).
  { eapply steady_trans; [exact Hs1|]. rewrite Es2. apply steady_upd; [done|shape]. }
  assert (Hy2 : is_Some (Room.y (heap s2 room))).
  { rewrite Es2. simpl. rewrite decide_True by done. simpl. eauto. }
  clear Es2.
  destruct (steady_pre _ _ _ Hs2 Hpre) as (Q1 & Q2 & Q3).
  destruct (has_overlap_returns (heap s2) room (placed_rooms s2)) as [ov Hov]; [done| |].
  { intros p Hp. by apply Q3. }
  eapply returns_lift; [exact Hov|]. destruct ov; cbn [negb].
  - go.
  - apply returns_seq; [|intros; go].
    destruct (_get_adjacency_score_returns cfg room pos flag s2 Q2 Q3) as (a & s3 & H3).
    eapply returns_bind; [exact H3|]. cbv beta. go.
    pose proof (steady__get_adjacency_score _ _ _ _ _ _ _ H3) as Hs3.
    destruct (steady_pre _ _ _ Hs3 (conj Q1 (conj Q2 Q3))) as (R1 & _).
    destruct (region_fit_score_returns (heap s3 room) reg pos.1 pos.2 R1) as [v Hv].
    eapply returns_lift; [exact Hv|]. destruct (Qltb _ _); go.
Qed.

Lemma greedy_room_returns (cfg : Config) (room : ref) (s : State) :
  positive_dims (heap s room) ∧ (room ∉ placed_rooms s) ∧ located (heap s) (placed_rooms s) →
  returns (greedy_room cfg room) s.
Proof.
  intros Hpre. unfold greedy_room.
  destruct Hpre as (P1 & P2 & P3).
  destruct (_generate_candidate_positions_returns cfg room s P1 P2 P3) as (cands & s1 & Hgen).
  eapply returns_bind; [exact Hgen|]. cbv beta.
  apply steady__generate_candidate_positions in Hgen.
  destruct (mfold_returns (steady room s) (greedy_candidate cfg room) cands)
    with (b := ((-1)%Q, @None (Z * Z), false, @None PlotRegion.t)) (s := s1)
    as (b & s2 & H2 & Hs2); [| |done|].
  - intros b c s0 _ Hs0. apply greedy_candidate_returns. by eapply steady_pre.
  - intros b c s0 b' s' _ Hs0 Hrun. eapply steady_trans; [exact Hs0|].
    by eapply steady_greedy_candidate.
  - eapply returns_bind; [exact H2|]. cbv beta.
    destruct b as [[[bs bp] br] bg]. destruct bp as [pos|]; go.
Qed.

Lemma greedy_loop_returns (cfg : Config) (l : list ref) :
  ∀ s,
    NoDup l →
    placement_invariant (heap s) (placed_rooms s) →
    (∀ r, r ∈ l → r ∉ placed_rooms s) →
    (∀ r, r ∈ l → Room.rotated (heap s r) = false) →
    (∀ r, r ∈ l → positive_dims (heap s r)) →
    returns (mfold (fun _ room => greedy_room cfg room) l tt) s.
Proof.
  induction l as [|room l IH]; intros s Hnd Hinv Hout Hrot Hpos; cbn [mfold].
  - apply returns_ret.
  - apply NoDup_cons in Hnd as [Hroom Hnd].
    destruct (greedy_room_returns cfg room s) as ([] & s1 & H1).
    { split_and!; [apply Hpos; by left|apply Hout; by left|by apply located_invariant]. }
    eapply returns_bind; [exact H1|]. cbv beta.
    apply greedy_room_spec in H1 as (G1 & G2 & G3); try done.
    + apply IH; try done.
      * intros r Hr Hin. apply G3 in Hin as [Hin| ->]; [|done].
        apply (Hout r); [by right|done].
      * intros r Hr. rewrite G1 by (intros ->; done). apply Hrot. by right.
      * intros r Hr. rewrite G1 by (intros ->; done). apply Hpos. by right.
    + apply Hout. by left.
    + intros _. apply Hrot. by left.
Qed.

(** ** Sorting *)

Lemma rmap_returns {A B} (f : A → result B) (l : list A) :
  (∀ a, a ∈ l → ∃ b, f a = Ok b) → ∃ bs, rmap f l = Ok bs.
Proof.
  induction l as [|a l IH]; intros Hf; simpl; [eauto|].
  destruct (Hf a) as [b Hb]; [by left|]. rewrite Hb. simpl.
  destruct IH as [bs Hbs]; [intros x Hx; apply Hf; by right|]. rewrite Hbs. simpl. eauto.
Qed.

Lemma sorted_returns {K A} (ltb : K → K → bool) (key : A → result K) (l : list A) :
  (∀ a, a ∈ l → ∃ k, key a = Ok k) → ∃ l', sorted ltb key l = Ok l'.
Proof.
  intros Hkey. unfold sorted.
  destruct (rmap_returns (fun a => do k <- key a; Ok (k, a))%res l) as [ks Hks].
  - intros a Ha. destruct (Hkey a Ha) as [k Hk]. rewrite Hk. simpl. eauto.
  - rewrite Hks. simpl. eauto.
Qed.

Lemma fold_max_ge (l : list Z) (a : Z) : a ≤ fold_left Z.max l a.
Proof.
  revert a. induction l as [|x l IH]; intros a; simpl; [lia|].
  specialize (IH (Z.max a x)). lia.
Qed.

Lemma hybrid_key_returns (cfg : Config) (s : State) (r : ref) :
  rooms s ≠ [] → (∀ r', r' ∈ rooms s → positive_dims (heap s r')) →
  ∃ k, hybrid_key cfg s r = Ok k.
Proof.
  intros Hne Hpos. unfold hybrid_key.
  destruct (rooms s) as [|a l] eqn:El; [done|]. cbn [map py_max rbind].
  assert (Ha : 0 < Room.area (heap s a)).
  { destruct (Hpos a) as [Hw Hh]; [by left|]. unfold Room.area. lia. }
  pose proof (fold_max_ge (map (fun r' => Room.area (heap s r')) l) (Room.area (heap s a)))
    as Hmax.
  destruct (_ =? 0) eqn:E; [apply Z.eqb_eq in E; lia|]. eauto.
Qed.

Lemma sort_rooms_returns (cfg : Config) (s : State) :
  (∀ r, r ∈ rooms s → positive_dims (heap s r)) → ∃ l, sort_rooms cfg s = Ok l.
Proof.
  intros Hpos. unfold sort_rooms.
  repeat (destruct (String.eqb _ _); [apply sorted_returns; intros a Ha; try by eauto|]).
  - apply hybrid_key_returns; [|done]. intros Hnil. rewrite Hnil in Ha.
    by apply elem_of_nil in Ha.
  - eauto.
Qed.

Lemma clear_placements_positive (s : State) (r : ref) :
  positive_dims (heap s r) → positive_dims (heap (clear_placements s) r).
Proof.
  destruct (clear_placements_spec s) as (_ & _ & _ & Eh). rewrite Eh.
  by destruct (decide _).
Qed.

Lemma place_rooms_total (clock : nat → Q) (cfg : Config) (st : State) :
  NoDup (rooms st) →
  (∀ r, r ∈ rooms st → positive_dims (heap st r)) →
  returns (place_rooms clock cfg) st.
Proof.
  intros Hnd Hpos. unfold place_rooms. go.
  destruct (clear_placements_spec st) as (Er & Ep & Et & Eh).
  destruct (sort_rooms_returns cfg (clear_placements st)) as [sorted_rooms Hsort].
  { intros r Hr. rewrite Er in Hr. by apply clear_placements_positive, Hpos. }
  eapply returns_lift; [exact Hsort|]. go.
  apply sort_rooms_perm in Hsort. rewrite Er in Hsort.
  destruct (cleared_sorted_state st sorted_rooms Hnd Hsort) as (Hnd' & Hp & Hr & Hrot).
  match goal with |- returns _ ?st => remember st as s4 eqn:Es4 end.
  assert (Hh4 : heap s4 = heap (clear_placements st)) by (by rewrite Es4).
  assert (Hr4 : rooms s4 = sorted_rooms) by (by rewrite Es4).
  assert (Hp4 : placed_rooms s4 = []) by (by rewrite Es4).
  clear Es4.
  assert (Hpos4 : ∀ r, r ∈ sorted_rooms → positive_dims (heap s4 r)).
  { intros r Hin. rewrite Hh4. apply clear_placements_positive, Hpos. by rewrite <- Hsort. }
  destruct (backtrack_returns clock cfg (Some (clock (ticks (clear_placements st))))
              sorted_rooms s4) as (ok & s5 & Hbt).
  { rewrite Hp4. apply placement_invariant_nil. }
  { by rewrite Hp4. }
  { intros _ r Hin. rewrite Hh4. exact (Hrot r Hin). }
  { done. }
  eapply returns_bind.
  { unfold _place_room_backtracking. rewrite Hr4. exact Hbt. }
  cbv beta. destruct ok; [go|]. go.
  unfold _place_rooms_greedy.
  pose proof (backtrack_rooms _ _ _ _ _ _ _ Hbt) as Hr5. rewrite Hr4 in Hr5.
  pose proof (shape_kept_backtrack _ _ _ _ _ _ _ Hbt) as Hshape.
  destruct (clear_placements_spec s5) as (D1 & D2 & D3 & D4).
  destruct (greedy_loop_returns cfg sorted_rooms (clear_placements s5)) as (u & s6 & Hloop).
  - done.
  - rewrite D2. apply placement_invariant_nil.
  - intros r _. rewrite D2. apply not_elem_of_nil.
  - intros r Hin. rewrite D4. rewrite decide_True by (by rewrite Hr5). done.
  - intros r Hin. apply clear_placements_positive.
    eapply positive_dims_shape; [apply Hshape|]. by apply Hpos4.
  - destruct u. eapply returns_bind; [exact Hloop|]. go.
Qed.

(** X18: on a list of distinct rooms of positive integer width and
    height, no run of [place_rooms] ends in a [ZeroDivisionError], a
    [TypeError] or a [ValueError], whatever the regions, the adjacency
    dictionary, the tuning attributes and the clock are: no key of the
    sort and no fit score divides by zero, no test or score meets a room
    without coordinates, and no [remove] or [max] fails. *)
Theorem place_rooms_raises_no_error_of_its_own (clock : nat → Q) (cfg : Config)
    (st : State) :
  NoDup (rooms st) →
  (∀ r, r ∈ rooms st → 0 < Room.width (heap st r) ∧ 0 < Room.height (heap st r)) →
  place_rooms clock cfg st ≠ Raise ZeroDivisionError
  ∧ place_rooms clock cfg st ≠ Raise TypeError
  ∧ place_rooms clock cfg st ≠ Raise ValueError.
Proof.
  intros Hnd Hpos.
  destruct (place_rooms_total clock cfg st Hnd Hpos) as (n & st' & H).
  rewrite H. by split_and!.
Qed.

Lemma place_rooms_raises_no_error_of_its_own_witness :
  place_rooms steady_clock Scenario.pair_cfg Scenario.pair_state ≠ Raise ZeroDivisionError
  ∧ place_rooms steady_clock Scenario.pair_cfg Scenario.pair_state ≠ Raise TypeError
  ∧ place_rooms steady_clock Scenario.pair_cfg Scenario.pair_state ≠ Raise ValueError.
Proof.
  apply place_rooms_raises_no_error_of_its_own.
  - apply (bool_decide_unpack _). vm_compute. reflexivity.
  - intros r Hr. simpl in Hr.
    repeat (apply elem_of_cons in Hr as [->|Hr]; [vm_compute; done|]).
    by apply elem_of_nil in Hr.
Defined.

(** * Rooms as sets of unit cells *)

(** X19: two rooms with integer coordinates and positive integer width
    and height that both have a position overlap, in the sense of
    [Room.overlaps], exactly when some unit cell of the integer grid lies
    in both of their rectangles. *)
Theorem overlaps_iff_shared_cell (a b : Room.t) (ra rb : Z * Z * Z * Z) :
  0 < Room.width a → 0 < Room.height a → 0 < Room.width b → 0 < Room.height b →
  Room.get_rect a = Some ra → Room.get_rect b = Some rb →
  ∃ v, Room.overlaps a b = Ok v ∧ (v = true ↔ ∃ c, cell_of ra c ∧ cell_of rb c).
Proof.
  intros Hwa Hha Hwb Hhb. unfold Room.get_rect, Room.overlaps.
  destruct (Room.x a) as [ax|], (Room.y a) as [ay|]; try done.
  destruct (Room.x b) as [bx|], (Room.y b) as [by_|]; try done.
  intros [= <-] [= <-]. unfold cell_of.
  destruct (_ || _) eqn:Ex.
  - eexists. split; [done|]. split; [done|]. intros ([cx cy] & Ha & Hb). simpl in *.
    apply orb_true_iff in Ex as [E|E]; apply Z.leb_le in E; lia.
  - apply orb_false_iff in Ex as [E1 E2]. apply Z.leb_gt in E1, E2.
    eexists. split; [done|]. rewrite negb_true_iff, orb_false_iff, !Z.leb_gt. split.
    + intros [E3 E4]. exists (Z.max ax bx, Z.max ay by_). simpl. lia.
    + intros ([cx cy] & Ha & Hb). simpl in *. lia.
Qed.

Lemma overlaps_iff_shared_cell_witness :
  ∃ v, Room.overlaps (placed_at 0 0 Scenario.hall (Room.init 1 3 4 "a"))
                     (placed_at 2 3 Scenario.hall (Room.init 2 2 3 "b")) = Ok v
       ∧ (v = true ↔ ∃ c, cell_of (0, 0, 3, 4) c ∧ cell_of (2, 3, 2, 3) c).
Proof. apply overlaps_iff_shared_cell; (reflexivity || (simpl; lia)). Defined.

(** X20: for a region with integer coordinates and a room of positive
    integer width and height, [PlotRegion.contains] holds at an integer
    origin exactly when every unit cell of the room set at that origin is
    a cell of the region's rectangle. *)
Theorem contains_iff_cells_inside (reg : PlotRegion.t) (room : Room.t) (px py : Z) :
  0 < Room.width room → 0 < Room.height room →
  (contains reg room px py = true ↔
   ∀ c, cell_of (px, py, Room.width room, Room.height room) c →
        cell_of (PlotRegion.get_rect reg) c).
Proof.
  intros Hw Hh. unfold contains, cell_of, PlotRegion.get_rect.
  rewrite !andb_true_iff, !Z.leb_le. split.
  - intros Hc [cx cy]. simpl. lia.
  - intros Hc.
    pose proof (Hc (px, py)) as H1.
    pose proof (Hc (px + Room.width room - 1, py + Room.height room - 1)) as H2.
    simpl in H1, H2. lia.
Qed.

Lemma contains_iff_cells_inside_witness :
  contains Scenario.hall (Room.init 1 3 4 "a") 7 6 = true ↔
  ∀ c, cell_of (7, 6, 3, 4) c → cell_of (PlotRegion.get_rect Scenario.hall) c.
Proof.
  apply (contains_iff_cells_inside Scenario.hall (Room.init 1 3 4 "a") 7 6); simpl; lia.
Defined.

(** X21: two rectangles with integer coordinates and positive integer
    width and height are adjacent, in the sense of [are_adjacent], exactly
    when they share no unit cell and some cell of the one shares an edge
    with some cell of the other; rectangles that meet only at a corner are
    not adjacent. *)
Theorem are_adjacent_iff_cells_share_an_edge (rect1 rect2 : Z * Z * Z * Z) :
  0 < rect1.1.2 → 0 < rect1.2 → 0 < rect2.1.2 → 0 < rect2.2 →
  (are_adjacent rect1 rect2 = true ↔
   (¬ ∃ c, cell_of rect1 c ∧ cell_of rect2 c)
   ∧ ∃ c1 c2, cell_of rect1 c1 ∧ cell_of rect2 c2 ∧ edge_neighbours c1 c2).
Proof.
  destruct rect1 as [[[ax ay] aw] ah], rect2 as [[[bx by_] bw] bh]. simpl.
  intros Haw Hah Hbw Hbh. unfold are_adjacent, cell_of, edge_neighbours. split.
  - intros H. split.
    + intros ([cx cy] & Ha & Hb). simpl in *. revert H. zbool.
    + revert H. zbool; intros _;
        first
          [ by (exists (ax + aw - 1, Z.max ay by_), (bx, Z.max ay by_); simpl; lia)
          | by (exists (ax, Z.max ay by_), (bx + bw - 1, Z.max ay by_); simpl; lia)
          | by (exists (Z.max ax bx, ay + ah - 1), (Z.max ax bx, by_); simpl; lia)
          | by (exists (Z.max ax bx, ay), (Z.max ax bx, by_ + bh - 1); simpl; lia) ].
  - intros [Hno ([x1 y1] & [x2 y2] & Ha & Hb & Hn)]. simpl in *.
    assert (Hsep : ax + aw ≤ bx ∨ bx + bw ≤ ax ∨ ay + ah ≤ by_ ∨ by_ + bh ≤ ay).
    { destruct (decide (ax + aw ≤ bx)); [auto|]. destruct (decide (bx + bw ≤ ax)); [auto|].
      destruct (decide (ay + ah ≤ by_)); [auto|]. destruct (decide (by_ + bh ≤ ay)); [auto|].
      exfalso. apply Hno. exists (Z.max ax bx, Z.max ay by_). simpl. lia. }
    zbool.
Qed.

Lemma are_adjacent_iff_cells_share_an_edge_witness :
  are_adjacent (0, 0, 3, 4) (3, 2, 2, 3) = true ↔
  (¬ ∃ c, cell_of (0, 0, 3, 4) c ∧ cell_of (3, 2, 2, 3) c)
  ∧ ∃ c1 c2, cell_of (0, 0, 3, 4) c1 ∧ cell_of (3, 2, 2, 3) c2 ∧ edge_neighbours c1 c2.
Proof. apply (are_adjacent_iff_cells_share_an_edge (0, 0, 3, 4) (3, 2, 2, 3)); simpl; lia. Defined.

(** * After a run *)

Lemma place_rooms_invariant (clock : nat → Q) (cfg : Config) (st st' : State) (n : nat) :
  NoDup (rooms st) →
  place_rooms clock cfg st = Ok (n, st') →
  placement_invariant (heap st') (placed_rooms st').
Proof.
  intros Hnd H. unfold place_rooms in H.
  mstep H as u0 s0 H0. mstep H as st1 s1 H1. mstep H as sorted_rooms s2 Hsort.
  mstep H as u3 s3 H3. apply bind_Ok in H as (t0 & s4 & Ht & H).
  unfold time_time in Ht. inversion Ht; subst t0 s4; clear Ht.
  apply bind_Ok in H as (ok & s5 & Hbt & H).
  apply sort_rooms_perm in Hsort.
  destruct (clear_placements_spec st) as (Er & Ep & Et & Eh). rewrite Er in Hsort.
  destruct (cleared_sorted_state st sorted_rooms Hnd Hsort) as (Hnd' & Hp & Hr & Hrot).
  unfold _place_room_backtracking in Hbt. simpl in Hbt.
  pose proof (backtrack_rooms _ _ _ _ _ _ _ Hbt) as Hrooms5. simpl in Hrooms5.
  destruct ok.
  - mstep H as st6 s6 H6. apply ret_Ok in H as [-> ->].
    apply backtrack_spec in Hbt as (_ & _ & B3); simpl.
    + by destruct (B3 eq_refl) as [_ Hinv].
    + apply placement_invariant_nil.
    + done.
    + intros _ r Hin. exact (Hrot r Hin).
  - mstep H as u6 s6 H6. unfold _place_rooms_greedy in H.
    apply bind_Ok in H as ([] & s7 & Hloop & H).
    mstep H as st8 s8 H8. apply ret_Ok in H as [-> ->].
    destruct (clear_placements_spec s5) as (D1 & D2 & D3 & D4).
    eapply greedy_loop_spec; [exact Hloop|done| | |].
    + rewrite D2. apply placement_invariant_nil.
    + intros r _. rewrite D2. apply not_elem_of_nil.
    + intros r Hin. rewrite D4. rewrite decide_True by (by rewrite Hrooms5). done.
Qed.

Lemma get_adjacency_score_returns (cfg : Config) (st : State) :
  located (heap st) (placed_rooms st) → ∃ triple, get_adjacency_score cfg st = Ok triple.
Proof.
  intros Hloc. unfold get_adjacency_score.
  destruct (rfold_total (fun _ : Z * Z => True)
    (fun acc room1 =>
       rfold (fun acc' neighbor_id =>
           let '(satisfied, total) := acc' in
           (do hit <- neighbor_satisfied (heap st) room1 neighbor_id (placed_rooms st);
            Ok (if hit then satisfied + 1 else satisfied, total + 1))%res)
         (adjacency_get cfg (Room.id (heap st room1))) acc)
    (placed_rooms st) (0, 0)) as ([satisfied total] & -> & _); [|done|simpl; eauto].
  intros acc room1 Hin _. apply rfold_total; [|done].
  intros [s t] nid _ _.
  destruct (neighbor_satisfied_total (heap st) room1 nid (placed_rooms st)) as [v ->].
  - intros _. by apply Hloc.
  - apply Forall_forall. intros r Hr _. by apply Hloc.
  - simpl. eauto.
Qed.

(** X22: on the state that a run of [place_rooms] over distinct room
    objects leaves, [get_adjacency_score] returns: the score of a finished
    run can always be computed. *)
Theorem adjacency_score_after_a_run (clock : nat → Q) (cfg : Config) (st st' : State)
    (n : nat) :
  NoDup (rooms st) →
  place_rooms clock cfg st = Ok (n, st') →
  ∃ satisfied total ratio, get_adjacency_score cfg st' = Ok (satisfied, total, ratio).
Proof.
  intros Hnd H. apply place_rooms_invariant in H; [|done].
  destruct (get_adjacency_score_returns cfg st') as ([[s t] r] & Hs);
    [by apply located_invariant|eauto].
Qed.

Lemma adjacency_score_after_a_run_witness :
  match place_rooms steady_clock Scenario.pair_cfg Scenario.pair_state with
  | Ok (_, st') =>
      ∃ satisfied total ratio,
        get_adjacency_score Scenario.pair_cfg st' = Ok (satisfied, total, ratio)
  | Raise _ => False
  end.
Proof.
  assert (Hnd : NoDup (rooms Scenario.pair_state)).
  { apply (bool_decide_unpack _). vm_compute. reflexivity. }
  destruct (place_rooms steady_clock Scenario.pair_cfg Scenario.pair_state)
    as [[n st']|e] eqn:E.
  - exact (adjacency_score_after_a_run _ _ _ _ _ Hnd E).
  - vm_compute in E. discriminate.
Defined.

(** X23: [clear_placements] is idempotent, and it resets exactly the rooms
    of [self.rooms]: each of them ends without position, without region
    and with the [rotated] flag off, its width and height as they were; a
    room object outside [self.rooms] is left as it was, even when it was in
    the placed list, which is emptied. *)
Theorem clear_placements_is_idempotent (st : State) :
  (∀ r, heap (clear_placements (clear_placements st)) r = heap (clear_placements st) r)
  ∧ rooms (clear_placements (clear_placements st)) = rooms (clear_placements st)
  ∧ placed_rooms (clear_placements (clear_placements st)) = placed_rooms (clear_placements st)
  ∧ placed_rooms (clear_placements st) = []
  ∧ (∀ r, r ∈ rooms st →
       unplaced (heap (clear_placements st) r)
       ∧ Room.rotated (heap (clear_placements st) r) = false
       ∧ Room.width (heap (clear_placements st) r) = Room.width (heap st r)
       ∧ Room.height (heap (clear_placements st) r) = Room.height (heap st r))
  ∧ (∀ r, r ∉ rooms st → heap (clear_placements st) r = heap st r).
Proof.
  destruct (clear_placements_spec st) as (Er & Ep & Et & Eh).
  destruct (clear_placements_spec (clear_placements st)) as (Er' & Ep' & Et' & Eh').
  split_and!.
  - intros r. rewrite Eh', Er, Eh. by destruct (decide _).
  - by rewrite Er'.
  - by rewrite Ep', Ep.
  - done.
  - intros r Hr. rewrite Eh, decide_True by done. by split_and!.
  - intros r Hr. by rewrite Eh, decide_False.
Qed.

(** * A room that fits is placed *)

Lemma fit_score_nonneg (room : Room.t) (reg : PlotRegion.t) (px py : Z) (v : Q) :
  positive_dims room → _get_region_fit_score room reg px py = Ok v → (0 <= v)%Q.
Proof.
  intros [Hw Hh] H. destruct (contains reg room px py) eqn:Hc.
  - destruct (fit_score_of_contained room reg px py Hw Hh Hc) as (v' & Hv' & Hpos).
    rewrite Hv' in H. inversion H; subst. apply Qltb_lt in Hpos. by apply Qlt_le_weak.
  - unfold _get_region_fit_score in H. rewrite Hc in H. simpl in H. inversion H. done.
Qed.

Lemma first_room_candidates (cfg : Config) (room : ref) (st : State) :
  positive_dims (heap st room) → placed_rooms st = [] → grid_fits cfg (heap st room) →
  ∃ cands st', _generate_candidate_positions cfg room st = Ok (cands, st') ∧ cands ≠ [].
Proof.
  intros [Hw Hh] Hnil Hfit. unfold _generate_candidate_positions.
  unfold bind at 1. unfold get_state at 1. rewrite Hnil. simpl.
  destruct (grid_regions_total cfg room (regions cfg) [] st Hw Hh)
    as (cands & s' & E & Hne).
  unfold bind. rewrite E. unfold ret.
  exists (sort_candidates cands), s'. split; [done|].
  intros Hs. apply Hne; [by right|].
  apply Permutation_nil_r. rewrite <- Hs. by rewrite sort_candidates_perm.
Qed.

Lemma greedy_candidate_takes (cfg : Config) (room : ref) (b b' : best) (c : candidate)
    (s s' : State) :
  greedy_candidate cfg room b c s = Ok (b', s') →
  placed_rooms s = [] → positive_dims (heap s room) →
  (b.1.1.2 = None → b.1.1.1 = (-1)%Q) →
  is_Some b'.1.1.2.
Proof.
  destruct c as [[[pos reg] flag] sc], b as [[[bs bp] br] bg].
  unfold greedy_candidate. intros H Hnil Hpos Hb. simpl in Hb.
  mstep H as u1 s1 Hr1.
  pose proof (keeps_rotate_if_differs (steady room) (fun r => r = room)
                (steady_refl room) (steady_upd room) flag room eq_refl _ _ _ Hr1) as Hs1.
  mstep H as u2 s2 Hr2. mstep H as st3 s3 Hr3. mstep H as ov s4 Hov.
  remember (upd room (Room.set_xy (Some pos.1) (Some pos.2)) s1) as s2 eqn:Es2.
  assert (Hs2 : steady room s s2).
  { eapply steady_trans; [exact Hs1|]. rewrite Es2. apply steady_upd; [done|shape]. }
  clear Es2.
  assert (Hp2 : placed_rooms s2 = []) by (destruct Hs2 as (_ & -> & _); done).
  rewrite Hp2 in Hov. simpl in Hov. inversion Hov; subst ov; clear Hov.
  mstep H as b1 s5 Hb1. mstep H as u6 s6 Hr6. apply ret_Ok in H as [-> ->].
  cbn [negb] in Hb1.
  mstep Hb1 as adj s7 Hadj.
  pose proof (steady__get_adjacency_score _ _ _ _ _ _ _ Hadj) as Hs7.
  apply _get_adjacency_score_Ok in Hadj as (Hfold & _). rewrite Hp2 in Hfold.
  simpl in Hfold. inversion Hfold; subst adj; clear Hfold.
  mstep Hb1 as st8 s8 Hr8. mstep Hb1 as rs s9 Hrs.
  apply fit_score_nonneg in Hrs.
  2: { eapply positive_dims_shape; [|exact Hpos].
       eapply same_shape_trans; [apply Hs2|apply Hs7]. }
  destruct (Qltb _ _) eqn:Elt; apply ret_Ok in Hb1 as [-> ->]; simpl; [eauto|].
  destruct bp as [p|]; [eauto|]. exfalso. rewrite Hb in Elt by done.
  assert (Hlt : Qltb (-1) ((8 # 10) * 0 + (2 # 10) * rs) = true).
  { apply Qltb_lt. apply Qlt_le_trans with 0%Q; [done|].
    rewrite Qmult_0_r, Qplus_0_l. apply Qmult_le_0_compat; [done|exact Hrs]. }
  congruence.
Qed.

Lemma greedy_room_places (cfg : Config) (room : ref) (s s' : State) (u : unit) :
  greedy_room cfg room s = Ok (u, s') →
  placed_rooms s = [] → positive_dims (heap s room) → grid_fits cfg (heap s room) →
  placed_rooms s' = [room].
Proof.
  unfold greedy_room. intros H Hnil Hpos Hfit.
  apply bind_Ok in H as (cands & s1 & Hgen & H).
  apply bind_Ok in H as (b & s2 & Hloop & H).
  destruct (first_room_candidates cfg room s Hpos Hnil Hfit) as (c0 & s0 & Hgen0 & Hne).
  rewrite Hgen in Hgen0. inversion Hgen0; subst c0 s0; clear Hgen0.
  apply steady__generate_candidate_positions in Hgen.
  destruct cands as [|c cands]; [done|]. cbn [mfold] in Hloop.
  apply bind_Ok in Hloop as (b1 & s3 & Hfirst & Hloop).
  assert (Hpre : ∀ s0, steady room s s0 →
            placed_rooms s0 = [] ∧ positive_dims (heap s0 room)).
  { intros s0 (_ & Hp0 & Hsh). split; [by rewrite Hp0|by eapply positive_dims_shape]. }
  pose proof (steady_greedy_candidate _ _ _ _ _ _ _ Hfirst) as Hs3.
  assert (Hs13 : steady room s s3) by (by eapply steady_trans).
  apply greedy_candidate_takes in Hfirst; [|by apply Hpre..|done].
  eapply (mfold_inv (fun b0 s0 => steady room s s0 ∧ is_Some b0.1.1.2)) in Hloop.
  2: { intros b0 c1 sa b2 sb _ [Hsa Hb0] Hstep. split.
       - eapply steady_trans; [exact Hsa|]. by eapply steady_greedy_candidate.
       - eapply greedy_candidate_takes; [exact Hstep|by apply Hpre..|].
         intros Hn. rewrite Hn in Hb0. by destruct Hb0. }
  2: { done. }
  destruct Hloop as [Hs2 Hb]. destruct b as [[[bs bp] br] bg]. simpl in Hb.
  destruct bp as [pos|]; [|by destruct Hb].
  mstep H as u3 s4 H3. apply rotate_if_differs_spec in H3 as [Ht3 _].
  mstep H as u4 s5 H4. mstep H as u5 s6 H5. apply modify_Ok in H. subst s'.
  simpl. destruct Ht3 as (_ & _ & -> & _). destruct Hs2 as (_ & -> & _).
  by rewrite Hnil.
Qed.

Lemma samples_dims (reg : PlotRegion.t) (a b : Room.t) (step : positive) :
  Room.width b = Room.width a → Room.height b = Room.height a →
  get_sample_positions reg b step = get_sample_positions reg a step.
Proof. intros Hw Hh. unfold get_sample_positions. by rewrite Hw, Hh. Qed.

Lemma grid_fits_dims (cfg : Config) (a b : Room.t) :
  Room.width b = Room.width a → Room.height b = Room.height a →
  grid_fits cfg a → grid_fits cfg b.
Proof.
  intros Hw Hh (reg & Hin & Ht). exists reg. split; [done|]. unfold region_takes in *.
  rewrite (samples_dims reg a b) by done.
  rewrite (samples_dims reg (Room.rotate a) (Room.rotate b)) by done. done.
Qed.

Lemma grid_fits_shape (cfg : Config) (a b : Room.t) :
  same_shape a b → grid_fits cfg a → grid_fits cfg (Room.rotate a) → grid_fits cfg b.
Proof.
  intros (_ & _ & [H|H]) Ha Hr; inversion H as [[E1 E2]].
  - by apply (grid_fits_dims cfg a b).
  - by apply (grid_fits_dims cfg (Room.rotate a) b).
Qed.

(** X24: on a non-empty list of distinct rooms of positive integer width
    and height, each of which some region takes on the sampling grid both
    as given and rotated, with regions whose integer coordinates lie far
    inside the float range, a run of [place_rooms] that returns has placed
    at least one room, whatever the clock reads: when the search gives up,
    the greedy pass still places the first room of the sorted order. *)
Theorem place_rooms_places_a_room_that_fits (clock : nat → Q) (cfg : Config)
    (st st' : State) (n : nat) :
  NoDup (rooms st) → rooms st ≠ [] →
  (∀ r, r ∈ rooms st → 0 < Room.width (heap st r) ∧ 0 < Room.height (heap st r)) →
  (∀ r, r ∈ rooms st →
        grid_fits cfg (heap st r) ∧ grid_fits cfg (Room.rotate (heap st r))) →
  (∀ reg, reg ∈ regions cfg → moderate_region reg) →
  place_rooms clock cfg st = Ok (n, st') →
  (1 ≤ n)%nat.
Proof.
  intros Hnd Hne Hpos Hfit _ H. unfold place_rooms in H.
  mstep H as u0 s0 H0. mstep H as st1 s1 H1. mstep H as sorted_rooms s2 Hsort.
  mstep H as u3 s3 H3. apply bind_Ok in H as (t0 & s4 & Ht & H).
  unfold time_time in Ht. inversion Ht; subst t0 s4; clear Ht.
  apply bind_Ok in H as (ok & s5 & Hbt & H).
  apply sort_rooms_perm in Hsort.
  destruct (clear_placements_spec st) as (Er & Ep & Et & Eh). rewrite Er in Hsort.
  destruct (cleared_sorted_state st sorted_rooms Hnd Hsort) as (Hnd' & Hp & Hr & Hrot).
  unfold _place_room_backtracking in Hbt. simpl in Hbt.
  pose proof (backtrack_rooms _ _ _ _ _ _ _ Hbt) as Hrooms5. simpl in Hrooms5.
  pose proof (shape_kept_backtrack _ _ _ _ _ _ _ Hbt) as Hshape. simpl in Hshape.
  destruct sorted_rooms as [|r1 rest].
  { apply Permutation_nil_l in Hsort. by rewrite <- Hsort in Hne. }
  assert (Hr1 : r1 ∈ rooms st) by (rewrite <- Hsort; by left).
  destruct ok.
  - mstep H as st6 s6 H6. apply ret_Ok in H as [-> ->].
    apply backtrack_spec in Hbt as (_ & _ & B3); simpl.
    + destruct (B3 eq_refl) as [B _]. simpl in B. rewrite B. simpl. lia.
    + apply placement_invariant_nil.
    + done.
    + intros _ r Hin. exact (Hrot r Hin).
  - mstep H as u6 s6 H6. unfold _place_rooms_greedy in H.
    apply bind_Ok in H as ([] & s7 & Hloop & H).
    mstep H as st8 s8 H8. apply ret_Ok in H as [-> ->].
    destruct (clear_placements_spec s5) as (D1 & D2 & D3 & D4).
    cbn [mfold] in Hloop. apply bind_Ok in Hloop as (u1 & s8 & Hfirst & Hloop).
    assert (Hsh : same_shape (heap st r1) (heap (clear_placements s5) r1)).
    { assert (A1 : same_shape (heap st r1) (heap (clear_placements st) r1)).
      { rewrite Eh. destruct (decide _); unfold same_shape; simpl; auto. }
      assert (A2 : same_shape (heap (clear_placements st) r1) (heap s5 r1))
        by apply (Hshape r1).
      assert (A3 : same_shape (heap s5 r1) (heap (clear_placements s5) r1)).
      { rewrite D4. destruct (decide _); unfold same_shape; simpl; auto. }
      eapply same_shape_trans; [exact A1|]. by eapply same_shape_trans. }
    apply greedy_room_places in Hfirst; [|done| |].
    + destruct u1. apply greedy_loop_placed in Hloop as (l' & _ & Hpl).
      rewrite Hpl, Hfirst. simpl. lia.
    + eapply positive_dims_shape; [exact Hsh|]. by apply Hpos.
    + destruct (Hfit r1 Hr1) as [F1 F2]. by eapply grid_fits_shape.
Qed.

Lemma place_rooms_places_a_room_that_fits_witness :
  match place_rooms steady_clock Scenario.pair_cfg Scenario.pair_state with
  | Ok (n, _) => (1 ≤ n)%nat
  | Raise _ => False
  end.
Proof.
  assert (Hnd : NoDup (rooms Scenario.pair_state)).
  { apply (bool_decide_unpack _). vm_compute. reflexivity. }
  assert (Hpos : ∀ r, r ∈ rooms Scenario.pair_state →
            0 < Room.width (heap Scenario.pair_state r)
            ∧ 0 < Room.height (heap Scenario.pair_state r)).
  { intros r Hr. simpl in Hr.
    repeat (apply elem_of_cons in Hr as [->|Hr]; [vm_compute; done|]).
    by apply elem_of_nil in Hr. }
  assert (Hfit : ∀ r, r ∈ rooms Scenario.pair_state →
            grid_fits Scenario.pair_cfg (heap Scenario.pair_state r)
            ∧ grid_fits Scenario.pair_cfg (Room.rotate (heap Scenario.pair_state r))).
  { intros r Hr. simpl in Hr.
    repeat (apply elem_of_cons in Hr as [->|Hr];
            [split; (exists Scenario.hall; split; [by left|]; left; vm_compute;
                     discriminate)|]).
    by apply elem_of_nil in Hr. }
  assert (Hmod : ∀ reg, reg ∈ regions Scenario.pair_cfg → moderate_region reg).
  { intros reg Hreg. apply list_elem_of_singleton in Hreg as ->.
    unfold moderate_region, moderate. simpl.
    repeat split; apply Z.leb_le; vm_compute; reflexivity. }
  destruct (place_rooms steady_clock Scenario.pair_cfg Scenario.pair_state)
    as [[n st']|e] eqn:E.
  - refine (place_rooms_places_a_room_that_fits _ _ _ _ _ Hnd _ Hpos Hfit Hmod E).
    discriminate.
  - vm_compute in E. discriminate.
Defined.

(** * Stability of the sort *)

Lemma sublist_fmap_inv {A B} (f : A → B) (l : list B) (k : list A) :
  l `sublist_of` map f k → ∃ k', k' `sublist_of` k ∧ map f k' = l.
Proof.
  revert l. induction k as [|z k IH]; intros l H; simpl in H.
  - apply sublist_nil_r in H as ->. by exists [].
  - apply sublist_cons_r in H as [H|(l' & -> & H)].
    + destruct (IH _ H) as (k' & Hk & E). exists k'. split; [by apply sublist_cons|done].
    + destruct (IH _ H) as (k' & Hk & E). exists (z :: k'). split; [by apply sublist_skip|].
      simpl. by rewrite E.
Qed.

Lemma rmap_keys {K A} (key : A → result K) (l : list A) (ks : list (K * A)) :
  rmap (fun a => do k <- key a; Ok (k, a))%res l = Ok ks →
  Forall (fun x => key x.2 = Ok x.1) ks.
Proof.
  revert ks. induction l as [|a l IH]; intros ks H; simpl in H.
  - inversion H. constructor.
  - apply rbind_Ok in H as ([k a'] & H1 & H2).
    apply rbind_Ok in H1 as (k' & Hk & Hka). inversion Hka; subst.
    apply rbind_Ok in H2 as (bs & H2 & H3). inversion H3; subst.
    constructor; [done|]. by apply IH.
Qed.

Section Stable.
Context {K A : Type} (ltb : K → K → bool) (R : K → K → Prop).
Hypothesis ltb_true : ∀ a b, ltb a b = true → R a b.
Hypothesis ltb_false : ∀ a b, ltb a b = false → R b a.
Hypothesis R_trans : ∀ a b c, R a b → R b c → R a c.
Hypothesis ltb_R : ∀ a b c, ltb a b = true → R b c → ltb a c = true.

Lemma insert_by_sublist (kx : K * A) (l : list (K * A)) :
  l `sublist_of` insert_by ltb kx l.
Proof.
  induction l as [|ky l IH]; simpl; [apply sublist_nil_l|].
  destruct (ltb kx.1 ky.1); [by apply sublist_cons|by apply sublist_skip].
Qed.

Lemma insert_by_after (kx x : K * A) (acc : list (K * A)) :
  StronglySorted (fun x y => R x.1 y.1) acc →
  x ∈ acc → ltb kx.1 x.1 = false → [x; kx] `sublist_of` insert_by ltb kx acc.
Proof.
  induction 1 as [|ky l Hs IH Hall]; intros Hin Hlt; [by apply elem_of_nil in Hin|].
  simpl. destruct (ltb kx.1 ky.1) eqn:E.
  - exfalso. apply elem_of_cons in Hin as [->|Hin]; [congruence|].
    rewrite Forall_forall in Hall. rewrite (ltb_R _ _ _ E (Hall x Hin)) in Hlt. discriminate.
  - apply elem_of_cons in Hin as [->|Hin].
    + apply sublist_skip. apply singleton_sublist_l.
      rewrite insert_by_perm. by left.
    + apply sublist_cons. by apply IH.
Qed.

Lemma fold_insert_stable (l : list (K * A)) :
  ∀ seen acc,
    StronglySorted (fun x y => R x.1 y.1) acc →
    acc ≡ₚ seen →
    (∀ x y, [x; y] `sublist_of` seen → ltb y.1 x.1 = false → [x; y] `sublist_of` acc) →
    ∀ x y, [x; y] `sublist_of` seen ++ l → ltb y.1 x.1 = false →
           [x; y] `sublist_of` fold_left (fun acc kx => insert_by ltb kx acc) l acc.
Proof.
  induction l as [|kx l IH]; intros seen acc Hs Hp Hinv x y Hxy Hlt; simpl.
  - rewrite app_nil_r in Hxy. by apply Hinv.
  - apply (IH (seen ++ [kx]) (insert_by ltb kx acc)); [| | |by rewrite <- app_assoc|done].
    + by apply (insert_by_sorted ltb R).
    + rewrite insert_by_perm, Hp. by rewrite Permutation_cons_append.
    + clear x y Hxy Hlt. intros x y Hxy Hlt.
      apply sublist_app_r in Hxy as (l1 & l2 & E & H1 & H2).
      apply sublist_cons_r in H2 as [H2|(l' & -> & H2)].
      * apply sublist_nil_r in H2 as ->. rewrite app_nil_r in E. subst l1.
        etrans; [by apply Hinv|apply insert_by_sublist].
      * apply sublist_nil_r in H2 as ->.
        destruct l1 as [|x1 [|x2 l1]]; simpl in E; inversion E; subst.
        -- apply insert_by_after; [done| |done].
           rewrite Hp. by apply singleton_sublist_l.
        -- by destruct l1.
Qed.

Lemma sorted_stable (key : A → result K) (l l' : list A) :
  sorted ltb key l = Ok l' →
  ∀ a b ka kb, [a; b] `sublist_of` l → key a = Ok ka → key b = Ok kb →
               ltb kb ka = false → [a; b] `sublist_of` l'.
Proof.
  unfold sorted. intros H a b ka kb Hab Ha Hb Hlt.
  apply rbind_Ok in H as (ks & Hks & H). inversion H; subst l'; clear H.
  pose proof (rmap_keys key l ks Hks) as Hkeys.
  rewrite <- (rmap_keyed_snd key l ks Hks) in Hab.
  apply sublist_fmap_inv in Hab as (k' & Hk' & E).
  destruct k' as [|x [|y [|z k']]]; simpl in E; inversion E; subst.
  rewrite Forall_forall in Hkeys.
  assert (Hx : x.1 = ka).
  { assert (Hin : x ∈ ks) by (eapply elem_of_sublist; [|exact Hk']; by left).
    apply Hkeys in Hin. rewrite Ha in Hin. by inversion Hin. }
  assert (Hy : y.1 = kb).
  { assert (Hin : y ∈ ks) by (eapply elem_of_sublist; [|exact Hk']; right; by left).
    apply Hkeys in Hin. rewrite Hb in Hin. by inversion Hin. }
  unfold sort_keyed. change [x.2; y.2] with (map snd [x; y]).
  apply fmap_sublist.
  apply (fold_insert_stable ks [] []); [constructor|done| |done|by rewrite Hx, Hy].
  intros x0 y0 H0. apply sublist_nil_r in H0. discriminate.
Qed.
End Stable.

Lemma sorted_stable_Z {A} (f : A → Z) (l l' : list A) :
  sorted Z.ltb (fun a => Ok (f a)) l = Ok l' →
  ∀ a b, [a; b] `sublist_of` l → f a ≤ f b → [a; b] `sublist_of` l'.
Proof.
  intros H a b Hab Hle.
  eapply (sorted_stable Z.ltb Z.le); [| | | |exact H|exact Hab|done|done|].
  - intros x y Hxy. apply Z.ltb_lt in Hxy. lia.
  - intros x y Hxy. apply Z.ltb_ge in Hxy. lia.
  - intros x y z. lia.
  - intros x y z Hxy Hyz. apply Z.ltb_lt in Hxy. apply Z.ltb_lt. lia.
  - apply Z.ltb_ge. lia.
Qed.

Lemma sorted_stable_lex {A} (f : A → Z * Z) (l l' : list A) :
  sorted lex_ltb (fun a => Ok (f a)) l = Ok l' →
  ∀ a b, [a; b] `sublist_of` l →
         (f a).1 < (f b).1 ∨ ((f a).1 = (f b).1 ∧ (f a).2 ≤ (f b).2) →
         [a; b] `sublist_of` l'.
Proof.
  intros H a b Hab Hle.
  eapply (sorted_stable lex_ltb
            (fun x y : Z * Z => x.1 < y.1 ∨ (x.1 = y.1 ∧ x.2 ≤ y.2)));
    [| | | |exact H|exact Hab|done|done|].
  - intros x y. unfold lex_ltb. rewrite orb_true_iff, andb_true_iff.
    rewrite !Z.ltb_lt, Z.eqb_eq. lia.
  - intros x y. unfold lex_ltb. rewrite orb_false_iff, andb_false_iff.
    rewrite !Z.ltb_ge, Z.eqb_neq. lia.
  - intros x y z. lia.
  - intros x y z. unfold lex_ltb. rewrite !orb_true_iff, !andb_true_iff.
    rewrite !Z.ltb_lt, !Z.eqb_eq. lia.
  - unfold lex_ltb. rewrite orb_false_iff, andb_false_iff.
    rewrite !Z.ltb_ge, Z.eqb_neq. lia.
Qed.

(** X25: under each of the six methods whose key is an integer,
    [sort_rooms] is a stable sort.  A room that precedes another in
    [self.rooms], and whose key does not come after the other's in the
    order of the method, still precedes it in the result; so rooms with
    equal keys keep the order they have in [self.rooms]. *)
Theorem sort_rooms_is_stable (cfg : Config) (st : State) (l : list ref) (a b : ref) :
  sort_rooms cfg st = Ok l →
  [a; b] `sublist_of` rooms st →
  (sort_method cfg = "area"%string →
   Room.area (heap st b) ≤ Room.area (heap st a) → [a; b] `sublist_of` l)
  ∧ (sort_method cfg = "adjacency"%string →
     degree cfg (heap st b) ≤ degree cfg (heap st a) → [a; b] `sublist_of` l)
  ∧ (sort_method cfg = "width"%string →
     Room.width (heap st b) ≤ Room.width (heap st a) → [a; b] `sublist_of` l)
  ∧ (sort_method cfg = "height"%string →
     Room.height (heap st b) ≤ Room.height (heap st a) → [a; b] `sublist_of` l)
  ∧ (sort_method cfg = "perimeter"%string →
     Room.perimeter (heap st b) ≤ Room.perimeter (heap st a) → [a; b] `sublist_of` l)
  ∧ (sort_method cfg = "degree_area"%string →
     degree cfg (heap st b) < degree cfg (heap st a)
     ∨ (degree cfg (heap st b) = degree cfg (heap st a)
        ∧ Room.area (heap st b) ≤ Room.area (heap st a)) →
     [a; b] `sublist_of` l).
Proof.
  intros H Hab. unfold sort_rooms in H.
  split_and!; intros Hm; rewrite Hm in H; simpl in H.
  - intros Hle. eapply sorted_stable_Z; [exact H|exact Hab|]. simpl. lia.
  - intros Hle. eapply sorted_stable_Z; [exact H|exact Hab|]. simpl. lia.
  - intros Hle. eapply sorted_stable_Z; [exact H|exact Hab|]. simpl. lia.
  - intros Hle. eapply sorted_stable_Z; [exact H|exact Hab|]. simpl. lia.
  - intros Hle. eapply sorted_stable_Z; [exact H|exact Hab|].
    unfold Room.perimeter in Hle. simpl. lia.
  - intros Hle. eapply sorted_stable_lex; [exact H|exact Hab|]. simpl. lia.
Qed.

Lemma sort_rooms_is_stable_witness :
  ∃ l, sort_rooms Scenario.corridor_cfg Scenario.corridor_state = Ok l
       ∧ [0%nat; 1%nat] `sublist_of` l.
Proof.
  eexists. split; [reflexivity|].
  destruct (sort_rooms_is_stable Scenario.corridor_cfg Scenario.corridor_state
              _ 0%nat 1%nat eq_refl) as (_ & _ & Hw & _).
  - simpl. reflexivity.
  - apply Hw; [reflexivity|]. simpl. lia.
Defined.

(** * The adjacency satisfaction of a placement, tied to the requirements *)

Lemma requirements_fold (cfg : Config) (st : State) (l : list ref) (acc acc' : Z * Z) :
  rfold (fun acc room1 =>
      rfold (fun acc' neighbor_id =>
          let '(satisfied, total) := acc' in
          do hit <- neighbor_satisfied (heap st) room1 neighbor_id (placed_rooms st);
          Ok (if hit then satisfied + 1 else satisfied, total + 1))%res
        (adjacency_get cfg (Room.id (heap st room1))) acc) l acc = Ok acc' →
  acc'.2 = acc.2 + Z.of_nat (length (flat_map (fun room1 =>
             map (fun n => (room1, n)) (adjacency_get cfg (Room.id (heap st room1)))) l))
  ∧ acc'.1 = acc.1 + Z.of_nat (length (List.filter (requirement_met st)
               (flat_map (fun room1 =>
                  map (fun n => (room1, n))
                    (adjacency_get cfg (Room.id (heap st room1)))) l))).
Proof.
  revert acc. induction l as [|room1 l IH]; intros acc Hl; simpl in Hl.
  - inversion Hl. simpl. lia.
  - apply rbind_Ok in Hl as (acc1 & H1 & H2).
    apply requirements_of_room in H1 as [R1 R2]. apply IH in H2 as [I2 I1].
    cbn [flat_map]. rewrite List.filter_app, !length_app, length_map. lia.
Qed.

Lemma no_requirements (cfg : Config) (st : State) :
  (∀ r, r ∈ placed_rooms st → adjacency_get cfg (Room.id (heap st r)) = []) →
  requirements cfg st = [].
Proof.
  unfold requirements. induction (placed_rooms st) as [|r l IH]; intros H; [done|].
  simpl. rewrite H by (by left). simpl. apply IH. intros r' Hr'. apply H. by right.
Qed.

(** C9: on a placement state whose placed rooms have a [y] whenever they
    have an [x], [get_adjacency_score] returns a triple
    [(satisfied, total, ratio)] in which [total] is the number of adjacency
    requirements that the adjacency mapping declares for the placed rooms
    and [satisfied] the number of them that are met, so that
    [0 <= satisfied <= total]; [ratio = satisfied / total] when
    [total > 0] and [ratio = 1] when [total = 0].  So the ratio lies
    between 0 and 1, and when the mapping declares no requirement for any
    placed room the triple is [(0, 0, 1)]. *)
Theorem get_adjacency_score_bounds (cfg : Config) (st : State) :
  Forall (fun r => is_Some (Room.x (heap st r)) → is_Some (Room.y (heap st r)))
         (placed_rooms st) →
  ∃ satisfied total ratio,
    get_adjacency_score cfg st = Ok (satisfied, total, ratio)
    ∧ total = Z.of_nat (length (requirements cfg st))
    ∧ satisfied = Z.of_nat (length (List.filter (requirement_met st) (requirements cfg st)))
    ∧ 0 ≤ satisfied ≤ total
    ∧ (0 < total → ratio = (inject_Z satisfied / inject_Z total)%Q)
    ∧ (total = 0 → ratio = 1%Q)
    ∧ ((∀ r, r ∈ placed_rooms st → adjacency_get cfg (Room.id (heap st r)) = []) →
       satisfied = 0 ∧ total = 0 ∧ ratio = 1%Q)
    ∧ (0 <= ratio <= 1)%Q.
Proof.
  intros Hwf. unfold get_adjacency_score.
  set (P := fun acc : Z * Z => 0 ≤ acc.1 ≤ acc.2).
  destruct (rfold_total P
    (fun acc room1 =>
       rfold (fun acc' neighbor_id =>
           let '(satisfied, total) := acc' in
           (do hit <- neighbor_satisfied (heap st) room1 neighbor_id (placed_rooms st);
            Ok (if hit then satisfied + 1 else satisfied, total + 1))%res)
         (adjacency_get cfg (Room.id (heap st room1))) acc)
    (placed_rooms st) (0, 0)) as ([satisfied total] & Hfold & Hb).
  - intros acc room1 Hin Hacc.
    apply rfold_total; [|done].
    intros [s t] nid _ Hst.
    destruct (neighbor_satisfied_total (heap st) room1 nid (placed_rooms st)) as [v ->];
      [by apply (proj1 (Forall_forall _ _) Hwf)|done|].
    simpl. eexists; split; [done|]. unfold P in *; simpl in *. destruct v; simpl; lia.
  - unfold P; simpl; lia.
  - pose proof (requirements_fold _ _ _ _ _ Hfold) as [Ht Hs]. simpl in Ht, Hs.
    fold (requirements cfg st) in Ht, Hs.
    rewrite Hfold. simpl. unfold P in Hb; simpl in Hb.
    eexists _, _, _. split; [done|]. split; [done|]. split; [done|]. split; [done|].
    assert (Hnone : (∀ r, r ∈ placed_rooms st →
                       adjacency_get cfg (Room.id (heap st r)) = []) →
                    satisfied = 0 ∧ total = 0).
    { intros Hno. apply no_requirements in Hno. rewrite Hno in Ht, Hs. simpl in Ht, Hs.
      lia. }
    destruct (0 <? total) eqn:E.
    + apply Z.ltb_lt in E. split; [done|]. split; [lia|]. split.
      * intros Hno. apply Hnone in Hno. lia.
      * by apply ratio_bounds.
    + apply Z.ltb_ge in E. split; [lia|]. split; [done|]. split.
      * intros Hno. apply Hnone in Hno as [-> ->]. done.
      * split; discriminate.
Qed.

(** The counts at the two unit rooms of [Scenario.unit_state]: the placed
    room declares one requirement, towards the room that is not placed. *)
Lemma get_adjacency_score_bounds_witness :
  ∃ satisfied total ratio,
    get_adjacency_score Scenario.pair_cfg Scenario.unit_state = Ok (satisfied, total, ratio)
    ∧ total = Z.of_nat (length (requirements Scenario.pair_cfg Scenario.unit_state))
    ∧ satisfied = Z.of_nat (length (List.filter (requirement_met Scenario.unit_state)
                                     (requirements Scenario.pair_cfg Scenario.unit_state)))
    ∧ 0 ≤ satisfied ≤ total
    ∧ (0 < total → ratio = (inject_Z satisfied / inject_Z total)%Q)
    ∧ (total = 0 → ratio = 1%Q)
    ∧ ((∀ r, r ∈ placed_rooms Scenario.unit_state →
             adjacency_get Scenario.pair_cfg (Room.id (heap Scenario.unit_state r)) = []) →
       satisfied = 0 ∧ total = 0 ∧ ratio = 1%Q)
    ∧ (0 <= ratio <= 1)%Q.
Proof.
  apply (get_adjacency_score_bounds Scenario.pair_cfg Scenario.unit_state).
  repeat constructor. intros _. simpl. eauto.
Defined.

(** * The two branches of the candidate generator *)










